(** * Agent simulation engine: a shallow embedding of the Python sources

    The development follows the three modules that make up the core of the
    simulation:

    - [pokemon_alos.py]  : the agent class [PokemonALOs];
    - [items.py]         : [Item], the berry catalogue and [ItemManager];
    - [simulation_engine.py] : [SimulationEngine] and its [step] function.

    Conventions of the embedding.

    - [hp], [energy], relationship levels and item magnitudes are Python
      [int]s: they are modelled by [Z].
    - Positions, distances, speeds and probabilities are Python [float]s
      (IEEE 754 binary64): they are modelled by Rocq's primitive floats,
      whose operations are the same binary64 operations.  A power
      [x ** y] is computed by the C library's [pow], whose rounding no
      standard fixes: the library is a parameter of the embedding
      ([Flt.Libm]), and numpy's [sqrt] is the correctly rounded one.
    - Strings are byte strings holding the UTF-8 encoding of the Python text.
    - Objects mutated in place (the agents held by the engine, the field
      items, the event log) live in one explicit store, the [World]; an agent
      is referred to by its index in the engine's agent list, which is the
      order of [list(self.pokemons.values())].
    - The module-level random generator is an explicit tape of raw draws.
    - A Python exception is an outcome [Raised]; the store keeps every
      mutation done before the exception was raised. *)

From Stdlib Require Import ZArith List String Ascii Bool Lia PrimFloat.
From Stdlib Require FloatAxioms SpecFloat.
From stdpp Require Import base tactics option list gmap strings pretty.

Set Warnings "-inexact-float".

Local Open Scope string_scope.
Local Open Scope Z_scope.

(** ** Floating point helpers *)

Module Flt.

Abbreviation pos := (float * float)%type.

(** Python's [min(10, v)] keeps its first argument unless a later one is
    strictly smaller; [max(0, w)] keeps it unless a later one is strictly
    larger. *)
Definition min_first (a v : float) : float :=
  if PrimFloat.ltb v a then v else a.

Definition max_first (a w : float) : float :=
  if PrimFloat.ltb a w then w else a.

(** Python's [x ** y] on two floats hands its operands to the C library's
    [pow].  The C standard does not say how [pow] rounds, and the libraries
    in use do not round correctly: [x ** 2] is not always [x * x], nor is
    [x ** 0.5] always the square root of [x].  The library is therefore a
    parameter of the embedding, and what is proved for every [Libm] holds
    whichever library the interpreter is linked with. *)
Class Libm := pow : float -> float -> float.

(** [np.sqrt(dx**2 + dy**2)]: the two squares are powers, the root is
    numpy's [sqrt], the correctly rounded binary64 square root. *)
Definition hypot {libm : Libm} (dx dy : float) : float :=
  PrimFloat.sqrt (pow dx 2 + pow dy 2)%float.

(** Exact conversion of a natural number below [2^53] to binary64. *)
Fixpoint of_positive (p : positive) : float :=
  match p with
  | xH => 1%float
  | xO q => (2 * of_positive q)%float
  | xI q => (2 * of_positive q + 1)%float
  end.

Definition of_N (n : N) : float :=
  match n with
  | N0 => 0%float
  | Npos p => of_positive p
  end.

End Flt.

#[global] Instance float_inhabited : Inhabited float := populate 0%float.

(** ** Data model *)

(** [self.mood]: one of the five literals the code ever assigns. *)
Inductive Mood : Set := normal | happy | angry | tired | excited.

#[global] Instance Mood_eq_dec : EqDecision Mood.
Proof. solve_decision. Defined.

(** [items.Item].  [effect_type] stays a string: the constructor accepts any
    text and [use] has a final branch for kinds it does not know. *)
Record Item : Type := mkItem {
  item_name : string;
  item_type : string;
  effect_type : string;
  effect_value : Z;
  item_position : option Flt.pos
}.

(** [pokemon_alos.PokemonALOs] (the fields the engine reads or writes). *)
Record PokemonALOs : Type := mkPokemon {
  key : string;
  name : string;
  owner : string;
  species : string;
  type_ : string;
  personality : string;
  position : Flt.pos;
  hp : Z;
  energy : Z;
  mood : Mood;
  current_abilities : list string;
  relationships : gmap string Z;
  inventory : list Item;
  max_inventory : nat
}.

#[global] Instance PokemonALOs_inhabited : Inhabited PokemonALOs :=
  populate (mkPokemon "" "" "" "" "" "" (0%float, 0%float) 100 100 normal
                      [] ∅ [] 3).

(** Field updates of an agent, one per attribute the code assigns. *)
Definition set_position (v : Flt.pos) (p : PokemonALOs) : PokemonALOs :=
  mkPokemon (key p) (name p) (owner p) (species p) (type_ p) (personality p)
            v (hp p) (energy p) (mood p) (current_abilities p)
            (relationships p) (inventory p) (max_inventory p).

Definition set_hp (v : Z) (p : PokemonALOs) : PokemonALOs :=
  mkPokemon (key p) (name p) (owner p) (species p) (type_ p) (personality p)
            (position p) v (energy p) (mood p) (current_abilities p)
            (relationships p) (inventory p) (max_inventory p).

Definition set_energy (v : Z) (p : PokemonALOs) : PokemonALOs :=
  mkPokemon (key p) (name p) (owner p) (species p) (type_ p) (personality p)
            (position p) (hp p) v (mood p) (current_abilities p)
            (relationships p) (inventory p) (max_inventory p).

Definition set_mood (v : Mood) (p : PokemonALOs) : PokemonALOs :=
  mkPokemon (key p) (name p) (owner p) (species p) (type_ p) (personality p)
            (position p) (hp p) (energy p) v (current_abilities p)
            (relationships p) (inventory p) (max_inventory p).

Definition set_current_abilities (v : list string) (p : PokemonALOs)
  : PokemonALOs :=
  mkPokemon (key p) (name p) (owner p) (species p) (type_ p) (personality p)
            (position p) (hp p) (energy p) (mood p) v
            (relationships p) (inventory p) (max_inventory p).

Definition set_relationships (v : gmap string Z) (p : PokemonALOs)
  : PokemonALOs :=
  mkPokemon (key p) (name p) (owner p) (species p) (type_ p) (personality p)
            (position p) (hp p) (energy p) (mood p) (current_abilities p)
            v (inventory p) (max_inventory p).

Definition set_inventory (v : list Item) (p : PokemonALOs) : PokemonALOs :=
  mkPokemon (key p) (name p) (owner p) (species p) (type_ p) (personality p)
            (position p) (hp p) (energy p) (mood p) (current_abilities p)
            (relationships p) v (max_inventory p).

(** ** pokemon_alos.py: movement *)

(** [update_position]: [x = max(0, min(10, x + dx))], likewise [y]. *)
Definition update_position (dx dy : float) (p : PokemonALOs) : PokemonALOs :=
  let '(x, y) := position p in
  let x' := Flt.max_first 0 (Flt.min_first 10 (x + dx)%float) in
  let y' := Flt.max_first 0 (Flt.min_first 10 (y + dy)%float) in
  set_position (x', y') p.

(** [move_towards] *)
Definition move_towards {libm : Flt.Libm} (target_pos : Flt.pos) (speed : float)
    (p : PokemonALOs) : PokemonALOs :=
  let '(x, y) := position p in
  let '(tx, ty) := target_pos in
  let dx := (tx - x)%float in
  let dy := (ty - y)%float in
  let dist := Flt.hypot dx dy in
  if PrimFloat.ltb 0 dist
  then update_position (dx / dist * speed)%float (dy / dist * speed)%float p
  else p.

(** [move_away] *)
Definition move_away {libm : Flt.Libm} (target_pos : Flt.pos) (speed : float)
    (p : PokemonALOs) : PokemonALOs :=
  let '(x, y) := position p in
  let '(tx, ty) := target_pos in
  let dx := (x - tx)%float in
  let dy := (y - ty)%float in
  let dist := Flt.hypot dx dy in
  if PrimFloat.ltb 0 dist
  then update_position (dx / dist * speed)%float (dy / dist * speed)%float p
  else p.

(** The Euclidean distance between two points, as [distance_to] computes it
    from [(x1, y1)] and [(x2, y2)]. *)
Definition euclid {libm : Flt.Libm} (a b : Flt.pos) : float :=
  let '(x1, y1) := a in
  let '(x2, y2) := b in
  Flt.hypot (x2 - x1)%float (y2 - y1)%float.

(** [distance_to] *)
Definition distance_to {libm : Flt.Libm} (p other : PokemonALOs) : float :=
  euclid (position p) (position other).

(** ** pokemon_alos.py: vitals, abilities, relationships *)

(** [take_damage] *)
Definition take_damage (damage : Z) (p : PokemonALOs) : PokemonALOs :=
  let p := set_hp (Z.max 0 (hp p - damage)) p in
  let p := set_energy (Z.max 0 (energy p - 5)) p in
  if hp p <? 30 then set_mood tired p
  else if hp p <? 60 then set_mood angry p
  else p.

(** [heal] *)
Definition heal (amount : Z) (p : PokemonALOs) : PokemonALOs :=
  let p := set_hp (Z.min 100 (hp p + amount)) p in
  if 70 <? hp p then set_mood happy p else p.

(** [rest] *)
Definition rest (p : PokemonALOs) : PokemonALOs :=
  let p := set_energy (Z.min 100 (energy p + 10)) p in
  let p := set_hp (Z.min 100 (hp p + 3)) p in
  if 80 <? energy p then set_mood normal p else p.

(** [move_name not in self.current_abilities] *)
Definition knows (move_name : string) (p : PokemonALOs) : bool :=
  existsb (String.eqb move_name) (current_abilities p).

(** [learn_move] *)
Definition learn_move (move_name : string) (p : PokemonALOs) : PokemonALOs :=
  if knows move_name p then p
  else set_mood excited
         (set_current_abilities (current_abilities p ++ [move_name]) p).

(** [get_relationship]: [self.relationships.get(other_key, 0)] *)
Definition get_relationship (other_key : string) (p : PokemonALOs) : Z :=
  default 0 (relationships p !! other_key).

(** [update_relationship] *)
Definition update_relationship (other_key : string) (change : Z)
    (p : PokemonALOs) : PokemonALOs :=
  let current := default 0 (relationships p !! other_key) in
  set_relationships
    (<[other_key := Z.max (-100) (Z.min 100 (current + change))]>
       (relationships p)) p.

(** ** items.py: [Item.use] *)

(** [f"{v:.0f}"] of an integer value. *)
Definition fmt0 (v : Z) : string := pretty v.

(** [pokemon.mood in ["angry", "tired"]] *)
Definition mood_is_bad (m : Mood) : bool :=
  match m with
  | angry | tired => true
  | _ => false
  end.

(** [Item.use]: returns the description and the mutated agent. *)
Definition use (it : Item) (pokemon : PokemonALOs) : string * PokemonALOs :=
  if String.eqb (effect_type it) "hp" then
    let old_hp := hp pokemon in
    let pokemon := heal (effect_value it) pokemon in
    (name pokemon +:+ "はHPが" +:+ fmt0 (hp pokemon - old_hp) +:+ "回復した！",
     pokemon)
  else if String.eqb (effect_type it) "energy" then
    let old_energy := energy pokemon in
    let pokemon :=
      set_energy (Z.min 100 (energy pokemon + effect_value it)) pokemon in
    (name pokemon +:+ "はEnergyが" +:+ fmt0 (energy pokemon - old_energy)
       +:+ "回復した！",
     pokemon)
  else if String.eqb (effect_type it) "mood" then
    if mood_is_bad (mood pokemon)
    then (name pokemon +:+ "の気分が良くなった！", set_mood happy pokemon)
    else (name pokemon +:+ "は元気になった！", set_mood excited pokemon)
  else if String.eqb (effect_type it) "mixed" then
    let pokemon := heal (effect_value it / 2) pokemon in
    let pokemon :=
      set_energy (Z.min 100 (energy pokemon + effect_value it / 2)) pokemon in
    (name pokemon +:+ "は元気を取り戻した！", pokemon)
  else
    (name pokemon +:+ "は" +:+ item_name it +:+ "を使った", pokemon).

(** ** pokemon_alos.py: inventory *)

(** [add_item] *)
Definition add_item (it : Item) (p : PokemonALOs) : bool * PokemonALOs :=
  if (length (inventory p) <? max_inventory p)%nat
  then (true, set_inventory (inventory p ++ [it]) p)
  else (false, p).

(** [use_item]: [self.inventory.pop(item_index)] then [item.use(self)]. *)
Definition use_item (item_index : Z) (p : PokemonALOs)
  : option string * PokemonALOs :=
  if (0 <=? item_index) && (item_index <? Z.of_nat (length (inventory p)))
  then
    match inventory p !! Z.to_nat item_index with
    | Some it =>
        let p := set_inventory (delete (Z.to_nat item_index) (inventory p)) p in
        let '(msg, p) := use it p in
        (Some msg, p)
    | None => (None, p)
    end
  else (None, p).

(** The index of the first item a [for i, item in enumerate(...)] loop with
    an [if test(item): return ...] body stops at. *)
Fixpoint first_index (test : Item -> bool) (l : list Item) : option nat :=
  match l with
  | [] => None
  | it :: l' =>
      if test it then Some 0%nat
      else match first_index test l' with
           | Some i => Some (S i)
           | None => None
           end
  end.

Definition heals_hp (it : Item) : bool :=
  String.eqb (effect_type it) "hp" || String.eqb (effect_type it) "mixed".

Definition restores_energy (it : Item) : bool :=
  String.eqb (effect_type it) "energy" || String.eqb (effect_type it) "mixed".

Definition lifts_mood (it : Item) : bool :=
  String.eqb (effect_type it) "mood".

(** [auto_use_item]: three [if] statements in sequence, each with a loop
    that returns from the function at the first matching item. *)
Definition auto_use_item (p : PokemonALOs) : option string * PokemonALOs :=
  match (if hp p <=? 50 then first_index heals_hp (inventory p) else None) with
  | Some i => use_item (Z.of_nat i) p
  | None =>
      match (if energy p <=? 30
             then first_index restores_energy (inventory p) else None) with
      | Some i => use_item (Z.of_nat i) p
      | None =>
          match (if mood_is_bad (mood p)
                 then first_index lifts_mood (inventory p) else None) with
          | Some i => use_item (Z.of_nat i) p
          | None => (None, p)
          end
      end
  end.

(** ** The random generator

    Python's module-level generator is an explicit tape of raw draws; a tape
    that has run out keeps yielding [0].  [random()] is a multiple of
    [2^-53] in [[0, 1)], as CPython builds it from 53 random bits; the other
    functions are the ones of [random.py], written over [random()] and over
    a bounded draw. *)

Module Random.

Definition state : Type := list N.

Definition next (s : state) : N * state :=
  match s with
  | [] => (0%N, [])
  | r :: s' => (r, s')
  end.

(** [random.random()] *)
Definition random (s : state) : float * state :=
  let '(r, s') := next s in
  ((Flt.of_N (r mod 2 ^ 53) / 9007199254740992)%float, s').

(** [random.uniform(a, b)]: [a + (b - a) * random()] *)
Definition uniform (a b : float) (s : state) : float * state :=
  let '(u, s') := random s in
  ((a + (b - a) * u)%float, s').

(** [_randbelow(n)] for [n > 0]: some number in [[0, n)]. *)
Definition randbelow (n : N) (s : state) : N * state :=
  let '(r, s') := next s in
  ((r mod n)%N, s').

(** [random.randint(a, b)]: [a + _randbelow(b - a + 1)] *)
Definition randint (a b : Z) (s : state) : Z * state :=
  let '(k, s') := randbelow (Z.to_N (b - a + 1)) s in
  (a + Z.of_N k, s').

(** [random.choice(seq)]: [seq[_randbelow(len(seq))]] *)
Definition choice {A : Type} `{Inhabited A} (l : list A) (s : state)
  : A * state :=
  let '(k, s') := randbelow (N.of_nat (length l)) s in
  (l !!! N.to_nat k, s').

(** [random.sample(population, k)], the pool branch of [random.py]:
    [j = _randbelow(n - i); result[i] = pool[j]; pool[j] = pool[n - i - 1]]. *)
Fixpoint sample {A : Type} `{Inhabited A} (pool : list A) (k : nat)
    (s : state) : list A * state :=
  match k with
  | O => ([], s)
  | S k' =>
      let n := length pool in
      let '(j, s') := randbelow (N.of_nat n) s in
      let x := pool !!! N.to_nat j in
      let pool' := take (n - 1) (<[N.to_nat j := pool !!! (n - 1)%nat]> pool) in
      let '(rest, s'') := sample pool' k' s' in
      (x :: rest, s'')
  end.

End Random.

(** ** items.py: the catalogue and [ItemManager] *)

(** [BERRY_TYPES], in the order of the dictionary literal:
    name, type, effect type, effect value. *)
Definition BERRY_TYPES : list (string * (string * string * Z)) :=
  [ ("オレンのみ", ("berry", "hp", 20));
    ("オボンのみ", ("berry", "hp", 40));
    ("チーゴのみ", ("berry", "energy", 30));
    ("モモンのみ", ("berry", "mood", 1));
    ("ナナのみ", ("berry", "mixed", 30));
    ("キーのみ", ("berry", "energy", 50));
    ("ヒメリのみ", ("berry", "hp", 15)) ].

Record ItemManager : Type := mkItemManager {
  field_size : Flt.pos;
  items_on_field : list Item;
  spawn_probability : float;
  max_items_on_field : nat
}.

Definition set_items_on_field (v : list Item) (m : ItemManager) : ItemManager :=
  mkItemManager (field_size m) v (spawn_probability m) (max_items_on_field m).

(** [create_random_berry] *)
Definition create_random_berry (s : Random.state) : Item * Random.state :=
  let '(berry, s') := Random.choice BERRY_TYPES s in
  let '(berry_name, (ty, eff, val)) := berry in
  (mkItem berry_name ty eff val None, s').

(** [spawn_item] *)
Definition spawn_item (m : ItemManager) (s : Random.state)
  : option Item * ItemManager * Random.state :=
  if (max_items_on_field m <=? length (items_on_field m))%nat
  then (None, m, s)
  else
    let '(r, s) := Random.random s in
    if PrimFloat.ltb r (spawn_probability m) then
      let '(it, s) := create_random_berry s in
      let '(x, s) := Random.uniform 0.5 (fst (field_size m) - 0.5)%float s in
      let '(y, s) := Random.uniform 0.5 (snd (field_size m) - 0.5)%float s in
      let it := mkItem (item_name it) (item_type it) (effect_type it)
                       (effect_value it) (Some (x, y)) in
      (Some it, set_items_on_field (items_on_field m ++ [it]) m, s)
    else (None, m, s).

(** The test of the loop body of [check_pickup]: the item has a position
    and [((px - ix) ** 2 + (py - iy) ** 2) ** 0.5 < pickup_distance]. *)
Definition within_reach {libm : Flt.Libm}
    (pos : Flt.pos) (pickup_distance : float) (it : Item)
  : bool :=
  match item_position it with
  | Some (ix, iy) =>
      let '(px, py) := pos in
      PrimFloat.ltb
        (Flt.pow (Flt.pow (px - ix) 2 + Flt.pow (py - iy) 2) 0.5)%float
        pickup_distance
  | None => false
  end.

(** The loop of [check_pickup] over the field items, in list order: the
    first item within reach is removed from the list and returned. *)
Fixpoint scan_pickup {libm : Flt.Libm} (pos : Flt.pos) (pickup_distance : float)
    (items : list Item) : option Item * list Item :=
  match items with
  | [] => (None, [])
  | it :: rest =>
      if within_reach pos pickup_distance it then (Some it, rest)
      else
        let '(found, rest') := scan_pickup pos pickup_distance rest in
        (found, it :: rest')
  end.

(** [check_pickup] *)
Definition check_pickup {libm : Flt.Libm}
    (pokemon : PokemonALOs) (pickup_distance : float)
    (m : ItemManager) : option Item * ItemManager :=
  let '(found, items) :=
    scan_pickup (position pokemon) pickup_distance (items_on_field m) in
  (found, set_items_on_field items m).

(** [clear_all_items] *)
Definition clear_all_items (m : ItemManager) : ItemManager :=
  set_items_on_field [] m.

(** ** The external collaborators and the engine state *)

(** What a call that may raise produces. *)
Inductive Outcome (A : Type) : Type :=
| Returned (a : A)
| Raised (e : string).

Arguments Returned {A} a.
Arguments Raised {A} e.

(** [PokemonALOs.to_dict]: the view of an agent handed to the narrator. *)
Record ALOsDict : Type := mkALOsDict {
  d_mainObj : string;
  d_key : string;
  d_species : string;
  d_type : string;
  d_owner : string;
  d_personality : string;
  d_mood : Mood;
  d_abilities : list string;
  d_hp : Z;
  d_energy : Z;
  d_position : Flt.pos;
  d_relationships : gmap string Z
}.

Definition to_dict (p : PokemonALOs) : ALOsDict :=
  mkALOsDict (name p) (key p) (species p) (type_ p) (owner p) (personality p)
             (mood p) (current_abilities p) (hp p) (energy p) (position p)
             (relationships p).

(** The narrator, [ALOsSystem.simulate_interaction]: a remote service, so any
    call may raise. *)
Record ALOsSystem : Type := mkALOsSystem {
  simulate_interaction : list ALOsDict -> string -> list string -> Outcome string
}.

(** The context source, [PokemonRAG]. *)
Record PokemonRAG : Type := mkPokemonRAG {
  query_context : string -> Z -> Outcome (list string);
  get_interaction_scenarios : Outcome (list string)
}.

Record SimulationEngine : Type := mkEngine {
  pokemons : list PokemonALOs;
  alos_system : ALOsSystem;
  rag_system : PokemonRAG;
  step_count : Z;
  event_log : list string;
  item_manager : ItemManager;
  battle_probability : float;
  friendship_probability : float;
  learn_probability : float;
  random_event_probability : float
}.

Definition set_pokemons (v : list PokemonALOs) (e : SimulationEngine)
  : SimulationEngine :=
  mkEngine v (alos_system e) (rag_system e) (step_count e) (event_log e)
           (item_manager e) (battle_probability e) (friendship_probability e)
           (learn_probability e) (random_event_probability e).

Definition set_step_count (v : Z) (e : SimulationEngine) : SimulationEngine :=
  mkEngine (pokemons e) (alos_system e) (rag_system e) v (event_log e)
           (item_manager e) (battle_probability e) (friendship_probability e)
           (learn_probability e) (random_event_probability e).

Definition set_event_log (v : list string) (e : SimulationEngine)
  : SimulationEngine :=
  mkEngine (pokemons e) (alos_system e) (rag_system e) (step_count e) v
           (item_manager e) (battle_probability e) (friendship_probability e)
           (learn_probability e) (random_event_probability e).

Definition set_item_manager (v : ItemManager) (e : SimulationEngine)
  : SimulationEngine :=
  mkEngine (pokemons e) (alos_system e) (rag_system e) (step_count e)
           (event_log e) v (battle_probability e) (friendship_probability e)
           (learn_probability e) (random_event_probability e).

(** The store: the engine object and the state of the random generator. *)
Record World : Type := mkWorld {
  engine : SimulationEngine;
  random_state : Random.state
}.

(** The value [step] returns. *)
Record StepResult : Type := mkStepResult {
  r_step : Z;
  r_events : list string;
  r_pokemons_state : list (string * ALOsDict)
}.

(** ** Computations over the store *)

Module Import Run.

(** A computation reads and writes the store and either returns a value or
    raises.  The store it leaves is kept in both cases. *)
Definition M (A : Type) : Type := World -> Outcome A * World.

Definition ret {A : Type} (a : A) : M A := fun w => (Returned a, w).

Definition bind {A B : Type} (m : M A) (k : A -> M B) : M B :=
  fun w =>
    match m w with
    | (Returned a, w') => k a w'
    | (Raised e, w') => (Raised e, w')
    end.

(** [try: body  except Exception as e: handler] *)
Definition try_except {A : Type} (body : M A) (handler : string -> M A)
  : M A :=
  fun w =>
    match body w with
    | (Returned a, w') => (Returned a, w')
    | (Raised e, w') => handler e w'
    end.

(** The outcome of a call to a collaborator, made into a computation. *)
Definition call {A : Type} (f : World -> Outcome A) : M A :=
  fun w => (f w, w).

Definition gets {A : Type} (f : SimulationEngine -> A) : M A :=
  fun w => (Returned (f (engine w)), w).

Definition modify (f : SimulationEngine -> SimulationEngine) : M unit :=
  fun w => (Returned tt, mkWorld (f (engine w)) (random_state w)).

(** A call into the [random] module. *)
Definition rand {A : Type} (f : Random.state -> A * Random.state) : M A :=
  fun w =>
    let '(a, s) := f (random_state w) in
    (Returned a, mkWorld (engine w) s).

(** A [for x in l] loop whose body updates a local variable [acc]. *)
Fixpoint for_each {A S : Type} (l : list A) (body : A -> S -> M S) (acc : S)
  : M S :=
  match l with
  | [] => ret acc
  | x :: l' => bind (body x acc) (for_each l' body)
  end.

End Run.

Declare Scope run_scope.
Delimit Scope run_scope with run.
Notation "'let*' x ':=' m 'in' k" := (bind m (fun x => k))
  (at level 10, x name, m at level 100, k at level 200) : run_scope.
Notation "'let*' ' x ':=' m 'in' k" := (bind m (fun x => k))
  (at level 10, x strict pattern, m at level 100, k at level 200)
  : run_scope.
Notation "m '>>' k" := (bind m (fun _ => k))
  (at level 100, k at level 200, right associativity) : run_scope.
Local Open Scope run_scope.

(** The agent at index [i] of [pokemon_list], and an in-place update of it.
    Indices always come from enumerating the list, so they are in range. *)
Definition pokemon (i : nat) : M PokemonALOs :=
  gets (fun e => pokemons e !!! i).

Definition update (i : nat) (f : PokemonALOs -> PokemonALOs) : M unit :=
  modify (fun e => set_pokemons (alter f i (pokemons e)) e).

(** A method of the agent at index [i] that mutates it and returns a value. *)
Definition method {A : Type} (i : nat) (f : PokemonALOs -> A * PokemonALOs)
  : M A :=
  let* p := pokemon i in
  update i (fun _ => snd (f p)) >>
  ret (fst (f p)).

(** Methods of the item manager, which draw from [random] or not. *)
Definition spawn : M (option Item) :=
  fun w =>
    let '(it, m, s) := spawn_item (item_manager (engine w)) (random_state w) in
    (Returned it, mkWorld (set_item_manager m (engine w)) s).

Definition pickup {libm : Flt.Libm} (p : PokemonALOs) (pickup_distance : float)
  : M (option Item) :=
  fun w =>
    let '(found, m) := check_pickup p pickup_distance (item_manager (engine w)) in
    (Returned found, mkWorld (set_item_manager m (engine w)) (random_state w)).

(** ** simulation_engine.py *)

(** [log_event] (the copy printed on the console is not kept). *)
Definition log_event (event : string) : M unit :=
  modify (fun e =>
    let log_entry := "[Step " +:+ pretty (step_count e) +:+ "] " +:+ event in
    let log := (event_log e ++ [log_entry])%list in
    set_event_log (if (200 <? length log)%nat then drop 1 log else log) e).

(** Python's slice [l[start:]]. *)
Definition slice_from {A : Type} (start : Z) (l : list A) : list A :=
  let len := Z.of_nat (length l) in
  let lo := if start <? 0 then Z.max 0 (len + start) else Z.min start len in
  drop (Z.to_nat lo) l.

(** [get_recent_logs]: [self.event_log[-n:]] *)
Definition get_recent_logs (n : Z) (e : SimulationEngine) : list string :=
  slice_from (- n) (event_log e).

(** [if s:] on a string, and [if x:] on an optional string. *)
Definition truthy (s : string) : bool := negb (String.eqb s "").

Definition append_event (event : option string) (step_events : list string)
  : list string :=
  match event with
  | Some ev => if truthy ev then (step_events ++ [ev])%list else step_events
  | None => step_events
  end.

(** [_simulate_battle].  The context query is made before the [try]; the
    narrator call is its first statement. *)
Definition _simulate_battle (i j : nat) : M string :=
  let* pokemon1 := pokemon i in
  let* pokemon2 := pokemon j in
  let query := name pokemon1 +:+ "と" +:+ name pokemon2 +:+ "のバトル" in
  let* context := call (fun w => query_context (rag_system (engine w)) query 3) in
  let scenario := name pokemon1 +:+ "と" +:+ name pokemon2 +:+ "が戦っている" in
  try_except
    (let* result :=
       call (fun w =>
               simulate_interaction (alos_system (engine w))
                 [to_dict pokemon1; to_dict pokemon2] scenario context) in
     let* damage1 := rand (Random.randint 10 25) in
     let* damage2 := rand (Random.randint 10 25) in
     update i (take_damage damage2) >>
     update j (take_damage damage1) >>
     update i (update_relationship (key pokemon2) (-5)) >>
     update j (update_relationship (key pokemon1) (-5)) >>
     log_event ("⚔️ " +:+ name pokemon1 +:+ " vs " +:+ name pokemon2
                  +:+ ": バトル発生！") >>
     log_event result >>
     ret ("Battle: " +:+ name pokemon1 +:+ " vs " +:+ name pokemon2))
    (fun _ =>
       log_event ("⚔️ " +:+ name pokemon1 +:+ "と" +:+ name pokemon2
                    +:+ "が戦った！") >>
       update i (take_damage 15) >>
       update j (take_damage 15) >>
       update i (update_relationship (key pokemon2) (-5)) >>
       update j (update_relationship (key pokemon1) (-5)) >>
       ret ("Battle: " +:+ name pokemon1 +:+ " vs " +:+ name pokemon2)).

(** [_simulate_friendship] *)
Definition _simulate_friendship (i j : nat) : M string :=
  let* pokemon1 := pokemon i in
  let* pokemon2 := pokemon j in
  let query := name pokemon1 +:+ "と" +:+ name pokemon2 +:+ "の友情" in
  let* context := call (fun w => query_context (rag_system (engine w)) query 3) in
  let scenario :=
    name pokemon1 +:+ "と" +:+ name pokemon2 +:+ "が友好的に交流している" in
  try_except
    (let* result :=
       call (fun w =>
               simulate_interaction (alos_system (engine w))
                 [to_dict pokemon1; to_dict pokemon2] scenario context) in
     update i (update_relationship (key pokemon2) 10) >>
     update j (update_relationship (key pokemon1) 10) >>
     update i (set_mood happy) >>
     update j (set_mood happy) >>
     update i (heal 5) >>
     update j (heal 5) >>
     log_event ("💚 " +:+ name pokemon1 +:+ "と" +:+ name pokemon2
                  +:+ "が仲良くなった！") >>
     log_event result >>
     ret ("Friendship: " +:+ name pokemon1 +:+ " & " +:+ name pokemon2))
    (fun _ =>
       log_event ("💚 " +:+ name pokemon1 +:+ "と" +:+ name pokemon2
                    +:+ "が交流した") >>
       update i (update_relationship (key pokemon2) 10) >>
       update j (update_relationship (key pokemon1) 10) >>
       ret ("Friendship: " +:+ name pokemon1 +:+ " & " +:+ name pokemon2)).

(** [_handle_interaction] *)
Definition _handle_interaction (i j : nat) : M (option string) :=
  let* pokemon1 := pokemon i in
  let* pokemon2 := pokemon j in
  let relationship1 := get_relationship (key pokemon2) pokemon1 in
  let relationship2 := get_relationship (key pokemon1) pokemon2 in
  let* battle_p := gets battle_probability in
  let* friendship_p := gets friendship_probability in
  if (relationship1 <? -30) || (relationship2 <? -30) then
    let* r := rand Random.random in
    if PrimFloat.ltb r (battle_p * 2)%float
    then let* ev := _simulate_battle i j in ret (Some ev)
    else ret None
  else if (30 <? relationship1) || (30 <? relationship2) then
    let* r := rand Random.random in
    if PrimFloat.ltb r (friendship_p * 2)%float
    then let* ev := _simulate_friendship i j in ret (Some ev)
    else ret None
  else
    let* r := rand Random.random in
    if PrimFloat.ltb r battle_p
    then let* ev := _simulate_battle i j in ret (Some ev)
    else if PrimFloat.ltb r (battle_p + friendship_p)%float
    then let* ev := _simulate_friendship i j in ret (Some ev)
    else ret None.

(** [_handle_awareness] *)
Definition _handle_awareness {libm : Flt.Libm} (i j : nat) : M unit :=
  let* pokemon1 := pokemon i in
  let* pokemon2 := pokemon j in
  let relationship := get_relationship (key pokemon2) pokemon1 in
  if relationship <? -30 then
    update i (move_towards (position pokemon2) 0.2)
  else if 50 <? relationship then
    update i (move_towards (position pokemon2) 0.15)
  else if decide (mood pokemon1 = tired) then
    update i (move_away (position pokemon2) 0.1)
  else ret tt.

(** [random_walk], a method of the agent that draws from [random]. *)
Definition random_walk (speed : float) (i : nat) : M unit :=
  let* dx := rand (Random.uniform (- speed)%float speed) in
  let* dy := rand (Random.uniform (- speed)%float speed) in
  update i (update_position dx dy).

(** The table [potential_moves] of [_practice_move]. *)
Definition potential_moves (k : string) : list string :=
  if String.eqb k "pikachu"
  then ["ボルテッカー"; "エレキボール"; "なみのり"]
  else if String.eqb k "meowth"
  then ["つじぎり"; "イカサマ"; "アシストパワー"]
  else if String.eqb k "sprigatito"
  then ["エナジーボール"; "ソーラービーム"; "やどりぎのタネ"]
  else [].

(** [_practice_move] *)
Definition _practice_move (i : nat) : M unit :=
  let* p := pokemon i in
  if (6 <=? length (current_abilities p))%nat then ret tt
  else
    let new_moves :=
      filter (fun m => negb (knows m p)) (potential_moves (key p)) in
    match new_moves with
    | [] => ret tt
    | _ :: _ =>
        let* r := rand Random.random in
        if PrimFloat.ltb r 0.3 then
          let* new_move := rand (Random.choice new_moves) in
          update i (learn_move new_move) >>
          log_event ("✨ " +:+ name p +:+ "は" +:+ new_move +:+ "を覚えた！")
        else ret tt
    end.

(** [_handle_individual_action] *)
Definition _handle_individual_action (i : nat) : M unit :=
  let* p := pokemon i in
  let* learn_p := gets learn_probability in
  if energy p <? 30 then
    update i rest >>
    let* r := rand Random.random in
    if PrimFloat.ltb r 0.1
    then log_event (name p +:+ "は休憩している...")
    else ret tt
  else if hp p <? 40 then
    update i rest >>
    let* r := rand Random.random in
    if PrimFloat.ltb r 0.15
    then log_event (name p +:+ "は傷を癒やしている...")
    else ret tt
  else
    random_walk 0.15 i >>
    let* r := rand Random.random in
    if PrimFloat.ltb r learn_p then _practice_move i else ret tt.

(** [_trigger_random_event] *)
Definition _trigger_random_event {libm : Flt.Libm} : M (option string) :=
  let* scenarios :=
    call (fun w => get_interaction_scenarios (rag_system (engine w))) in
  match scenarios with
  | [] => ret None
  | _ :: _ =>
      let* scenario := rand (Random.choice scenarios) in
      log_event ("🎲 ランダムイベント: " +:+ scenario) >>
      let* n := gets (fun e => length (pokemons e)) in
      let* selected := rand (Random.sample (seq 0 n) (Nat.min 2 n)) in
      (match selected with
       | [a; b] =>
           let* target := pokemon b in
           update a (move_towards (position target) 0.5)
       | _ => ret tt
       end) >>
      ret (Some ("Random Event: " +:+ scenario))
  end.

(** The body of the pair loop of [step], once [distance] is computed. *)
Definition dispatch_pair {libm : Flt.Libm} (distance : float) (i j : nat)
    (step_events : list string) : M (list string) :=
  if PrimFloat.ltb distance 1.5 then
    let* event := _handle_interaction i j in
    ret (append_event event step_events)
  else if PrimFloat.ltb distance 3.0 then
    _handle_awareness i j >> ret step_events
  else ret step_events.

(** One iteration of the inner pair loop:
    [distance = pokemon1.distance_to(pokemon2)], then the dispatch. *)
Definition visit_pair {libm : Flt.Libm} (i j : nat) (step_events : list string)
  : M (list string) :=
  let* pokemon1 := pokemon i in
  let* pokemon2 := pokemon j in
  dispatch_pair (distance_to pokemon1 pokemon2) i j step_events.

(** [for i, pokemon1 in enumerate(pokemon_list):
       for pokemon2 in pokemon_list[i+1:]: body] *)
Definition for_pairs (n : nat)
    (body : nat -> nat -> list string -> M (list string))
    (step_events : list string) : M (list string) :=
  for_each (seq 0 n)
    (fun i => for_each (seq (S i) (n - S i)) (body i)) step_events.

(** One iteration of the second loop of [step]: the agent acts, picks an
    item up, and uses an item if it needs one. *)
Definition individual_turn {libm : Flt.Libm} (i : nat) (_ : unit) : M unit :=
  _handle_individual_action i >>
  let* p := pokemon i in
  let* picked_item := pickup p 0.6 in
  (match picked_item with
   | Some it =>
       let* added := method i (add_item it) in
       if added : bool
       then log_event ("📦 " +:+ name p +:+ "は" +:+ item_name it
                         +:+ "を拾った！")
       else
         let* result := method i (use it) in
         log_event ("💊 " +:+ result)
   | None => ret tt
   end) >>
  let* auto_use_result := method i auto_use_item in
  match auto_use_result with
  | Some msg => if truthy msg then log_event ("💊 " +:+ msg) else ret tt
  | None => ret tt
  end.

(** [step] *)
Definition step {libm : Flt.Libm} : M StepResult :=
  modify (fun e => set_step_count (step_count e + 1) e) >>
  let* new_item := spawn in
  (match new_item with
   | Some it => log_event ("🍓 " +:+ item_name it +:+ "が出現した！")
   | None => ret tt
   end) >>
  let* n := gets (fun e => length (pokemons e)) in
  let* step_events := for_pairs n visit_pair [] in
  for_each (seq 0 n) individual_turn tt >>
  let* r := rand Random.random in
  let* event_p := gets random_event_probability in
  let* step_events :=
    (if PrimFloat.ltb r event_p
     then let* event := _trigger_random_event in
          ret (append_event event step_events)
     else ret step_events) in
  gets (fun e =>
          mkStepResult (step_count e) step_events
                       (map (fun p => (key p, to_dict p)) (pokemons e))).

(** * Specification-side definitions *)

(** ** Invariants on vitals *)

Definition item_ok (it : Item) : Prop := 0 <= effect_value it.

Definition vitals_ok (p : PokemonALOs) : Prop :=
  0 <= hp p <= 100 /\ 0 <= energy p <= 100.

Definition pokemon_ok (p : PokemonALOs) : Prop :=
  vitals_ok p /\ Forall item_ok (inventory p).

Definition engine_ok (e : SimulationEngine) : Prop :=
  Forall pokemon_ok (pokemons e) /\
  Forall item_ok (items_on_field (item_manager e)).

(** ** The first matching item of an inventory scan *)

Definition first_match (test : Item -> bool) (inv before : list Item)
    (it : Item) (after : list Item) : Prop :=
  inv = (before ++ it :: after)%list /\
  Forall (fun x => test x = false) before /\
  test it = true.

(** A rule of [auto_use_item] fires: its condition holds and the first item
    passing [test] is taken out of the inventory and used. *)
Definition rule_fires (cond : Prop) (test : Item -> bool) (p : PokemonALOs)
    (res : option string * PokemonALOs) : Prop :=
  cond /\
  exists before it after,
    first_match test (inventory p) before it after /\
    let holder := set_inventory (before ++ after) p in
    res = (Some (fst (use it holder)), snd (use it holder)) /\
    inventory (snd res) = (before ++ after)%list.

(** A rule is passed over: its condition fails or no held item passes. *)
Definition rule_skipped (cond : Prop) (test : Item -> bool) (p : PokemonALOs)
  : Prop :=
  ~ cond \/ Forall (fun x => test x = false) (inventory p).

(** The priority of [autoUseItem] read as an [if / else if] chain on the
    three conditions alone (the wording of the specification). *)
Definition auto_use_item_else_chain (p : PokemonALOs)
  : option string * PokemonALOs :=
  if hp p <=? 50 then
    match first_index heals_hp (inventory p) with
    | Some i => use_item (Z.of_nat i) p
    | None => (None, p)
    end
  else if energy p <=? 30 then
    match first_index restores_energy (inventory p) with
    | Some i => use_item (Z.of_nat i) p
    | None => (None, p)
    end
  else if mood_is_bad (mood p) then
    match first_index lifts_mood (inventory p) with
    | Some i => use_item (Z.of_nat i) p
    | None => (None, p)
    end
  else (None, p).

(** ** Reach of a field item, in the words of the specification *)

(** The Euclidean distance between two points of the field: the root of
    the sum of the squared coordinate differences, in the arithmetic of the
    program (binary64, the square and the root being powers). *)
Definition euclidean_distance {libm : Flt.Libm} (a b : Flt.pos) : float :=
  let dx := (fst a - fst b)%float in
  let dy := (snd a - snd b)%float in
  Flt.pow (Flt.pow dx 2 + Flt.pow dy 2)%float 0.5.

(** An item is strictly within [d] of a point when it lies on the field, at
    a Euclidean distance from the point that is strictly below [d]. *)
Definition strictly_within {libm : Flt.Libm}
    (pos : Flt.pos) (d : float) (it : Item) : Prop :=
  exists place,
    item_position it = Some place /\
    PrimFloat.ltb (euclidean_distance pos place) d = true.

(** ** Sample agents, collaborators and worlds *)

(** A C library whose [pow] is correctly rounded at the two exponents the
    program uses, as IEEE 754 recommends for it: [pow x 2] is then the
    rounded product [x * x], and [pow x 0.5] the rounded square root of a
    positive [x].  The program asks for no other exponent.  The theorems
    are proved for every library; the concrete runs (witnesses,
    counterexamples and examples) are runs on this one.  The distances
    that decide the two counterexample runs (0.5 in the first; 2, 1.4, 1.6
    and 3.4 in the second) lie well away from the thresholds 1.5 and 3.0
    they are compared with. *)
Definition ieee_pow : Flt.Libm :=
  fun x y =>
    if PrimFloat.eqb y 2 then (x * x)%float
    else if PrimFloat.eqb y 0.5 then PrimFloat.sqrt x
    else nan.

Definition sample_agent (k : string) (x y : float) : PokemonALOs :=
  mkPokemon k k "trainer" "species" "type" "calm" (x, y) 100 100 normal
            [] ∅ [] 3.

Definition cheri_berry : Item := mkItem "チーゴのみ" "berry" "energy" 30 None.
Definition oran_berry : Item := mkItem "オレンのみ" "berry" "hp" 20 None.
Definition charm : Item := mkItem "おまもり" "charm" "luck" 7 None.

Definition placed (it : Item) (x y : float) : Item :=
  mkItem (item_name it) (item_type it) (effect_type it) (effect_value it)
         (Some (x, y)).

(** An agent with [hp = 40], [energy = 20] holding one energy berry. *)
Definition weary_agent : PokemonALOs :=
  set_inventory [cheri_berry]
    (set_energy 20 (set_hp 40 (sample_agent "pikachu" 5 5))).

Definition narrator_up : ALOsSystem :=
  mkALOsSystem (fun _ _ _ => Returned "【状況】...").

Definition narrator_down : ALOsSystem :=
  mkALOsSystem (fun _ _ _ => Raised "APIConnectionError").

Definition context_up : PokemonRAG :=
  mkPokemonRAG (fun _ _ => Returned []) (Returned ["雨が降ってきた"]).

Definition context_down : PokemonRAG :=
  mkPokemonRAG (fun _ _ => Raised "chromadb error") (Raised "chromadb error").

(** An engine as [__init__] sets it up, over the given agents. *)
Definition sample_engine (ps : list PokemonALOs) (narrator : ALOsSystem)
    (context : PokemonRAG) : SimulationEngine :=
  mkEngine ps narrator context 0 []
           (mkItemManager (10%float, 10%float) [] 0.03%float 5)
           0.15%float 0.2%float 0.1%float 0.1%float.

Definition three_lines : SimulationEngine :=
  set_event_log ["[Step 1] a"; "[Step 1] b"; "[Step 2] c"]
    (sample_engine [] narrator_up context_up).

(** Two agents half a unit apart, at full health and with no history. *)
Definition calm_pair : list PokemonALOs :=
  [sample_agent "pikachu" 5 5; sample_agent "meowth" 5 5.5].

Definition calm_world : World :=
  mkWorld (sample_engine calm_pair narrator_up context_up) [].

(** The same agents when the narrator is unreachable. *)
Definition silent_world : World :=
  mkWorld (sample_engine calm_pair narrator_down context_up) [].

(** The same agents when the context source is unreachable. *)
Definition blind_world : World :=
  mkWorld (sample_engine calm_pair narrator_up context_down) [].

(** ** Specifications of computations *)

(** [spec Inv Exc m phi]: run from a store satisfying [Inv], the computation [m]
    either returns a value satisfying [phi] in a store satisfying [Inv], or
    raises in a store satisfying [Exc]. *)
Definition spec {A : Type} (Inv Exc : World -> Prop) (m : M A) (phi : A -> Prop)
  : Prop :=
  forall w, Inv w ->
    match m w with
    | (Returned a, w') => Inv w' /\ phi a
    | (Raised _, w') => Exc w'
    end.

Definition anything {A : Type} (_ : A) : Prop := True.

(** The context source [r] raises on some call. *)
Definition context_fails (r : PokemonRAG) : Prop :=
  (exists q n e, query_context r q n = Raised e) \/
  (exists e, get_interaction_scenarios r = Raised e).


(** A store whose agents all satisfy [ok_a], whose field items all satisfy
    [ok_i], and whose context source is [r]. *)
Definition kept (ok_a : PokemonALOs -> Prop) (ok_i : Item -> Prop)
    (r : PokemonRAG) (w : World) : Prop :=
  Forall ok_a (pokemons (engine w)) /\
  Forall ok_i (items_on_field (item_manager (engine w))) /\
  rag_system (engine w) = r.

(** The store after [n] calls of [step], whatever each call's outcome. *)
Fixpoint ticks {libm : Flt.Libm} (n : nat) (w : World) : World :=
  match n with
  | O => w
  | S n' => ticks n' (snd (step w))
  end.

(** ** Distances of the pair phase *)

(** The positions of all agents in a store, in list order. *)
Definition positions_of (w : World) : list Flt.pos :=
  map position (pokemons (engine w)).

(** A pair visit that classifies by the distance between the positions both
    agents had at the start of the pair phase (the wording of the
    specification). *)
Definition visit_pair_from_start {libm : Flt.Libm}
    (start : list Flt.pos) (i j : nat)
    (step_events : list string) : M (list string) :=
  dispatch_pair (euclid (start !!! i) (start !!! j)) i j step_events.

(** A pair visit that reads the first agent's position when the pair is
    visited and takes the second agent's from the start of the phase. *)
Definition visit_pair_second_from_start {libm : Flt.Libm}
    (start : list Flt.pos) (i j : nat)
    (step_events : list string) : M (list string) :=
  let* pokemon1 := pokemon i in
  dispatch_pair (euclid (position pokemon1) (start !!! j)) i j step_events.

(** The agents whose index satisfies [sel] stand where [start] says. *)
Definition unmoved (start : list Flt.pos) (sel : nat -> Prop) (w : World)
  : Prop :=
  forall k, sel k -> position (pokemons (engine w) !!! k) = start !!! k.

(** Three agents on a line: the first bears the second a grudge, and the
    third stands 1.4 away from the first on the other side. *)
Definition grudge_trio : list PokemonALOs :=
  [ set_relationships (<["meowth" := -40]> ∅) (sample_agent "pikachu" 5 5);
    sample_agent "meowth" 7 5;
    sample_agent "sprigatito" 3.6 5 ].

Definition grudge_world : World :=
  mkWorld (sample_engine grudge_trio narrator_up context_up) [].

(** ** Further operations of the agent and their vocabulary *)

(** [add_action]: the method touches [self.action_history] only, a list the
    engine never reads; it is modelled on that list. *)
Definition add_action {A : Type} (action : A) (action_history : list A)
  : list A :=
  let action_history := (action_history ++ [action])%list in
  if (50 <? length action_history)%nat then drop 1 action_history
  else action_history.

(** A coordinate between the bounds [0] and [10] of [update_position]. *)
Definition in_bounds (x : float) : Prop :=
  PrimFloat.leb 0 x = true /\ PrimFloat.leb x 10 = true.

(** A position inside the field [[0, 10] x [0, 10]]. *)
Definition in_field (v : Flt.pos) : Prop :=
  in_bounds (fst v) /\ in_bounds (snd v).

(** The text [log_event] stores for an event. *)
Definition log_entry_of (e : SimulationEngine) (event : string) : string :=
  "[Step " +:+ pretty (step_count e) +:+ "] " +:+ event.

(** An agent holding three berries, its inventory full. *)
Definition laden_agent : PokemonALOs :=
  set_inventory [oran_berry; cheri_berry; oran_berry]
    (sample_agent "meowth" 2 3).

(** An engine whose event log already holds 200 lines. *)
Definition full_log_engine : SimulationEngine :=
  set_event_log (replicate 200 "[Step 1] 古い記録")
    (sample_engine calm_pair narrator_up context_up).

(** A manager whose field is at its cap of five items. *)
Definition crowded_field : ItemManager :=
  mkItemManager (10%float, 10%float)
    (replicate 5 (placed oran_berry 1 1)) 0.03%float 5.

(** ** What a tick keeps of an agent and of the engine *)

(** Every stored relationship level lies in [-100, 100]. *)
Definition relationships_bounded (p : PokemonALOs) : Prop :=
  map_Forall (fun _ v => -100 <= v <= 100) (relationships p).

(** The inventory holds no more than [max_inventory] items. *)
Definition within_capacity (p : PokemonALOs) : Prop :=
  (length (inventory p) <= max_inventory p)%nat.

(** The attributes no method of the agent assigns after [__init__]. *)
Definition same_identity (p0 p : PokemonALOs) : Prop :=
  key p = key p0 /\ name p = name p0 /\ owner p = owner p0 /\
  species p = species p0 /\ type_ p = type_ p0 /\
  personality p = personality p0 /\ max_inventory p = max_inventory p0.

(** [p] is a later state of the agent [p0]: the same identity, no ability
    forgotten, and each of the listed properties kept if [p0] had it. *)
Definition persists (p0 p : PokemonALOs) : Prop :=
  same_identity p0 p /\
  current_abilities p0 `prefix_of` current_abilities p /\
  (in_field (position p0) -> in_field (position p)) /\
  ((length (current_abilities p0) <= 6)%nat ->
   (length (current_abilities p) <= 6)%nat) /\
  (NoDup (current_abilities p0) -> NoDup (current_abilities p)) /\
  (relationships_bounded p0 -> relationships_bounded p) /\
  (within_capacity p0 -> within_capacity p).

(** The collaborators and the tunable numbers of the engine and of its item
    manager. *)
Definition same_setup (e0 e : SimulationEngine) : Prop :=
  alos_system e = alos_system e0 /\
  rag_system e = rag_system e0 /\
  battle_probability e = battle_probability e0 /\
  friendship_probability e = friendship_probability e0 /\
  learn_probability e = learn_probability e0 /\
  random_event_probability e = random_event_probability e0 /\
  field_size (item_manager e) = field_size (item_manager e0) /\
  spawn_probability (item_manager e) = spawn_probability (item_manager e0) /\
  max_items_on_field (item_manager e) = max_items_on_field (item_manager e0).

Definition log_bounded (e : SimulationEngine) : Prop :=
  (length (event_log e) <= 200)%nat.

Definition field_bounded (e : SimulationEngine) : Prop :=
  (length (items_on_field (item_manager e))
   <= max_items_on_field (item_manager e))%nat.

(** [e] is a later state of the engine [e0], its tick counter at [c]. *)
Definition tick_rel (e0 : SimulationEngine) (c : Z) (e : SimulationEngine)
  : Prop :=
  Forall2 persists (pokemons e0) (pokemons e) /\
  same_setup e0 e /\
  step_count e = c /\
  (log_bounded e0 -> log_bounded e) /\
  (field_bounded e0 -> field_bounded e).

(** A veteran that already knows six moves, alone in its world. *)
Definition veteran : PokemonALOs :=
  set_current_abilities
    ["でんきショック"; "10まんボルト"; "かみなり"; "アイアンテール";
     "でんこうせっか"; "エレキネット"]
    (sample_agent "pikachu" 5 5).

Definition veteran_world : World :=
  mkWorld (sample_engine [veteran] narrator_up context_up) [].

(** A context source that knows no scenario. *)
Definition context_without_scenarios : PokemonRAG :=
  mkPokemonRAG (fun _ _ => Returned []) (Returned []).

Definition uneventful_world : World :=
  mkWorld (sample_engine calm_pair narrator_up context_without_scenarios) [].

(** All pairs [(i, j)] with [i < j < n], in lexicographic order. *)
Definition ordered_pairs (n : nat) : list (nat * nat) :=
  flat_map (fun i => map (pair i) (seq (S i) (n - S i))) (seq 0 n).

(** ** rag_system.py: the context source without its vector index

    [PokemonRAG] keeps the parsed context file in [self.context_data].  The
    entries read by the methods below are the per-agent dictionaries (a
    field name to its text) and the list under ["interaction_scenarios"].
    The vector index ([self.collection]) is a remote collaborator: a query
    to it may raise. *)

Module Rag.

Record t : Type := mk {
  use_rag : bool;
  pokemon_entries : gmap string (gmap string string);
  interaction_scenarios : option (list string);
  collection_query : string -> Z -> Outcome (list (list string))
}.

(** [d[k]]: raises [KeyError] on a missing key. *)
Definition item {A : Type} (d : gmap string A) (k : string) : Outcome A :=
  match d !! k with
  | Some v => Returned v
  | None => Raised "KeyError"
  end.

Definition and_then {A B : Type} (o : Outcome A) (k : A -> Outcome B)
  : Outcome B :=
  match o with
  | Returned a => k a
  | Raised e => Raised e
  end.

(** One iteration of the loop of [_get_all_context_summary]: the entry of
    [pokemon_key] and the five fields of the formatted line, read from left
    to right. *)
Definition summary_line (r : t) (pokemon_key : string) : Outcome string :=
  and_then (item (pokemon_entries r) pokemon_key) (fun pokemon =>
  and_then (item pokemon "name") (fun name =>
  and_then (item pokemon "owner") (fun owner =>
  and_then (item pokemon "species") (fun species =>
  and_then (item pokemon "type") (fun type =>
  and_then (item pokemon "personality") (fun personality =>
  Returned (name +:+ "(" +:+ owner +:+ "の" +:+ species +:+ "、"
              +:+ "タイプ: " +:+ type +:+ "、性格: " +:+ personality
              +:+ ")"))))))).

Fixpoint summary_of (r : t) (keys : list string) : Outcome (list string) :=
  match keys with
  | [] => Returned []
  | k :: ks =>
      and_then (summary_line r k) (fun line =>
      and_then (summary_of r ks) (fun rest => Returned (line :: rest)))
  end.

(** [_get_all_context_summary] *)
Definition _get_all_context_summary (r : t) : Outcome (list string) :=
  summary_of r ["pikachu"; "meowth"; "sprigatito"].

(** [query_context] *)
Definition query_context (r : t) (query : string) (n_results : Z)
  : Outcome (list string) :=
  if negb (use_rag r) then _get_all_context_summary r
  else
    and_then (collection_query r query n_results) (fun documents =>
    Returned (match documents with
              | [] => []
              | first :: _ => first
              end)).

(** [get_pokemon_data]: [self.context_data.get(pokemon_key, {})] *)
Definition get_pokemon_data (r : t) (pokemon_key : string)
  : gmap string string :=
  default ∅ (pokemon_entries r !! pokemon_key).

(** [get_interaction_scenarios]:
    [self.context_data.get('interaction_scenarios', [])] *)
Definition get_interaction_scenarios (r : t) : list string :=
  default [] (interaction_scenarios r).

(** The two methods the engine calls. *)
Definition as_context_source (r : t) : PokemonRAG :=
  mkPokemonRAG (query_context r) (Returned (get_interaction_scenarios r)).

(** The entry of [k] exists and has the five fields of a summary line. *)
Definition has_entry (r : t) (k : string) : Prop :=
  exists pokemon,
    pokemon_entries r !! k = Some pokemon /\
    Forall (fun field => is_Some (pokemon !! field))
           ["name"; "owner"; "species"; "type"; "personality"].

Definition complete (r : t) : Prop :=
  Forall (has_entry r) ["pikachu"; "meowth"; "sprigatito"].

End Rag.

(** A context file with the three agents and no scenario list, read
    without the vector index. *)
Definition sample_entry (nm : string) : gmap string string :=
  <["name" := nm]> (<["owner" := "サトシ"]> (<["species" := "ねずみ"]>
  (<["type" := "でんき"]> (<["personality" := "げんき"]> ∅)))).

Definition plain_rag : Rag.t :=
  Rag.mk false
    (<["pikachu" := sample_entry "ピカチュウ"]>
       (<["meowth" := sample_entry "ニャース"]>
          (<["sprigatito" := sample_entry "ニャオハ"]> ∅)))
    None
    (fun _ _ => Raised "no collection").

Definition plain_world : World :=
  mkWorld (sample_engine calm_pair narrator_down
             (Rag.as_context_source plain_rag)) [].

(** A weary agent with a full inventory, standing next to a berry. *)
Definition heavy_world : World :=
  mkWorld
    (set_item_manager
       (mkItemManager (10%float, 10%float) [placed oran_berry 2 3.05]
                      0.03%float 5)
       (sample_engine [set_energy 20 laden_agent] narrator_up context_up))
    [].

(** * Properties *)

(** ** Vitals *)

(** C4. [take_damage] sets hp to [max(0, hp - amount)] and energy to
    [max(0, energy - 5)]; afterwards the mood is [tired] when the new hp is
    below 30, else [angry] when it is below 60, else unchanged: the test
    [hp < 30] comes first and wins over [hp < 60].  (It holds for every
    amount, non-negative or not.) *)
Theorem take_damage_effect (p : PokemonALOs) (amount : Z) :
  hp (take_damage amount p) = Z.max 0 (hp p - amount) /\
  energy (take_damage amount p) = Z.max 0 (energy p - 5) /\
  mood (take_damage amount p) =
    (if Z.max 0 (hp p - amount) <? 30 then tired
     else if Z.max 0 (hp p - amount) <? 60 then angry
     else mood p).
Proof.
  unfold take_damage; cbn [hp energy set_hp set_energy].
  destruct (Z.max 0 (hp p - amount) <? 30) eqn:H30;
    [| destruct (Z.max 0 (hp p - amount) <? 60) eqn:H60]; auto.
Qed.

Example take_damage_both_thresholds :
  mood (take_damage 75 (sample_agent "pikachu" 5 5)) = tired.
Proof. reflexivity. Qed.

(** ** Items *)

Lemma append_nonempty_r (s t : string) : t <> "" -> s +:+ t <> "".
Proof. intros H; destruct s; cbn; [exact H | discriminate]. Qed.

Lemma eqb_neq_false (s t : string) : s <> t -> String.eqb s t = false.
Proof. intros H; apply String.eqb_neq; exact H. Qed.

(** C9. An item whose effect kind is none of [hp], [energy], [mood],
    [mixed] leaves the agent as it is (so hp, energy and mood are unchanged)
    and [use] returns the generic, non-empty "used the item" text. *)
Theorem use_unknown_kind (it : Item) (p : PokemonALOs) :
  effect_type it <> "hp" ->
  effect_type it <> "energy" ->
  effect_type it <> "mood" ->
  effect_type it <> "mixed" ->
  use it p = (name p +:+ "は" +:+ item_name it +:+ "を使った", p) /\
  hp (snd (use it p)) = hp p /\
  energy (snd (use it p)) = energy p /\
  mood (snd (use it p)) = mood p /\
  truthy (fst (use it p)) = true.
Proof.
  intros Hhp Hen Hmo Hmi.
  assert (E : use it p = (name p +:+ "は" +:+ item_name it +:+ "を使った", p)).
  { unfold use.
    rewrite (eqb_neq_false _ _ Hhp), (eqb_neq_false _ _ Hen),
      (eqb_neq_false _ _ Hmo), (eqb_neq_false _ _ Hmi).
    reflexivity. }
  rewrite E; cbn [fst snd]; repeat split.
  unfold truthy. apply negb_true_iff, String.eqb_neq.
  apply append_nonempty_r. discriminate.
Qed.

Lemma use_unknown_kind_witness :
  use charm weary_agent = ("pikachuはおまもりを使った", weary_agent) /\
  hp (snd (use charm weary_agent)) = 40 /\
  energy (snd (use charm weary_agent)) = 20 /\
  mood (snd (use charm weary_agent)) = normal /\
  truthy (fst (use charm weary_agent)) = true.
Proof.
  apply (use_unknown_kind charm weary_agent); cbn; discriminate.
Defined.

(** ** The event log *)

Lemma slice_from_neg {A : Type} (k : Z) (l : list A) :
  1 <= k ->
  slice_from (- k) l = drop (length l - Z.to_nat k) l.
Proof.
  intros Hk. unfold slice_from.
  destruct (Z.ltb_spec (- k) 0) as [_ | ?]; [| lia].
  f_equal. lia.
Qed.

(** C10. For [n >= 1], [get_recent_logs n] is the last [min(n, len)]
    entries of the event log, in log order; for [n = 0] it is the whole
    log, not the empty list. *)
Theorem get_recent_logs_spec (e : SimulationEngine) (n : Z) :
  (1 <= n ->
   exists older,
     event_log e = (older ++ get_recent_logs n e)%list /\
     Z.of_nat (length (get_recent_logs n e)) =
       Z.min n (Z.of_nat (length (event_log e)))) /\
  get_recent_logs 0 e = event_log e.
Proof.
  split.
  - intros Hn. unfold get_recent_logs. rewrite slice_from_neg by exact Hn.
    exists (take (length (event_log e) - Z.to_nat n) (event_log e)).
    split.
    + symmetry; apply take_drop.
    + rewrite length_drop. lia.
  - unfold get_recent_logs, slice_from.
    change (- 0 <? 0) with false. cbv iota.
    rewrite Z.min_l by lia. reflexivity.
Qed.

Lemma get_recent_logs_spec_witness :
  (exists older,
     event_log three_lines = (older ++ get_recent_logs 2 three_lines)%list /\
     Z.of_nat (length (get_recent_logs 2 three_lines)) =
       Z.min 2 (Z.of_nat (length (event_log three_lines)))) /\
  get_recent_logs 0 three_lines = event_log three_lines.
Proof.
  split.
  - apply (proj1 (get_recent_logs_spec three_lines 2)). lia.
  - apply (proj2 (get_recent_logs_spec three_lines 2)).
Defined.

Example get_recent_logs_two :
  get_recent_logs 2 three_lines = ["[Step 1] b"; "[Step 2] c"].
Proof. reflexivity. Qed.


(** ** Picking up field items *)

Lemma scan_pickup_spec {libm : Flt.Libm}
    (pos : Flt.pos) (d : float) (items : list Item) :
  match scan_pickup pos d items with
  | (Some it, rest) =>
      exists before after,
        items = (before ++ it :: after)%list /\
        rest = (before ++ after)%list /\
        Forall (fun x => within_reach pos d x = false) before /\
        within_reach pos d it = true
  | (None, rest) =>
      rest = items /\ Forall (fun x => within_reach pos d x = false) items
  end.
Proof.
  induction items as [| x items IH]; cbn.
  - split; [reflexivity | constructor].
  - destruct (within_reach pos d x) eqn:Hx.
    + exists [], items. repeat split; [constructor | exact Hx].
    + destruct (scan_pickup pos d items) as [[it |] rest].
      * destruct IH as (before & after & -> & -> & Hbefore & Hit).
        exists (x :: before), after. repeat split; [| exact Hit].
        constructor; assumption.
      * destruct IH as [-> Hall]. split; [reflexivity |].
        constructor; assumption.
Qed.

Lemma within_reach_spec {libm : Flt.Libm}
    (pos : Flt.pos) (d : float) (it : Item) :
  within_reach pos d it = true <-> strictly_within pos d it.
Proof.
  unfold within_reach, strictly_within, euclidean_distance.
  destruct pos as [px py], (item_position it) as [[ix iy] |]; cbn [fst snd].
  - split.
    + intros Hlt. exists (ix, iy). split; [reflexivity | exact Hlt].
    + intros (place & [= <-] & Hlt). exact Hlt.
  - split; [discriminate |]. intros (place & Hnone & _). discriminate.
Qed.

Lemma out_of_reach_spec {libm : Flt.Libm}
    (pos : Flt.pos) (d : float) (items : list Item) :
  Forall (fun x => within_reach pos d x = false) items ->
  Forall (fun x => ~ strictly_within pos d x) items.
Proof.
  intros Hall. eapply Forall_impl; [exact Hall |].
  intros x Hx Hin. apply within_reach_spec in Hin. congruence.
Qed.

(** C8. [check_pickup] scans the field items in insertion order and
    returns, after removing it from the field, the first item strictly
    within [pickup_distance] of the agent's position, in the Euclidean
    distance: the returned item lies on the field at a distance strictly
    below [pickup_distance], and no item before it in the list does,
    whatever the distances of the items after it, so the earliest item
    wins, not the nearest.  One item at most is removed; when no item is
    strictly within [pickup_distance] the manager is unchanged and nothing
    is returned. *)
Theorem check_pickup_first_in_order {libm : Flt.Libm}
    (pokemon : PokemonALOs) (d : float) (m : ItemManager) :
  match check_pickup pokemon d m with
  | (Some it, m') =>
      exists before after,
        items_on_field m = (before ++ it :: after)%list /\
        m' = set_items_on_field (before ++ after) m /\
        Forall (fun x => ~ strictly_within (position pokemon) d x) before /\
        strictly_within (position pokemon) d it /\
        S (length (items_on_field m')) = length (items_on_field m)
  | (None, m') =>
      m' = m /\
      Forall (fun x => ~ strictly_within (position pokemon) d x)
             (items_on_field m)
  end.
Proof.
  unfold check_pickup.
  pose proof (scan_pickup_spec (position pokemon) d (items_on_field m)) as H.
  destruct (scan_pickup (position pokemon) d (items_on_field m))
    as [[it |] rest].
  - destruct H as (before & after & Hm & -> & Hbefore & Hit).
    exists before, after.
    split; [exact Hm |]. split; [reflexivity |].
    split; [exact (out_of_reach_spec _ _ _ Hbefore) |].
    split; [apply within_reach_spec; exact Hit |].
    cbn. rewrite Hm, !length_app. cbn. lia.
  - destruct H as [-> Hall]. split; [| exact (out_of_reach_spec _ _ _ Hall)].
    destruct m; reflexivity.
Qed.

(** On a library that rounds correctly, the distance is the rounded root
    of the sum of the rounded squares. *)
Lemma euclidean_distance_ieee (a b : Flt.pos) :
  @euclidean_distance ieee_pow a b
  = PrimFloat.sqrt
      ((fst a - fst b) * (fst a - fst b)
       + (snd a - snd b) * (snd a - snd b))%float.
Proof. reflexivity. Qed.

Section With_ieee_pow.
#[local] Existing Instance ieee_pow.

(** Two items within reach: the one spawned first is taken although the
    other one lies nearer to the agent. *)
Example check_pickup_earliest_not_nearest :
  let far := placed oran_berry 5.4 5 in
  let near := placed cheri_berry 5.1 5 in
  let m := mkItemManager (10%float, 10%float) [far; near] 0.03%float 5 in
  check_pickup (sample_agent "pikachu" 5 5) 0.6 m
  = (Some far, set_items_on_field [near] m).
Proof. vm_compute. reflexivity. Qed.

(** The reach is Euclidean and strict.  An item 0.375 east and 0.5 north of
    the agent lies at the distance 0.625, all three numbers being exact in
    binary64.  It is taken within 0.75, although the two differences add up
    to 0.875; it is left within 0.625, the distance itself, and within 0.6,
    although neither difference exceeds 0.5.  The item before it in the
    list lies nowhere and is never taken. *)
Example check_pickup_reach_is_euclidean_and_strict :
  let agent := sample_agent "pikachu" 5 5 in
  let it := placed oran_berry 5.375 5.5 in
  let m := mkItemManager (10%float, 10%float) [oran_berry; it] 0.03%float 5 in
  euclidean_distance (position agent) (5.375%float, 5.5%float)
  = 0.625%float /\
  check_pickup agent 0.75 m = (Some it, set_items_on_field [oran_berry] m) /\
  check_pickup agent 0.625 m = (None, m) /\
  check_pickup agent 0.6 m = (None, m).
Proof. vm_compute. repeat split. Qed.

End With_ieee_pow.

(** ** Automatic item use *)

Lemma first_index_Some (test : Item -> bool) (l : list Item) (i : nat) :
  first_index test l = Some i ->
  exists before it after,
    first_match test l before it after /\ length before = i.
Proof.
  revert i; induction l as [| x l IH]; intros i; cbn; [discriminate |].
  destruct (test x) eqn:Hx.
  - intros [= <-]. exists [], x, l. repeat split; [constructor | exact Hx].
  - destruct (first_index test l) as [k |]; [| discriminate].
    intros [= <-].
    destruct (IH k eq_refl) as (before & it & after & (-> & Hb & Hit) & <-).
    exists (x :: before), it, after. repeat split; [| exact Hit].
    constructor; assumption.
Qed.

Lemma first_index_None (test : Item -> bool) (l : list Item) :
  first_index test l = None -> Forall (fun x => test x = false) l.
Proof.
  induction l as [| x l IH]; cbn; [constructor |].
  destruct (test x) eqn:Hx; [discriminate |].
  destruct (first_index test l); [discriminate |].
  intros _. constructor; auto.
Qed.

Lemma use_inventory (it : Item) (p : PokemonALOs) :
  inventory (snd (use it p)) = inventory p.
Proof.
  unfold use, heal.
  repeat (match goal with |- context [if ?b then _ else _] => destruct b end);
    reflexivity.
Qed.

Lemma use_item_middle (p : PokemonALOs) (before after : list Item) (it : Item) :
  inventory p = (before ++ it :: after)%list ->
  let holder := set_inventory (before ++ after) p in
  use_item (Z.of_nat (length before)) p
  = (Some (fst (use it holder)), snd (use it holder)).
Proof.
  intros Hinv holder. unfold use_item.
  rewrite Hinv, Nat2Z.id.
  rewrite list_lookup_middle by reflexivity.
  rewrite delete_middle.
  replace ((0 <=? Z.of_nat (length before)) &&
           (Z.of_nat (length before)
              <? Z.of_nat (length (before ++ it :: after)%list)))
    with true.
  - fold holder. destruct (use it holder); reflexivity.
  - symmetry. apply andb_true_iff. split.
    + apply Z.leb_le. lia.
    + apply Z.ltb_lt. rewrite length_app. cbn. lia.
Qed.

Lemma rule_fires_intro (cond : Prop) (test : Item -> bool) (p : PokemonALOs)
    (i : nat) :
  cond ->
  first_index test (inventory p) = Some i ->
  rule_fires cond test p (use_item (Z.of_nat i) p).
Proof.
  intros Hc Hi. split; [exact Hc |].
  destruct (first_index_Some _ _ _ Hi) as (before & it & after & Hm & <-).
  exists before, it, after. split; [exact Hm |].
  destruct Hm as (Hinv & _ & _).
  rewrite (use_item_middle p before after it Hinv). cbn zeta. split.
  - reflexivity.
  - cbn [snd]. rewrite use_inventory. reflexivity.
Qed.

Lemma rule_skipped_intro (cond : Prop) (b : bool) (test : Item -> bool)
    (p : PokemonALOs) :
  (b = true <-> cond) ->
  (if b then first_index test (inventory p) else None) = None ->
  rule_skipped cond test p.
Proof.
  intros Hb. destruct b.
  - intros H. right. apply first_index_None, H.
  - intros _. left. intros Hc. apply Hb in Hc. discriminate.
Qed.

Lemma mood_is_bad_iff (m : Mood) :
  mood_is_bad m = true <-> m = angry \/ m = tired.
Proof. destruct m; cbn; intuition discriminate. Qed.

(** C7 (as the code has it). [auto_use_item] uses one item at most, by this
    priority: (1) when hp <= 50 and an [hp] or [mixed] item is held, the
    first such item in inventory order; otherwise (2) when energy <= 30 and
    an [energy] or [mixed] item is held, the first such item; otherwise (3)
    when the mood is angry or tired and a [mood] item is held, the first
    such item; otherwise nothing is used, the agent is unchanged and the
    result is absent.  A rule whose condition holds but for which no item
    qualifies is passed over, and the next rule is tried. *)
Theorem auto_use_item_priority (p : PokemonALOs) :
  let res := auto_use_item p in
  let rule1 := rule_fires (hp p <= 50) heals_hp p res in
  let skip1 := rule_skipped (hp p <= 50) heals_hp p in
  let rule2 := rule_fires (energy p <= 30) restores_energy p res in
  let skip2 := rule_skipped (energy p <= 30) restores_energy p in
  let rule3 := rule_fires (mood p = angry \/ mood p = tired) lifts_mood p res in
  let skip3 := rule_skipped (mood p = angry \/ mood p = tired) lifts_mood p in
  rule1 \/
  (skip1 /\ rule2) \/
  (skip1 /\ skip2 /\ rule3) \/
  (skip1 /\ skip2 /\ skip3 /\ res = (None, p)).
Proof.
  cbn zeta. unfold auto_use_item.
  destruct (if hp p <=? 50 then first_index heals_hp (inventory p) else None)
    as [i |] eqn:H1.
  { left. destruct (Z.leb_spec (hp p) 50); [| discriminate].
    apply rule_fires_intro; assumption. }
  apply (rule_skipped_intro (hp p <= 50)) in H1; [| apply Z.leb_le].
  right.
  destruct (if energy p <=? 30
            then first_index restores_energy (inventory p) else None)
    as [i |] eqn:H2.
  { left. split; [exact H1 |].
    destruct (Z.leb_spec (energy p) 30); [| discriminate].
    apply rule_fires_intro; assumption. }
  apply (rule_skipped_intro (energy p <= 30)) in H2; [| apply Z.leb_le].
  right.
  destruct (if mood_is_bad (mood p)
            then first_index lifts_mood (inventory p) else None)
    as [i |] eqn:H3.
  { left. split; [exact H1 |]. split; [exact H2 |].
    destruct (mood_is_bad (mood p)) eqn:Hm; [| discriminate].
    apply rule_fires_intro; [apply mood_is_bad_iff, Hm | assumption]. }
  apply (rule_skipped_intro (mood p = angry \/ mood p = tired)) in H3;
    [| apply mood_is_bad_iff].
  right. auto.
Qed.

(** C7 (as the specification words it) fails: with hp = 40 and energy = 20
    the first rule's condition holds, and an agent that holds an energy
    berry only still uses it, where an [if / else if] chain on the
    conditions uses nothing. *)
Lemma auto_use_item_falls_through :
  hp weary_agent <= 50 /\
  energy weary_agent <= 30 /\
  inventory weary_agent = [cheri_berry] /\
  auto_use_item_else_chain weary_agent = (None, weary_agent) /\
  fst (auto_use_item weary_agent) = Some "pikachuはEnergyが30回復した！" /\
  energy (snd (auto_use_item weary_agent)) = 50 /\
  inventory (snd (auto_use_item weary_agent)) = [].
Proof. vm_compute. repeat split; discriminate. Qed.

(** The example of the specification: hp = 40, energy = 20, an hp item
    listed before an energy item; the hp item is used, and only it. *)
Example auto_use_item_hp_first :
  let p := set_inventory [oran_berry; cheri_berry] weary_agent in
  fst (auto_use_item p) = Some "pikachuはHPが20回復した！" /\
  hp (snd (auto_use_item p)) = 60 /\
  energy (snd (auto_use_item p)) = 20 /\
  inventory (snd (auto_use_item p)) = [cheri_berry].
Proof. vm_compute. repeat split. Qed.

(** ** Battle and friendship resolution *)

(** Evaluation of the store operations. *)
Ltac run :=
  cbv beta delta [bind ret try_except call gets modify rand update pokemon
                  method log_event] iota;
  cbn [engine random_state pokemons event_log step_count item_manager
       alos_system rag_system set_pokemons set_event_log set_step_count
       set_item_manager fst snd].

Ltac agent_lookup :=
  repeat first
    [ rewrite list_lookup_total_alter_ne by congruence
    | rewrite list_lookup_total_alter_eq by (rewrite ?length_alter; assumption) ].

Lemma get_update_relationship (k : string) (change : Z) (p : PokemonALOs) :
  get_relationship k (update_relationship k change p)
  = Z.max (-100) (Z.min 100 (get_relationship k p + change)).
Proof.
  unfold get_relationship, update_relationship.
  cbn [relationships set_relationships].
  rewrite lookup_insert_eq. reflexivity.
Qed.

Lemma heal_hp (amount : Z) (p : PokemonALOs) :
  hp (heal amount p) = Z.min 100 (hp p + amount).
Proof. unfold heal; cbn. destruct (70 <? _); reflexivity. Qed.

Lemma heal_relationships (amount : Z) (p : PokemonALOs) :
  relationships (heal amount p) = relationships p.
Proof. unfold heal; cbn. destruct (70 <? _); reflexivity. Qed.

Lemma heal_happy (amount : Z) (p : PokemonALOs) :
  mood p = happy -> mood (heal amount p) = happy.
Proof. unfold heal; cbn. destruct (70 <? _); auto. Qed.

(** C6. When friendship resolution runs on two agents and the narrator
    (and the context query before it) returns, each agent's relationship
    toward the other grows by 10, clamped to [-100, 100], both moods become
    happy and each hp becomes [min(100, hp + 5)]. *)
Theorem friendship_success (w : World) (i j : nat) (ctx : list string)
    (text : string) :
  let ps := pokemons (engine w) in
  let p1 := ps !!! i in
  let p2 := ps !!! j in
  (i < length ps)%nat ->
  (j < length ps)%nat ->
  i <> j ->
  query_context (rag_system (engine w))
    (name p1 +:+ "と" +:+ name p2 +:+ "の友情") 3 = Returned ctx ->
  simulate_interaction (alos_system (engine w)) [to_dict p1; to_dict p2]
    (name p1 +:+ "と" +:+ name p2 +:+ "が友好的に交流している") ctx
    = Returned text ->
  exists w',
    _simulate_friendship i j w
    = (Returned ("Friendship: " +:+ name p1 +:+ " & " +:+ name p2), w') /\
    let q1 := pokemons (engine w') !!! i in
    let q2 := pokemons (engine w') !!! j in
    get_relationship (key p2) q1
      = Z.max (-100) (Z.min 100 (get_relationship (key p2) p1 + 10)) /\
    get_relationship (key p1) q2
      = Z.max (-100) (Z.min 100 (get_relationship (key p1) p2 + 10)) /\
    mood q1 = happy /\
    mood q2 = happy /\
    hp q1 = Z.min 100 (hp p1 + 5) /\
    hp q2 = Z.min 100 (hp p2 + 5).
Proof.
  intros ps p1 p2 Hi Hj Hij Hctx Htext.
  unfold _simulate_friendship. run.
  fold ps; fold p1; fold p2. rewrite Hctx, Htext.
  eexists; split; [reflexivity |].
  cbn [engine pokemons set_pokemons set_event_log]. fold ps.
  agent_lookup. fold p1; fold p2.
  unfold get_relationship.
  rewrite !heal_relationships, !heal_hp.
  repeat split; try (apply heal_happy; reflexivity);
    cbn [relationships set_mood hp update_relationship set_relationships];
    rewrite ?lookup_insert_eq; reflexivity.
Qed.

Lemma friendship_success_witness :
  exists w',
    _simulate_friendship 0 1 calm_world
    = (Returned "Friendship: pikachu & meowth", w') /\
    get_relationship "meowth" (pokemons (engine w') !!! 0%nat) = 10 /\
    get_relationship "pikachu" (pokemons (engine w') !!! 1%nat) = 10 /\
    mood (pokemons (engine w') !!! 0%nat) = happy /\
    mood (pokemons (engine w') !!! 1%nat) = happy /\
    hp (pokemons (engine w') !!! 0%nat) = 100 /\
    hp (pokemons (engine w') !!! 1%nat) = 100.
Proof.
  exact (friendship_success calm_world 0 1 [] "【状況】..."
           ltac:(cbn; lia) ltac:(cbn; lia) ltac:(discriminate)
           eq_refl eq_refl).
Defined.

Lemma take_damage_hp (damage : Z) (p : PokemonALOs) :
  hp (take_damage damage p) = Z.max 0 (hp p - damage).
Proof.
  unfold take_damage; cbn [hp set_hp set_energy].
  destruct (_ <? 30); [| destruct (_ <? 60)]; reflexivity.
Qed.

(** C5. With a narrator that fails (the context query before it having
    returned), battle resolution on two distinct agents at hp = 100 and
    mutual relationship 0 returns normally and ends with hp = 85 for each
    and relationship -5 from each toward the other.  The generic log line
    is appended, and nothing else differs: every other agent, the field
    items and the random generator are as they were. *)
Theorem battle_fallback (w : World) (i j : nat) (ctx : list string)
    (err : string) :
  let ps := pokemons (engine w) in
  let p1 := ps !!! i in
  let p2 := ps !!! j in
  let line := "⚔️ " +:+ name p1 +:+ "と" +:+ name p2 +:+ "が戦った！" in
  (i < length ps)%nat ->
  (j < length ps)%nat ->
  i <> j ->
  query_context (rag_system (engine w))
    (name p1 +:+ "と" +:+ name p2 +:+ "のバトル") 3 = Returned ctx ->
  simulate_interaction (alos_system (engine w)) [to_dict p1; to_dict p2]
    (name p1 +:+ "と" +:+ name p2 +:+ "が戦っている") ctx = Raised err ->
  hp p1 = 100 ->
  hp p2 = 100 ->
  get_relationship (key p2) p1 = 0 ->
  get_relationship (key p1) p2 = 0 ->
  exists w',
    _simulate_battle i j w
    = (Returned ("Battle: " +:+ name p1 +:+ " vs " +:+ name p2), w') /\
    let q1 := pokemons (engine w') !!! i in
    let q2 := pokemons (engine w') !!! j in
    hp q1 = 85 /\
    hp q2 = 85 /\
    get_relationship (key p2) q1 = -5 /\
    get_relationship (key p1) q2 = -5 /\
    event_log (engine w') = event_log (engine (snd (log_event line w))) /\
    (forall k, k <> i -> k <> j ->
               pokemons (engine w') !! k = pokemons (engine w) !! k) /\
    item_manager (engine w') = item_manager (engine w) /\
    step_count (engine w') = step_count (engine w) /\
    random_state w' = random_state w.
Proof.
  intros ps p1 p2 line Hi Hj Hij Hctx Herr Hhp1 Hhp2 Hr1 Hr2.
  unfold _simulate_battle. run.
  fold ps; fold p1; fold p2. rewrite Hctx, Herr.
  eexists; split; [reflexivity |].
  cbn [engine pokemons set_pokemons set_event_log event_log item_manager
       step_count random_state].
  fold ps. agent_lookup. fold p1; fold p2.
  rewrite !get_update_relationship.
  assert (Hd : forall p, hp p = 100 -> hp (take_damage 15 p) = 85).
  { intros p Hp. rewrite take_damage_hp. lia. }
  assert (Hk : forall k c p,
             hp (update_relationship k c p) = hp p) by reflexivity.
  assert (Hg : forall k p,
             get_relationship k (take_damage 15 p) = get_relationship k p).
  { intros k p. unfold get_relationship, take_damage. cbn.
    repeat (match goal with
            | |- context [if ?b then _ else _] => destruct b
            end); reflexivity. }
  rewrite !Hk, !Hg, Hr1, Hr2, (Hd p1 Hhp1), (Hd p2 Hhp2).
  repeat split.
  intros k Hki Hkj. rewrite !list_lookup_alter_ne by congruence. reflexivity.
Qed.

Lemma battle_fallback_witness :
  exists w',
    _simulate_battle 0 1 silent_world
    = (Returned "Battle: pikachu vs meowth", w') /\
    hp (pokemons (engine w') !!! 0%nat) = 85 /\
    hp (pokemons (engine w') !!! 1%nat) = 85 /\
    get_relationship "meowth" (pokemons (engine w') !!! 0%nat) = -5 /\
    get_relationship "pikachu" (pokemons (engine w') !!! 1%nat) = -5 /\
    event_log (engine w') = ["[Step 0] ⚔️ pikachuとmeowthが戦った！"] /\
    (forall k, k <> 0%nat -> k <> 1%nat ->
               pokemons (engine w') !! k = calm_pair !! k) /\
    item_manager (engine w') = item_manager (engine silent_world) /\
    step_count (engine w') = 0 /\
    random_state w' = [].
Proof.
  exact (battle_fallback silent_world 0 1 [] "APIConnectionError"
           ltac:(cbn; lia) ltac:(cbn; lia) ltac:(discriminate)
           eq_refl eq_refl eq_refl eq_refl eq_refl eq_refl).
Defined.

(** ** Reasoning rules for computations *)

Section Rules.

Context {Inv Exc : World -> Prop}.

Lemma spec_weaken {A : Type} (m : M A) (phi psi : A -> Prop) :
  (forall a, phi a -> psi a) -> spec Inv Exc m phi -> spec Inv Exc m psi.
Proof.
  intros Himp Hm w Hw. specialize (Hm w Hw).
  destruct (m w) as [[a | e] w']; [| exact Hm].
  destruct Hm; split; auto.
Qed.

Lemma spec_ret {A : Type} (a : A) (phi : A -> Prop) :
  phi a -> spec Inv Exc (ret a) phi.
Proof. intros Ha w Hw. cbn. auto. Qed.

Lemma spec_bind {A B : Type} (m : M A) (k : A -> M B) (phi : A -> Prop)
    (psi : B -> Prop) :
  spec Inv Exc m phi ->
  (forall a, phi a -> spec Inv Exc (k a) psi) ->
  spec Inv Exc (bind m k) psi.
Proof.
  intros Hm Hk w Hw. unfold bind. specialize (Hm w Hw).
  destruct (m w) as [[a | e] w']; [| exact Hm].
  destruct Hm as [Hw' Ha]. apply (Hk a Ha w' Hw').
Qed.

Lemma spec_seq {A B : Type} (m : M A) (k : A -> M B) (psi : B -> Prop) :
  spec Inv Exc m anything ->
  (forall a, spec Inv Exc (k a) psi) ->
  spec Inv Exc (bind m k) psi.
Proof. intros Hm Hk. eapply spec_bind; [exact Hm | intros a _; apply Hk]. Qed.

Lemma spec_gets {A : Type} (f : SimulationEngine -> A) (phi : A -> Prop) :
  (forall w, Inv w -> phi (f (engine w))) -> spec Inv Exc (gets f) phi.
Proof. intros Hf w Hw. cbn. auto. Qed.

Lemma spec_modify (f : SimulationEngine -> SimulationEngine) :
  (forall w, Inv w -> Inv (mkWorld (f (engine w)) (random_state w))) ->
  spec Inv Exc (modify f) anything.
Proof. intros Hf w Hw. cbn. split; [auto | exact I]. Qed.

Lemma spec_rand {A : Type} (f : Random.state -> A * Random.state)
    (phi : A -> Prop) :
  (forall w s, Inv w -> Inv (mkWorld (engine w) s)) ->
  (forall s, phi (fst (f s))) ->
  spec Inv Exc (rand f) phi.
Proof.
  intros HI Hf w Hw. unfold rand.
  pose proof (Hf (random_state w)) as Ha.
  destruct (f (random_state w)) as [a s]. split; [auto | exact Ha].
Qed.

Lemma spec_call {A : Type} (f : World -> Outcome A) (phi : A -> Prop) :
  (forall w, Inv w ->
     match f w with Returned a => phi a | Raised _ => Exc w end) ->
  spec Inv Exc (call f) phi.
Proof.
  intros Hf w Hw. unfold call. specialize (Hf w Hw).
  destruct (f w); auto.
Qed.

Lemma spec_for_each {A S : Type} (l : list A) (body : A -> S -> M S) :
  (forall x acc, spec Inv Exc (body x acc) anything) ->
  forall acc, spec Inv Exc (for_each l body acc) anything.
Proof.
  intros Hbody. induction l as [| x l IH]; intros acc; cbn [for_each].
  - apply spec_ret. exact I.
  - apply spec_seq; [apply Hbody | exact IH].
Qed.

End Rules.

(** [try / except]: the body may raise in any store satisfying [Inv], from
    which the handler carries on. *)
Lemma spec_try {A : Type} (Inv Exc : World -> Prop) (body : M A)
    (handler : string -> M A) (phi : A -> Prop) :
  @spec A Inv Inv body phi ->
  (forall e, spec Inv Exc (handler e) phi) ->
  spec Inv Exc (try_except body handler) phi.
Proof.
  intros Hb Hh w Hw. unfold try_except. specialize (Hb w Hw).
  destruct (body w) as [[a | e] w']; [exact Hb |].
  apply (Hh e w' Hb).
Qed.

(** A call caught by the enclosing [try] needs nothing of the callee. *)
Lemma spec_call_caught {A : Type} (Inv : World -> Prop) (f : World -> Outcome A) :
  @spec A Inv Inv (call f) anything.
Proof. apply spec_call. intros w Hw. destruct (f w); [exact I | exact Hw]. Qed.

(** The walk through a computation, one construct at a time; [leaf] proves
    the specification of a single operation. *)
Ltac walk leaf :=
  cbv beta zeta;
  lazymatch goal with
  | |- spec _ _ (ret _) _ => apply spec_ret; exact I
  | |- spec _ _ (bind (if ?b then _ else _) _) _ =>
      apply spec_seq; [destruct b; walk leaf | intros; walk leaf]
  | |- spec _ _ (bind (match ?x with _ => _ end) _) _ =>
      apply spec_seq; [walk leaf | intros; walk leaf]
  | |- spec _ _ (bind _ _) _ =>
      eapply spec_bind; [leaf | intros; walk leaf]
  | |- spec _ _ (try_except _ _) _ =>
      apply spec_try; [walk leaf | intros; walk leaf]
  | |- spec _ _ (for_each _ _ _) _ =>
      apply spec_for_each; intros; walk leaf
  | |- spec _ _ (if ?b then _ else _) _ => destruct b; walk leaf
  | |- spec _ _ (match ?x with _ => _ end) _ => destruct x; walk leaf
  | |- _ => leaf
  end.

(** ** What one tick keeps

    The walk through [step] is done once, for any property [ok_a] of agents
    and [ok_i] of items that the agent and item operations keep.  A tick
    keeps them whether it returns or raises, and it raises only when the
    context source does. *)

Lemma randint_range (a b : Z) (s : Random.state) :
  a <= b -> a <= fst (Random.randint a b s) <= b.
Proof.
  intros Hab. unfold Random.randint, Random.randbelow.
  destruct (Random.next s) as [x s']. cbn [fst].
  assert (Hn : Z.of_N (Z.to_N (b - a + 1)) = b - a + 1)
    by (apply Z2N.id; lia).
  set (n := Z.to_N (b - a + 1)) in *.
  assert (Hpos : n <> 0%N) by lia.
  pose proof (proj1 (N2Z.inj_lt _ _) (N.mod_lt x n Hpos)) as Hlt.
  pose proof (N2Z.is_nonneg (x mod n)). lia.
Qed.

Create HintDb keep.

Section Keeping.

Context {libm : Flt.Libm}.

Variable ok_a : PokemonALOs -> Prop.
Variable ok_i : Item -> Prop.
Variable r : PokemonRAG.

Hypothesis ok_default : ok_a inhabitant.
Hypothesis ok_position : forall v p, ok_a p -> ok_a (set_position v p).
Hypothesis ok_take_damage :
  forall d p, 10 <= d <= 25 -> ok_a p -> ok_a (take_damage d p).
Hypothesis ok_relationship :
  forall k c p, ok_a p -> ok_a (update_relationship k c p).
Hypothesis ok_mood : forall m p, ok_a p -> ok_a (set_mood m p).
Hypothesis ok_heal : forall p, ok_a p -> ok_a (heal 5 p).
Hypothesis ok_rest : forall p, ok_a p -> ok_a (rest p).
Hypothesis ok_learn : forall m p, ok_a p -> ok_a (learn_move m p).
Hypothesis ok_add : forall it p, ok_i it -> ok_a p -> ok_a (snd (add_item it p)).
Hypothesis ok_use : forall it p, ok_i it -> ok_a p -> ok_a (snd (use it p)).
Hypothesis ok_auto : forall p, ok_a p -> ok_a (snd (auto_use_item p)).
Hypothesis ok_spawned :
  forall m s it m' s', spawn_item m s = (Some it, m', s') -> ok_i it.

Local Abbreviation K := (kept ok_a ok_i r).
Local Abbreviation X := (fun w => kept ok_a ok_i r w /\ context_fails r).

Lemma ok_update_position (dx dy : float) (p : PokemonALOs) :
  ok_a p -> ok_a (update_position dx dy p).
Proof. unfold update_position. destruct (position p). apply ok_position. Qed.

Lemma ok_move_towards (t : Flt.pos) (speed : float) (p : PokemonALOs) :
  ok_a p -> ok_a (move_towards t speed p).
Proof.
  unfold move_towards. destruct (position p), t.
  destruct (PrimFloat.ltb _ _); auto using ok_update_position.
Qed.

Lemma ok_move_away (t : Flt.pos) (speed : float) (p : PokemonALOs) :
  ok_a p -> ok_a (move_away t speed p).
Proof.
  unfold move_away. destruct (position p), t.
  destruct (PrimFloat.ltb _ _); auto using ok_update_position.
Qed.

Section Primitives.

Variable Exc : World -> Prop.

Lemma spec_pokemon (i : nat) : spec K Exc (pokemon i) ok_a.
Proof.
  apply spec_gets. intros w (Ha & _ & _).
  destruct (decide (i < length (pokemons (engine w)))%nat) as [Hi | Hi].
  - apply Forall_lookup_total_1; assumption.
  - rewrite list_lookup_total_alt, lookup_ge_None_2 by lia. exact ok_default.
Qed.

Lemma spec_gets_any {A : Type} (f : SimulationEngine -> A) :
  spec K Exc (gets f) anything.
Proof. apply spec_gets. intros; exact I. Qed.

Lemma spec_update (i : nat) (f : PokemonALOs -> PokemonALOs) :
  (forall p, ok_a p -> ok_a (f p)) -> spec K Exc (update i f) anything.
Proof.
  intros Hf. apply spec_modify. intros w (Ha & Hi & Hr).
  repeat split; cbn; try assumption.
  apply Forall_alter; auto.
Qed.

Lemma spec_method {A : Type} (i : nat) (f : PokemonALOs -> A * PokemonALOs)
    (phi : A -> Prop) :
  (forall p, ok_a p -> ok_a (snd (f p)) /\ phi (fst (f p))) ->
  spec K Exc (method i f) phi.
Proof.
  intros Hf. unfold method.
  eapply spec_bind; [apply spec_pokemon |]. intros p Hp.
  apply spec_seq.
  - apply spec_update. intros _ _. apply Hf, Hp.
  - intros _. apply spec_ret. apply Hf, Hp.
Qed.

Lemma spec_log_event (event : string) : spec K Exc (log_event event) anything.
Proof. apply spec_modify. intros w (Ha & Hi & Hr). repeat split; assumption. Qed.

Lemma spec_rand_any {A : Type} (f : Random.state -> A * Random.state) :
  spec K Exc (rand f) anything.
Proof.
  apply spec_rand; [| intros; exact I].
  intros w s (Ha & Hi & Hr). repeat split; assumption.
Qed.

Lemma spec_damage_roll :
  spec K Exc (rand (Random.randint 10 25)) (fun d => 10 <= d <= 25).
Proof.
  apply spec_rand.
  - intros w s (Ha & Hi & Hr). repeat split; assumption.
  - intros s. apply randint_range. lia.
Qed.

Lemma spec_spawn :
  spec K Exc spawn (fun o => forall it, o = Some it -> ok_i it).
Proof.
  intros w (Ha & Hi & Hr). unfold spawn.
  destruct (spawn_item (item_manager (engine w)) (random_state w))
    as [[o m] s] eqn:Hs.
  assert (Ho : forall it, o = Some it -> ok_i it).
  { intros it ->. eapply ok_spawned, Hs. }
  split; [| exact Ho].
  repeat split; cbn; try assumption.
  revert Hs. unfold spawn_item.
  destruct (_ <=? _)%nat; [intros [= <- <- <-]; assumption |].
  destruct (Random.random _) as [u s1].
  destruct (PrimFloat.ltb u _); [| intros [= <- <- <-]; assumption].
  destruct (create_random_berry s1) as [it s2].
  destruct (Random.uniform _ _ s2) as [x s3].
  destruct (Random.uniform _ _ s3) as [y s4].
  intros [= <- <- <-]. cbn.
  apply Forall_app; split; [assumption |].
  constructor; [| constructor]. apply Ho. reflexivity.
Qed.

Lemma spec_pickup (p : PokemonALOs) (d : float) :
  spec K Exc (pickup p d) (fun o => forall it, o = Some it -> ok_i it).
Proof.
  intros w (Ha & Hi & Hr). unfold pickup, check_pickup.
  pose proof (scan_pickup_spec (position p) d
                (items_on_field (item_manager (engine w)))) as H.
  destruct (scan_pickup (position p) d
              (items_on_field (item_manager (engine w)))) as [[it |] rest].
  - destruct H as (before & after & Hm & -> & _).
    rewrite Hm in Hi. apply Forall_app in Hi as [Hb Hi].
    apply Forall_cons in Hi as [Hit Hafter].
    split.
    + repeat split; cbn; try assumption. apply Forall_app; auto.
    + intros ? [= <-]. exact Hit.
  - destruct H as [-> _]. split; [| intros ? [=]].
    repeat split; assumption.
Qed.

End Primitives.

Lemma spec_query_context (q : string) (n : Z) :
  spec K X (call (fun w => query_context (rag_system (engine w)) q n)) anything.
Proof.
  apply spec_call. intros w Hw.
  destruct Hw as (Ha & Hi & Hr). rewrite Hr.
  destruct (query_context r q n) as [l | e] eqn:Hq; [exact I |].
  split; [repeat split; assumption |].
  left. exists q, n, e. exact Hq.
Qed.

Lemma spec_scenarios :
  spec K X (call (fun w => get_interaction_scenarios (rag_system (engine w))))
       anything.
Proof.
  apply spec_call. intros w Hw.
  destruct Hw as (Ha & Hi & Hr). rewrite Hr.
  destruct (get_interaction_scenarios r) as [l | e] eqn:Hq; [exact I |].
  split; [repeat split; assumption |].
  right. exists e. exact Hq.
Qed.

Ltac spec_leaf :=
  first
    [ apply spec_pokemon
    | apply spec_gets_any
    | apply spec_log_event
    | apply spec_damage_roll
    | apply spec_rand_any
    | apply spec_spawn
    | apply spec_pickup
    | apply spec_query_context
    | apply spec_scenarios
    | apply spec_call_caught
    | apply spec_update; intros;
      first [ apply ok_take_damage; [lia | assumption]
            | eauto using ok_update_position, ok_move_towards, ok_move_away ]
    | solve [eauto with keep] ].

Ltac spec_walk := walk ltac:(idtac; spec_leaf).

Lemma keep_battle (i j : nat) : spec K X (_simulate_battle i j) anything.
Proof. unfold _simulate_battle. spec_walk. Qed.

Lemma keep_friendship (i j : nat) : spec K X (_simulate_friendship i j) anything.
Proof. unfold _simulate_friendship. spec_walk. Qed.

Local Hint Resolve keep_battle keep_friendship : keep.

Lemma keep_interaction (i j : nat) : spec K X (_handle_interaction i j) anything.
Proof. unfold _handle_interaction. spec_walk. Qed.

Lemma keep_awareness (i j : nat) : spec K X (_handle_awareness i j) anything.
Proof. unfold _handle_awareness. spec_walk. Qed.

Local Hint Resolve keep_interaction keep_awareness : keep.

Lemma keep_visit_pair (i j : nat) (evs : list string) :
  spec K X (visit_pair i j evs) anything.
Proof. unfold visit_pair, dispatch_pair. spec_walk. Qed.

Lemma keep_practice (i : nat) : spec K X (_practice_move i) anything.
Proof. unfold _practice_move. spec_walk. Qed.

Lemma keep_random_walk (speed : float) (i : nat) :
  spec K X (random_walk speed i) anything.
Proof. unfold random_walk. spec_walk. Qed.

Local Hint Resolve keep_practice keep_random_walk : keep.

Lemma keep_individual_action (i : nat) :
  spec K X (_handle_individual_action i) anything.
Proof. unfold _handle_individual_action. spec_walk. Qed.

Lemma keep_individual_turn (i : nat) (u : unit) :
  spec K X (individual_turn i u) anything.
Proof.
  unfold individual_turn.
  apply spec_seq; [apply keep_individual_action | intros _].
  eapply spec_bind; [apply spec_pokemon | intros p Hp].
  eapply spec_bind; [apply spec_pickup | intros o Ho].
  apply spec_seq.
  - destruct o as [it |]; [| apply spec_ret; exact I].
    specialize (Ho it eq_refl).
    eapply spec_bind.
    { apply (spec_method _ _ _ anything). intros q Hq.
      split; [apply ok_add; assumption | exact I]. }
    intros added _. destruct added; [apply spec_log_event |].
    eapply spec_bind; [| intros; apply spec_log_event].
    apply (spec_method _ _ _ anything). intros q Hq.
    split; [apply ok_use; assumption | exact I].
  - intros _. eapply spec_bind.
    { apply (spec_method _ _ _ anything). intros q Hq.
      split; [apply ok_auto; assumption | exact I]. }
    intros [msg |] _; [destruct (truthy msg) |];
      first [apply spec_log_event | apply spec_ret; exact I].
Qed.

Lemma keep_random_event : spec K X _trigger_random_event anything.
Proof. unfold _trigger_random_event. spec_walk. Qed.

Local Hint Resolve keep_random_event : keep.

(** One tick: the store it leaves satisfies [kept], and it raises only if
    the context source [r] does. *)
Lemma keep_step : spec K X step anything.
Proof.
  unfold step.
  apply spec_seq.
  { apply spec_modify. intros w (Ha & Hi & Hr). repeat split; assumption. }
  intros _.
  eapply spec_bind; [apply spec_spawn | intros new_item _].
  apply spec_seq.
  { destruct new_item; [apply spec_log_event | apply spec_ret; exact I]. }
  intros _.
  eapply spec_bind; [apply spec_gets_any | intros n _].
  eapply spec_bind.
  { unfold for_pairs. apply spec_for_each. intros i acc.
    apply spec_for_each. intros j acc'. apply keep_visit_pair. }
  intros step_events _.
  apply spec_seq.
  { apply spec_for_each. intros i acc. apply keep_individual_turn. }
  intros _. spec_walk.
Qed.

End Keeping.

(** ** Vitals stay in range *)

Lemma vitals_take_damage (d : Z) (p : PokemonALOs) :
  0 <= d -> vitals_ok p -> vitals_ok (take_damage d p).
Proof.
  unfold vitals_ok, take_damage. cbn [hp set_hp set_energy energy].
  intros Hd Hp.
  destruct (_ <? 30); [| destruct (_ <? 60)]; cbn; lia.
Qed.

Lemma vitals_heal (a : Z) (p : PokemonALOs) :
  0 <= a -> vitals_ok p -> vitals_ok (heal a p).
Proof.
  unfold vitals_ok, heal. cbn [hp set_hp energy].
  intros Ha Hp. destruct (70 <? _); cbn; lia.
Qed.

Lemma vitals_rest (p : PokemonALOs) : vitals_ok p -> vitals_ok (rest p).
Proof.
  unfold vitals_ok, rest. cbn [hp set_hp set_energy energy].
  intros Hp. destruct (80 <? _); cbn; lia.
Qed.

Lemma vitals_set_energy (v : Z) (p : PokemonALOs) :
  0 <= v -> vitals_ok p -> vitals_ok (set_energy (Z.min 100 (energy p + v)) p).
Proof. unfold vitals_ok. cbn. lia. Qed.

Lemma vitals_use (it : Item) (p : PokemonALOs) :
  item_ok it -> vitals_ok p -> vitals_ok (snd (use it p)).
Proof.
  unfold item_ok. intros Hit Hp. unfold use.
  assert (Hhalf : 0 <= effect_value it / 2) by (apply Z.div_pos; lia).
  destruct (String.eqb _ "hp"); [apply vitals_heal; assumption |].
  destruct (String.eqb _ "energy"); [apply vitals_set_energy; assumption |].
  destruct (String.eqb _ "mood"); [destruct (mood_is_bad _); exact Hp |].
  destruct (String.eqb _ "mixed"); [| exact Hp].
  cbn [snd]. apply vitals_set_energy; [assumption |].
  apply vitals_heal; assumption.
Qed.

Lemma take_damage_inventory (d : Z) (p : PokemonALOs) :
  inventory (take_damage d p) = inventory p.
Proof.
  unfold take_damage. cbn [hp set_hp set_energy].
  destruct (_ <? 30); [| destruct (_ <? 60)]; reflexivity.
Qed.

Lemma heal_inventory (a : Z) (p : PokemonALOs) :
  inventory (heal a p) = inventory p.
Proof. unfold heal. cbn [hp set_hp]. destruct (70 <? _); reflexivity. Qed.

Lemma rest_inventory (p : PokemonALOs) : inventory (rest p) = inventory p.
Proof.
  unfold rest. cbn [hp set_hp set_energy energy].
  destruct (80 <? _); reflexivity.
Qed.

Lemma pokemon_ok_use (it : Item) (p : PokemonALOs) :
  item_ok it -> pokemon_ok p -> pokemon_ok (snd (use it p)).
Proof.
  intros Hit [Hv Hinv]. split; [apply vitals_use; assumption |].
  rewrite use_inventory. exact Hinv.
Qed.

Lemma pokemon_ok_use_item (idx : Z) (p : PokemonALOs) :
  pokemon_ok p -> pokemon_ok (snd (use_item idx p)).
Proof.
  intros [Hv Hinv]. unfold use_item.
  destruct (_ && _); [| split; assumption].
  destruct (inventory p !! Z.to_nat idx) as [it |] eqn:Hit;
    [| split; assumption].
  pose proof (pokemon_ok_use it
                (set_inventory (delete (Z.to_nat idx) (inventory p)) p)) as H.
  destruct (use it _) as [msg q]. apply H.
  - eapply Forall_lookup_1; eassumption.
  - split; [exact Hv |]. cbn. apply Forall_delete, Hinv.
Qed.

Lemma pokemon_ok_auto_use_item (p : PokemonALOs) :
  pokemon_ok p -> pokemon_ok (snd (auto_use_item p)).
Proof.
  intros Hp. unfold auto_use_item.
  repeat (match goal with
          | |- context [match ?x with Some _ => _ | None => _ end] =>
              destruct x
          end);
    auto using pokemon_ok_use_item.
Qed.

Lemma pokemon_ok_add_item (it : Item) (p : PokemonALOs) :
  item_ok it -> pokemon_ok p -> pokemon_ok (snd (add_item it p)).
Proof.
  intros Hit [Hv Hinv]. unfold add_item.
  destruct (_ <? _)%nat; [| split; assumption].
  split; [exact Hv |]. cbn. apply Forall_app. split; [exact Hinv |].
  constructor; [exact Hit | constructor].
Qed.

Lemma berries_ok :
  Forall (fun b => 0 <= snd (snd b)) BERRY_TYPES.
Proof. repeat constructor; cbn; lia. Qed.

Lemma spawned_item_ok (m : ItemManager) (s : Random.state) (it : Item)
    (m' : ItemManager) (s' : Random.state) :
  spawn_item m s = (Some it, m', s') -> item_ok it.
Proof.
  unfold spawn_item.
  destruct (_ <=? _)%nat; [discriminate |].
  destruct (Random.random s) as [u s1].
  destruct (PrimFloat.ltb u _); [| discriminate].
  unfold create_random_berry, Random.choice.
  destruct (Random.randbelow _ s1) as [k s2].
  pose proof (Forall_lookup_total_1 _ BERRY_TYPES (N.to_nat k) berries_ok)
    as Hk.
  destruct (decide (N.to_nat k < length BERRY_TYPES)%nat) as [Hlt | Hge].
  - specialize (Hk Hlt).
    destruct (BERRY_TYPES !!! N.to_nat k) as [nm [[ty eff] val]].
    destruct (Random.uniform _ _ s2) as [x s3].
    destruct (Random.uniform _ _ s3) as [y s4].
    intros [= <- _ _]. exact Hk.
  - rewrite list_lookup_total_alt, lookup_ge_None_2 by lia. cbn.
    destruct (Random.uniform _ _ s2) as [x s3].
    destruct (Random.uniform _ _ s3) as [y s4].
    intros [= <- _ _]. unfold item_ok. cbn. lia.
Qed.

Lemma kept_engine_ok (r : PokemonRAG) (w : World) :
  kept pokemon_ok item_ok r w -> engine_ok (engine w).
Proof. intros (Ha & Hi & _). split; assumption. Qed.

Lemma step_keeps_engine_ok {libm : Flt.Libm} (w : World) :
  engine_ok (engine w) -> engine_ok (engine (snd (step w))).
Proof.
  intros [Ha Hi].
  assert (Hk : kept pokemon_ok item_ok (rag_system (engine w)) w)
    by (repeat split; assumption).
  pose proof (keep_step pokemon_ok item_ok (rag_system (engine w))) as H.
  specialize (H ltac:(repeat split; [cbn; lia .. | constructor])).
  specialize (H ltac:(intros v p [Hv Hinv]; split; assumption)).
  specialize (H ltac:(intros d p Hd [Hv Hinv]; split;
                      [apply vitals_take_damage; [lia | exact Hv]
                      | rewrite take_damage_inventory; exact Hinv])).
  specialize (H ltac:(intros k c p [Hv Hinv]; split; assumption)).
  specialize (H ltac:(intros m p [Hv Hinv]; split; assumption)).
  specialize (H ltac:(intros p [Hv Hinv]; split;
                      [apply vitals_heal; [lia | exact Hv]
                      | rewrite heal_inventory; exact Hinv])).
  specialize (H ltac:(intros p [Hv Hinv]; split;
                      [apply vitals_rest; exact Hv
                      | rewrite rest_inventory; exact Hinv])).
  specialize (H ltac:(intros m p [Hv Hinv]; unfold learn_move;
                      destruct (knows m p); split; assumption)).
  specialize (H pokemon_ok_add_item pokemon_ok_use pokemon_ok_auto_use_item
                spawned_item_ok w Hk).
  destruct (step w) as [[res | e] w']; cbn [snd].
  - eapply kept_engine_ok, H.
  - eapply kept_engine_ok, H.
Qed.

Lemma ticks_keep_engine_ok {libm : Flt.Libm} (n : nat) (w : World) :
  engine_ok (engine w) -> engine_ok (engine (ticks n w)).
Proof.
  revert w. induction n as [| n IH]; intros w Hw; cbn [ticks].
  - exact Hw.
  - apply IH, step_keeps_engine_ok, Hw.
Qed.

(** C3. From an engine whose agents have hp and energy in [0, 100] (and
    whose items have non-negative magnitudes, as every catalogue item has),
    every agent has [0 <= hp <= 100] and [0 <= energy <= 100] after one
    call of [step] and after any number of calls, whether a call returns or
    raises.  Each single mutation keeps both ranges as well: [take_damage]
    and [heal] with a non-negative amount, [rest], and the effect of an
    item. *)
Theorem vitals_stay_in_range {libm : Flt.Libm}
    (w : World) (n : nat) (p : PokemonALOs)
    (amount : Z) (it : Item) :
  engine_ok (engine w) ->
  vitals_ok p ->
  0 <= amount ->
  item_ok it ->
  Forall vitals_ok (pokemons (engine (snd (step w)))) /\
  Forall vitals_ok (pokemons (engine (ticks n w))) /\
  engine_ok (engine (ticks n w)) /\
  vitals_ok (take_damage amount p) /\
  vitals_ok (heal amount p) /\
  vitals_ok (rest p) /\
  vitals_ok (snd (use it p)).
Proof.
  intros Hw Hp Ha Hit.
  assert (Hv : forall e, engine_ok e -> Forall vitals_ok (pokemons e)).
  { intros e [He _]. eapply Forall_impl; [exact He |]. intros q [Hq _]. exact Hq. }
  split; [apply Hv, step_keeps_engine_ok, Hw |].
  split; [apply Hv, ticks_keep_engine_ok, Hw |].
  split; [apply ticks_keep_engine_ok, Hw |].
  split; [apply vitals_take_damage; assumption |].
  split; [apply vitals_heal; assumption |].
  split; [apply vitals_rest; assumption |].
  apply vitals_use; assumption.
Qed.

Section With_ieee_pow.
#[local] Existing Instance ieee_pow.

Lemma vitals_stay_in_range_witness :
  Forall vitals_ok (pokemons (engine (snd (step calm_world)))) /\
  Forall vitals_ok (pokemons (engine (ticks 2 calm_world))) /\
  engine_ok (engine (ticks 2 calm_world)) /\
  vitals_ok (take_damage 15 weary_agent) /\
  vitals_ok (heal 15 weary_agent) /\
  vitals_ok (rest weary_agent) /\
  vitals_ok (snd (use oran_berry weary_agent)).
Proof.
  apply (vitals_stay_in_range calm_world 2 weary_agent 15 oran_berry).
  - split; [repeat constructor; cbn; lia | constructor].
  - unfold vitals_ok; cbn; lia.
  - lia.
  - unfold item_ok; cbn; lia.
Defined.

End With_ieee_pow.

(** ** Failures of the collaborators *)


Section With_ieee_pow.
#[local] Existing Instance ieee_pow.


End With_ieee_pow.

Section With_ieee_pow.
#[local] Existing Instance ieee_pow.


End With_ieee_pow.

Section With_ieee_pow.
#[local] Existing Instance ieee_pow.

(** With the narrator down instead, the same tick returns and the battle
    fallback has been applied. *)
Example step_survives_narrator_failure :
  r_events <$> (match fst (step silent_world) with
                | Returned s => Some s
                | Raised _ => None
                end)
  = Some ["Battle: pikachu vs meowth"; "Random Event: 雨が降ってきた"] /\
  map hp (pokemons (engine (snd (step silent_world)))) = [85; 85].
Proof. vm_compute. repeat split. Qed.

End With_ieee_pow.

(** ** The distances of the pair phase *)

Section With_ieee_pow.
#[local] Existing Instance ieee_pow.

(** [distance_to] is the Euclidean distance, the same from either agent:
    two agents 0.375 and 0.5 apart along the axes are 0.625 apart, not
    0.875; an agent is at the distance 0 from itself. *)
Example distance_to_is_euclidean :
  let a := sample_agent "pikachu" 5 5 in
  let b := sample_agent "meowth" 5.375 5.5 in
  distance_to a b = 0.625%float /\
  distance_to b a = 0.625%float /\
  distance_to a a = 0%float.
Proof. vm_compute. repeat split. Qed.

End With_ieee_pow.

Lemma for_each_agree {A S : Type} (Inv : World -> Prop) (l : list A)
    (body1 body2 : A -> S -> M S) :
  (forall x acc w, x ∈ l -> Inv w -> body1 x acc w = body2 x acc w) ->
  (forall x acc, spec Inv Inv (body1 x acc) anything) ->
  forall acc w, Inv w -> for_each l body1 acc w = for_each l body2 acc w.
Proof.
  induction l as [| x l IH]; intros Heq Hspec acc w Hw; cbn [for_each].
  - reflexivity.
  - unfold bind. rewrite <- (Heq x acc w) by (constructor || assumption).
    pose proof (Hspec x acc w Hw) as Hx.
    destruct (body1 x acc w) as [[a | e] w']; [| reflexivity].
    apply IH; [| exact Hspec | apply Hx].
    intros y acc' w'' Hy. apply Heq. constructor. exact Hy.
Qed.

Lemma positions_of_lookup (w : World) (k : nat) :
  positions_of w !!! k = position (pokemons (engine w) !!! k).
Proof.
  unfold positions_of.
  destruct (decide (k < length (pokemons (engine w)))%nat) as [Hk | Hk].
  - apply list_lookup_total_correct.
    rewrite list_lookup_fmap, (list_lookup_lookup_total_lt _ k Hk).
    reflexivity.
  - rewrite !list_lookup_total_alt, list_lookup_fmap.
    rewrite lookup_ge_None_2 by lia. reflexivity.
Qed.

Create HintDb unmoved.

Section Positions.

Context {libm : Flt.Libm}.

Variable start : list Flt.pos.
Variable sel : nat -> Prop.

Local Abbreviation P := (unmoved start sel).

Lemma unmoved_update (i : nat) (f : PokemonALOs -> PokemonALOs) :
  (sel i -> forall p, position (f p) = position p) ->
  spec P P (update i f) anything.
Proof.
  intros Hf. apply spec_modify. intros w Hw k Hk. cbn.
  rewrite list_lookup_total_alter.
  destruct (decide (i = k /\ (i < length (pokemons (engine w)))%nat))
    as [[-> _] | _]; [| apply Hw, Hk].
  rewrite Hf by exact Hk. apply Hw, Hk.
Qed.

Lemma unmoved_log_event (event : string) : spec P P (log_event event) anything.
Proof. apply spec_modify. intros w Hw. exact Hw. Qed.

Lemma unmoved_rand {A : Type} (f : Random.state -> A * Random.state) :
  spec P P (rand f) anything.
Proof. apply spec_rand; [intros w s Hw; exact Hw | intros; exact I]. Qed.

Lemma unmoved_gets {A : Type} (f : SimulationEngine -> A) :
  spec P P (gets f) anything.
Proof. apply spec_gets. intros; exact I. Qed.

Lemma take_damage_position (d : Z) (p : PokemonALOs) :
  position (take_damage d p) = position p.
Proof.
  unfold take_damage. cbn [hp set_hp set_energy].
  destruct (_ <? 30); [| destruct (_ <? 60)]; reflexivity.
Qed.

Lemma heal_position (a : Z) (p : PokemonALOs) :
  position (heal a p) = position p.
Proof. unfold heal. cbn [hp set_hp]. destruct (70 <? _); reflexivity. Qed.

Ltac unmoved_leaf :=
  first
    [ apply unmoved_gets
    | apply unmoved_log_event
    | apply unmoved_rand
    | apply spec_call_caught
    | apply unmoved_update; intros;
      first [ apply take_damage_position | apply heal_position | reflexivity
            | contradiction ]
    | solve [eauto with unmoved] ].

Ltac unmoved_walk := walk ltac:(idtac; unmoved_leaf).

Lemma unmoved_battle (i j : nat) : spec P P (_simulate_battle i j) anything.
Proof. unfold _simulate_battle, pokemon. unmoved_walk. Qed.

Lemma unmoved_friendship (i j : nat) :
  spec P P (_simulate_friendship i j) anything.
Proof. unfold _simulate_friendship, pokemon. unmoved_walk. Qed.

Local Hint Resolve unmoved_battle unmoved_friendship : unmoved.

Lemma unmoved_interaction (i j : nat) :
  spec P P (_handle_interaction i j) anything.
Proof. unfold _handle_interaction, pokemon. unmoved_walk. Qed.

(** The awareness rule moves the first agent of the pair only. *)
Lemma unmoved_awareness (i j : nat) :
  ~ sel i -> spec P P (_handle_awareness i j) anything.
Proof. intros Hi. unfold _handle_awareness, pokemon. unmoved_walk. Qed.

Lemma unmoved_dispatch_pair (d : float) (i j : nat) (evs : list string) :
  ~ sel i -> spec P P (dispatch_pair d i j evs) anything.
Proof.
  intros Hi. unfold dispatch_pair.
  destruct (PrimFloat.ltb d 1.5).
  - eapply spec_bind; [apply unmoved_interaction |].
    intros; apply spec_ret; exact I.
  - destruct (PrimFloat.ltb d 3).
    + apply spec_seq; [apply unmoved_awareness, Hi |].
      intros; apply spec_ret; exact I.
    + apply spec_ret; exact I.
Qed.

Lemma unmoved_visit_pair (i j : nat) (evs : list string) :
  ~ sel i -> spec P P (visit_pair i j evs) anything.
Proof.
  intros Hi. unfold visit_pair, pokemon.
  eapply spec_bind; [apply unmoved_gets | intros p1 _].
  eapply spec_bind; [apply unmoved_gets | intros p2 _].
  apply unmoved_dispatch_pair, Hi.
Qed.

End Positions.

Lemma unmoved_weaken (start : list Flt.pos) (sel sel' : nat -> Prop) (w : World) :
  (forall k, sel' k -> sel k) -> unmoved start sel w -> unmoved start sel' w.
Proof. intros HTS Hw k Hk. apply Hw, HTS, Hk. Qed.

(** One row of the pair loop: the second agent of every pair is where it
    was at the start of the phase. *)
Lemma pair_row_agree {libm : Flt.Libm}
    (start : list Flt.pos) (n i : nat) (evs : list string)
    (w : World) :
  unmoved start (fun k => (i < k)%nat) w ->
  for_each (seq (S i) (n - S i)) (visit_pair i) evs w
  = for_each (seq (S i) (n - S i))
      (visit_pair_second_from_start start i) evs w.
Proof.
  apply (for_each_agree (unmoved start (fun k => (i < k)%nat))).
  - intros j acc w' Hj Hw'. apply elem_of_seq in Hj as [Hj _].
    unfold visit_pair, visit_pair_second_from_start, bind, pokemon, gets,
      distance_to.
    rewrite (Hw' j) by lia. reflexivity.
  - intros j acc. apply unmoved_visit_pair. lia.
Qed.

Lemma pair_rows_agree {libm : Flt.Libm}
    (start : list Flt.pos) (n a m : nat) (evs : list string)
    (w : World) :
  unmoved start (fun k => (a <= k)%nat) w ->
  for_each (seq a m)
    (fun i => for_each (seq (S i) (n - S i)) (visit_pair i))
    evs w
  = for_each (seq a m)
      (fun i => for_each (seq (S i) (n - S i))
                  (visit_pair_second_from_start start i))
      evs w.
Proof.
  revert a evs w. induction m as [| m IH]; intros a evs w Hw; cbn [seq for_each].
  - reflexivity.
  - assert (Ha : unmoved start (fun k => (a < k)%nat) w).
    { eapply unmoved_weaken; [| exact Hw]. intros k; cbn; lia. }
    unfold bind. rewrite <- (pair_row_agree start n a evs w Ha).
    pose proof (spec_for_each (Inv := unmoved start (fun k => (a < k)%nat))
                  (Exc := unmoved start (fun k => (a < k)%nat))
                  (seq (S a) (n - S a)) (visit_pair a)) as Hrow.
    specialize (Hrow ltac:(intros j acc; apply unmoved_visit_pair; lia) evs w Ha).
    destruct (for_each _ (visit_pair a) evs w) as [[evs' | e] w'];
      [| reflexivity].
    apply IH. eapply unmoved_weaken; [| apply Hrow]. intros k; cbn; lia.
Qed.

(** C2 (as the code has it). In the pair phase of [step] the distance that
    classifies a pair is computed once, when the pair is visited, between
    the positions the two agents have at that moment.  The second agent of
    the pair still stands where it stood at the start of the phase; the
    first agent's position is read live, so it includes the awareness moves
    its earlier pairs of the same tick caused.  The pair phase is therefore
    the phase that takes every second position from the start of the
    phase. *)
Theorem pair_phase_reads_first_agent_live {libm : Flt.Libm}
    (w : World) (evs : list string) :
  let n := length (pokemons (engine w)) in
  for_pairs n visit_pair evs w
  = for_pairs n (visit_pair_second_from_start (positions_of w)) evs w.
Proof.
  intros n. unfold for_pairs. apply pair_rows_agree.
  intros k _. symmetry. apply positions_of_lookup.
Qed.

Section With_ieee_pow.
#[local] Existing Instance ieee_pow.

(** C2 (as the specification words it) fails.  The first agent moves 0.2
    toward the second in the pair (0, 1); the pair (0, 2), 1.4 apart at the
    start of the phase (the interacting band), is then classified at the
    live distance 1.6 (the aware band), and no interaction takes place,
    where distances frozen at the start of the phase lead to a battle. *)
Lemma pair_phase_uses_moved_position :
  let start := positions_of grudge_world in
  let after := for_pairs 3 visit_pair [] grudge_world in
  let frozen := for_pairs 3 (visit_pair_from_start start) [] grudge_world in
  PrimFloat.ltb (euclid (start !!! 0%nat) (start !!! 2%nat)) 1.5 = true /\
  position (pokemons (engine (snd after)) !!! 0%nat) = (5.2%float, 5%float) /\
  PrimFloat.ltb (euclid (5.2%float, 5%float) (start !!! 2%nat)) 1.5 = false /\
  fst after = Returned [] /\
  map hp (pokemons (engine (snd after))) = [100; 100; 100] /\
  fst frozen = Returned ["Battle: pikachu vs sprigatito"] /\
  map hp (pokemons (engine (snd frozen))) = [90; 100; 90].
Proof. vm_compute. repeat split. Qed.

End With_ieee_pow.

(** * Further properties of the agent, the items and the log *)

(** ** Relationships *)

(** X1. [update_relationship] stores the old level plus the change,
    clamped to [-100, 100] (a missing entry counts as 0); reading the same
    key back gives that value, which is always within [-100, 100], and the
    level toward every other key reads as before. *)
Theorem update_relationship_read_back (k : string) (change : Z)
    (p : PokemonALOs) :
  get_relationship k (update_relationship k change p)
    = Z.max (-100) (Z.min 100 (get_relationship k p + change)) /\
  -100 <= get_relationship k (update_relationship k change p) <= 100 /\
  (forall k', k' <> k ->
     get_relationship k' (update_relationship k change p)
     = get_relationship k' p) /\
  (relationships p !! k = None ->
   get_relationship k (update_relationship k change p)
     = Z.max (-100) (Z.min 100 change)).
Proof.
  rewrite get_update_relationship.
  split; [reflexivity |]. split; [lia |]. split.
  - intros k' Hk. unfold get_relationship, update_relationship.
    cbn [relationships set_relationships].
    rewrite lookup_insert_ne by congruence. reflexivity.
  - intros Hnone. unfold get_relationship. rewrite Hnone. reflexivity.
Qed.

(** ** Inventory *)

(** X2. [add_item] succeeds exactly when the inventory holds fewer than
    [max_inventory] items; it then appends the item at the end.  Otherwise
    it returns [False] and the agent is unchanged.  An inventory within its
    capacity stays within it. *)
Theorem add_item_respects_capacity (it : Item) (p : PokemonALOs) :
  (fst (add_item it p) = true <->
   (length (inventory p) < max_inventory p)%nat) /\
  (fst (add_item it p) = true ->
   snd (add_item it p) = set_inventory (inventory p ++ [it]) p) /\
  (fst (add_item it p) = false -> snd (add_item it p) = p) /\
  ((length (inventory p) <= max_inventory p)%nat ->
   (length (inventory (snd (add_item it p)))
    <= max_inventory (snd (add_item it p)))%nat).
Proof.
  unfold add_item.
  destruct (Nat.ltb_spec (length (inventory p)) (max_inventory p)) as [Hlt | Hge];
    cbn [fst snd].
  - repeat split; try tauto; try discriminate.
    intros _. cbn. rewrite length_app. cbn. lia.
  - repeat split; try discriminate; try tauto. lia.
Qed.

(** X3. [use_item] with an index outside [0, len(inventory)) (negative
    indices included) returns nothing and leaves the agent, its inventory
    included, unchanged. *)
Theorem use_item_invalid_index (idx : Z) (p : PokemonALOs) :
  idx < 0 \/ Z.of_nat (length (inventory p)) <= idx ->
  use_item idx p = (None, p).
Proof.
  intros Hidx. unfold use_item.
  destruct (Z.leb_spec 0 idx), (Z.ltb_spec idx (Z.of_nat (length (inventory p))));
    cbn [andb]; try reflexivity.
  lia.
Qed.

Lemma use_item_invalid_index_witness :
  use_item (-1) laden_agent = (None, laden_agent) /\
  use_item 3 laden_agent = (None, laden_agent).
Proof.
  split.
  - apply (use_item_invalid_index (-1) laden_agent). left. lia.
  - apply (use_item_invalid_index 3 laden_agent). right. cbn. lia.
Defined.

(** X4. [use_item] with a valid index takes exactly the item at that index
    out of the inventory, the other items keeping their order, and applies
    that item's effect to the agent; it returns the effect's message. *)
Theorem use_item_valid_index (idx : Z) (p : PokemonALOs) :
  0 <= idx < Z.of_nat (length (inventory p)) ->
  exists it,
    inventory p !! Z.to_nat idx = Some it /\
    let holder := set_inventory (delete (Z.to_nat idx) (inventory p)) p in
    use_item idx p = (Some (fst (use it holder)), snd (use it holder)) /\
    inventory (snd (use_item idx p)) = delete (Z.to_nat idx) (inventory p) /\
    S (length (inventory (snd (use_item idx p)))) = length (inventory p).
Proof.
  intros Hidx.
  destruct (inventory p !! Z.to_nat idx) as [it |] eqn:Hit.
  2:{ apply lookup_ge_None in Hit. lia. }
  exists it. split; [reflexivity |]. cbn zeta.
  assert (E : use_item idx p
              = (Some (fst (use it (set_inventory
                                      (delete (Z.to_nat idx) (inventory p)) p))),
                 snd (use it (set_inventory
                                (delete (Z.to_nat idx) (inventory p)) p)))).
  { unfold use_item. rewrite Hit.
    destruct (Z.leb_spec 0 idx); [| lia].
    destruct (Z.ltb_spec idx (Z.of_nat (length (inventory p)))); [| lia].
    cbn [andb]. destruct (use it _); reflexivity. }
  rewrite E. cbn [snd]. rewrite use_inventory. cbn [inventory set_inventory].
  split; [reflexivity |]. split; [reflexivity |].
  rewrite length_delete by (rewrite Hit; eauto). 
  assert (0 < length (inventory p))%nat by lia. lia.
Qed.

Lemma use_item_valid_index_witness :
  exists it,
    inventory laden_agent !! 1%nat = Some it /\
    use_item 1 laden_agent
    = (Some (fst (use it (set_inventory [oran_berry; oran_berry] laden_agent))),
       snd (use it (set_inventory [oran_berry; oran_berry] laden_agent))) /\
    inventory (snd (use_item 1 laden_agent)) = [oran_berry; oran_berry] /\
    S (length (inventory (snd (use_item 1 laden_agent)))) = 3%nat.
Proof.
  exact (use_item_valid_index 1 laden_agent ltac:(cbn; lia)).
Defined.

(** ** Item effects *)

Lemma truthy_append_r (s t : string) : truthy t = true -> truthy (s +:+ t) = true.
Proof.
  unfold truthy. rewrite !negb_true_iff, !String.eqb_neq.
  apply append_nonempty_r.
Qed.

(** X5. Whatever the item and the agent, [Item.use] returns a non-empty
    message, changes neither the inventory nor the position, the abilities
    or the relationships of the agent, and never lowers hp or energy when
    the item's magnitude is non-negative. *)
Theorem use_effect_frame (it : Item) (p : PokemonALOs) :
  truthy (fst (use it p)) = true /\
  inventory (snd (use it p)) = inventory p /\
  position (snd (use it p)) = position p /\
  current_abilities (snd (use it p)) = current_abilities p /\
  relationships (snd (use it p)) = relationships p /\
  key (snd (use it p)) = key p /\
  (0 <= effect_value it -> hp p <= 100 -> hp p <= hp (snd (use it p))) /\
  (0 <= effect_value it -> energy p <= 100 ->
   energy p <= energy (snd (use it p))).
Proof.
  assert (Hhalf : 0 <= effect_value it -> 0 <= effect_value it / 2)
    by (intros; apply Z.div_pos; lia).
  unfold use, heal. cbn [hp set_hp].
  repeat (match goal with
          | |- context [if ?b then _ else _] => destruct b
          end);
    cbn [fst snd inventory position current_abilities relationships key hp
         energy set_mood set_hp set_energy name];
    (split; [repeat apply truthy_append_r; reflexivity |]);
    repeat split; intros; try specialize (Hhalf ltac:(assumption)); lia.
Qed.

(** ** Bounded histories *)

Lemma capped_append {A : Type} (cap : nat) (l : list A) (x : A) :
  (0 < cap)%nat ->
  let l' := (l ++ [x])%list in
  let r := if (cap <? length l')%nat then drop 1 l' else l' in
  last r = Some x /\
  ((length l < cap)%nat -> r = (l ++ [x])%list) /\
  (length l = cap -> r = (drop 1 l ++ [x])%list) /\
  ((length l <= cap)%nat -> (length r <= cap)%nat).
Proof.
  intros Hcap. cbn zeta. rewrite length_app. cbn [length].
  destruct (Nat.ltb_spec cap (length l + 1)) as [Hfull | Hroom].
  - split.
    + destruct l as [| y l]; [cbn in Hfull |- *; lia |].
      cbn [app drop]. rewrite drop_0. apply last_snoc.
    + split; [lia |]. split.
      * intros Hl. destruct l as [| y l]; [cbn in Hl; lia |].
        cbn [app drop]. rewrite !drop_0. reflexivity.
      * intros Hl. rewrite length_drop, length_app. cbn. lia.
  - split; [apply last_snoc |]. split; [reflexivity |].
    split; [lia |]. intros _. rewrite length_app. cbn. lia.
Qed.

(** X6. [log_event] always returns; the line "[Step N] event" becomes the
    last entry of the log.  Below 200 entries the log simply grows by that
    line; at 200 entries the oldest entry is dropped, so a log within the
    cap of 200 stays within it.  Nothing but the log changes. *)
Theorem log_event_bounded (event : string) (w : World) :
  let e := engine w in
  let e' := engine (snd (log_event event w)) in
  let line := log_entry_of e event in
  fst (log_event event w) = Returned tt /\
  last (event_log e') = Some line /\
  ((length (event_log e) < 200)%nat ->
   event_log e' = (event_log e ++ [line])%list) /\
  (length (event_log e) = 200%nat ->
   event_log e' = (drop 1 (event_log e) ++ [line])%list) /\
  ((length (event_log e) <= 200)%nat -> (length (event_log e') <= 200)%nat) /\
  snd (log_event event w)
    = mkWorld (set_event_log (event_log e') e) (random_state w).
Proof.
  cbn zeta. unfold log_event, modify, log_entry_of.
  cbn [fst snd engine event_log set_event_log].
  pose proof (capped_append 200 (event_log (engine w))
                ("[Step " +:+ pretty (step_count (engine w)) +:+ "] " +:+ event)
                ltac:(lia))
    as (Hlast & Hroom & Hfull & Hcap).
  cbn zeta in *.
  split; [reflexivity |]. split; [exact Hlast |]. split; [exact Hroom |].
  split; [exact Hfull |].
  split; [exact Hcap | reflexivity].
Qed.

Lemma log_event_bounded_witness :
  let w := mkWorld full_log_engine [] in
  let e' := engine (snd (log_event "新しい記録" w)) in
  fst (log_event "新しい記録" w) = Returned tt /\
  last (event_log e') = Some "[Step 0] 新しい記録" /\
  length (event_log e') = 200%nat.
Proof.
  pose proof (log_event_bounded "新しい記録" (mkWorld full_log_engine []))
    as (Hret & Hlast & _ & Hfull & _).
  split; [exact Hret |]. split; [exact Hlast |].
  cbn zeta in Hfull. rewrite (Hfull eq_refl). reflexivity.
Defined.

(** X7. [add_action] makes the action the newest entry of the history;
    below 50 entries the history grows by it, at 50 entries the oldest one
    is dropped, so a history within the cap of 50 stays within it. *)
Theorem add_action_bounded {A : Type} (action : A) (history : list A) :
  last (add_action action history) = Some action /\
  ((length history < 50)%nat ->
   add_action action history = (history ++ [action])%list) /\
  (length history = 50%nat ->
   add_action action history = (drop 1 history ++ [action])%list) /\
  ((length history <= 50)%nat ->
   (length (add_action action history) <= 50)%nat).
Proof.
  unfold add_action.
  pose proof (capped_append 50 history action ltac:(lia))
    as (Hlast & Hroom & Hfull & Hcap).
  cbn zeta in *.
  split; [exact Hlast |]. split; [exact Hroom |].
  split; [exact Hfull | exact Hcap].
Qed.

(** X8. For a negative [n], [get_recent_logs n] is the slice
    [event_log[-n:]], which starts at the index [|n|]: it is the log without
    its first [|n|] entries, not the last [|n|] ones.  It holds
    [max(0, len - |n|)] entries, and is empty exactly when the log has no
    more than [|n|] entries. *)
Theorem get_recent_logs_negative (e : SimulationEngine) (n : Z) :
  n < 0 ->
  let len := Z.of_nat (length (event_log e)) in
  get_recent_logs n e = drop (Z.to_nat (- n)) (event_log e) /\
  Z.of_nat (length (get_recent_logs n e)) = Z.max 0 (len + n) /\
  (get_recent_logs n e = [] <-> len <= - n).
Proof.
  intros Hn len.
  assert (Hdrop : get_recent_logs n e = drop (Z.to_nat (- n)) (event_log e)).
  { unfold get_recent_logs, slice_from.
    destruct (Z.ltb_spec (- n) 0) as [? | _]; [lia |].
    destruct (Z.min_spec (- n) (Z.of_nat (length (event_log e))))
      as [[_ ->] | [Hge ->]]; [reflexivity |].
    rewrite Nat2Z.id. rewrite !drop_ge by lia. reflexivity. }
  assert (Hlen : Z.of_nat (length (get_recent_logs n e)) = Z.max 0 (len + n)).
  { rewrite Hdrop, length_drop. subst len. lia. }
  split; [exact Hdrop |]. split; [exact Hlen |].
  split.
  - intros Hnil. rewrite Hnil in Hlen. cbn in Hlen. lia.
  - intros Hle. apply length_zero_iff_nil. lia.
Qed.

Lemma get_recent_logs_negative_witness :
  get_recent_logs (-1) three_lines = ["[Step 1] b"; "[Step 2] c"] /\
  get_recent_logs (-5) three_lines = [].
Proof.
  split.
  - exact (proj1 (get_recent_logs_negative three_lines (-1) ltac:(lia))).
  - apply (get_recent_logs_negative three_lines (-5) ltac:(lia)).
    vm_compute. discriminate.
Defined.

(** ** The item manager *)

Lemma choice_elem_of {A : Type} `{Inhabited A} (l : list A) (s : Random.state) :
  l <> [] -> fst (Random.choice l s) ∈ l.
Proof.
  intros Hl. unfold Random.choice, Random.randbelow.
  destruct (Random.next s) as [x s']. cbn [fst].
  apply list_elem_of_lookup_total_2.
  assert (Hn : (N.of_nat (length l) <> 0)%N) by (destruct l; [done | cbn; lia]).
  pose proof (N.mod_lt x _ Hn). lia.
Qed.

(** X9. [spawn_item] on a field at its cap does nothing at all: no item,
    the manager unchanged, and no draw taken from the random generator.
    In general it adds at most one item: a spawned item is a catalogue
    berry with a position, appended as the last field item of a field that
    was below its cap, and the cap, the spawn probability and the field
    size are never changed; a field within its cap stays within it. *)
Theorem spawn_item_bounded (m : ItemManager) (s : Random.state) :
  ((max_items_on_field m <= length (items_on_field m))%nat ->
   spawn_item m s = (None, m, s)) /\
  match spawn_item m s with
  | (Some it, m', _) =>
      m' = set_items_on_field (items_on_field m ++ [it]) m /\
      (length (items_on_field m) < max_items_on_field m)%nat /\
      (item_name it, (item_type it, effect_type it, effect_value it))
        ∈ BERRY_TYPES /\
      is_Some (item_position it)
  | (None, m', _) => m' = m
  end /\
  ((length (items_on_field m) <= max_items_on_field m)%nat ->
   (length (items_on_field (snd (fst (spawn_item m s))))
    <= max_items_on_field (snd (fst (spawn_item m s))))%nat).
Proof.
  unfold spawn_item.
  destruct (Nat.leb_spec (max_items_on_field m) (length (items_on_field m)))
    as [Hfull | Hroom].
  { repeat split; auto. }
  split; [lia |].
  destruct (Random.random s) as [u s1].
  destruct (PrimFloat.ltb u (spawn_probability m)); [| repeat split; auto].
  unfold create_random_berry.
  pose proof (choice_elem_of BERRY_TYPES s1 ltac:(discriminate)) as Hin.
  destruct (Random.choice BERRY_TYPES s1) as [[nm [[ty eff] val]] s2].
  cbn [fst] in Hin.
  destruct (Random.uniform _ _ s2) as [x s3].
  destruct (Random.uniform _ _ s3) as [y s4].
  cbn [fst snd item_name item_type effect_type effect_value item_position
       items_on_field max_items_on_field set_items_on_field].
  split.
  - split; [reflexivity |]. split; [exact Hroom |].
    split; [exact Hin | eexists; reflexivity].
  - intros _. rewrite length_app. cbn. lia.
Qed.

Lemma spawn_item_bounded_witness :
  spawn_item crowded_field [7%N; 8%N] = (None, crowded_field, [7%N; 8%N]).
Proof.
  apply (proj1 (spawn_item_bounded crowded_field [7%N; 8%N])). cbn. lia.
Defined.

(** X10. An item picked up by [check_pickup] was lying on the field and has
    a position: an item whose position is unset is never picked up, however
    near the agent stands.  The returned item is the field item itself, its
    position still set, and every other field item stays, in order. *)
Theorem check_pickup_takes_placed_item {libm : Flt.Libm}
    (pokemon : PokemonALOs) (d : float)
    (m : ItemManager) :
  match check_pickup pokemon d m with
  | (Some it, m') =>
      it ∈ items_on_field m /\
      is_Some (item_position it) /\
      items_on_field m' `sublist_of` items_on_field m /\
      field_size m' = field_size m /\
      spawn_probability m' = spawn_probability m /\
      max_items_on_field m' = max_items_on_field m
  | (None, m') => m' = m
  end /\
  (Forall (fun it => item_position it = None) (items_on_field m) ->
   check_pickup pokemon d m = (None, m)).
Proof.
  unfold check_pickup.
  pose proof (scan_pickup_spec (position pokemon) d (items_on_field m)) as H.
  destruct (scan_pickup (position pokemon) d (items_on_field m))
    as [[it |] rest].
  - destruct H as (before & after & Hm & -> & Hbefore & Hit). split.
    + split; [rewrite Hm; apply elem_of_app; right; constructor |].
      split.
      { unfold within_reach in Hit.
        destruct (item_position it); [eexists; reflexivity | discriminate]. }
      split; [| repeat split].
      cbn. rewrite Hm. apply sublist_app; [reflexivity |].
      apply sublist_cons. reflexivity.
    + intros Hnone. exfalso. rewrite Hm in Hnone.
      apply Forall_app in Hnone as [_ Hnone].
      apply Forall_cons in Hnone as [Hnone _].
      unfold within_reach in Hit. rewrite Hnone in Hit. discriminate.
  - destruct H as [-> _].
    assert (E : set_items_on_field (items_on_field m) m = m)
      by (destruct m; reflexivity).
    rewrite E. split; [reflexivity | intros _; reflexivity].
Qed.

(** ** Movement stays in the field *)

Lemma ltb_leb (x y : float) :
  PrimFloat.ltb x y = true -> PrimFloat.leb x y = true.
Proof.
  rewrite FloatAxioms.ltb_spec, FloatAxioms.leb_spec.
  unfold SpecFloat.SFltb, SpecFloat.SFleb.
  destruct (SpecFloat.SFcompare _ _) as [[] |]; congruence.
Qed.

Lemma clamp_in_bounds (v : float) :
  in_bounds (Flt.max_first 0 (Flt.min_first 10 v)).
Proof.
  unfold Flt.max_first, Flt.min_first, in_bounds.
  destruct (PrimFloat.ltb v 10) eqn:Hhi.
  - destruct (PrimFloat.ltb 0 v) eqn:Hlo.
    + split; apply ltb_leb; assumption.
    + split; reflexivity.
  - split; reflexivity.
Qed.

Lemma update_position_in_field (dx dy : float) (p : PokemonALOs) :
  in_field (position (update_position dx dy p)).
Proof.
  unfold update_position. destruct (position p) as [x y].
  split; apply clamp_in_bounds.
Qed.

Lemma update_position_only (dx dy : float) (p : PokemonALOs) :
  update_position dx dy p = set_position (position (update_position dx dy p)) p.
Proof. unfold update_position. destruct (position p). reflexivity. Qed.

Lemma set_position_same (p : PokemonALOs) : p = set_position (position p) p.
Proof. destruct p; reflexivity. Qed.

Lemma move_towards_in_field {libm : Flt.Libm} (target : Flt.pos) (speed : float)
    (p : PokemonALOs) :
  in_field (position p) -> in_field (position (move_towards target speed p)).
Proof.
  intros Hp. unfold move_towards.
  destruct (position p) as [x y] eqn:Hpos, target as [tx ty].
  destruct (PrimFloat.ltb 0 _);
    [apply update_position_in_field | rewrite Hpos; exact Hp].
Qed.

Lemma move_away_in_field {libm : Flt.Libm} (target : Flt.pos) (speed : float)
    (p : PokemonALOs) :
  in_field (position p) -> in_field (position (move_away target speed p)).
Proof.
  intros Hp. unfold move_away.
  destruct (position p) as [x y] eqn:Hpos, target as [tx ty].
  destruct (PrimFloat.ltb 0 _);
    [apply update_position_in_field | rewrite Hpos; exact Hp].
Qed.

Lemma move_towards_only {libm : Flt.Libm}
    (target : Flt.pos) (speed : float) (p : PokemonALOs) :
  move_towards target speed p
  = set_position (position (move_towards target speed p)) p.
Proof.
  unfold move_towards. destruct (position p) as [x y], target as [tx ty].
  destruct (PrimFloat.ltb 0 _);
    [apply update_position_only | apply set_position_same].
Qed.

Lemma move_away_only {libm : Flt.Libm}
    (target : Flt.pos) (speed : float) (p : PokemonALOs) :
  move_away target speed p
  = set_position (position (move_away target speed p)) p.
Proof.
  unfold move_away. destruct (position p) as [x y], target as [tx ty].
  destruct (PrimFloat.ltb 0 _);
    [apply update_position_only | apply set_position_same].
Qed.

(** X11. [update_position] always leaves the agent inside the field
    [[0, 10] x [0, 10]], whatever the displacement and wherever the agent
    was (an undefined sum ends on the upper bound); so do [move_towards]
    and [move_away] for an agent that was inside, whatever the target and
    the speed.  None of them changes anything but the position. *)
Theorem movement_stays_in_field {libm : Flt.Libm}
    (p : PokemonALOs) (dx dy speed : float)
    (target : Flt.pos) :
  in_field (position (update_position dx dy p)) /\
  (in_field (position p) ->
   in_field (position (move_towards target speed p)) /\
   in_field (position (move_away target speed p))) /\
  update_position dx dy p = set_position (position (update_position dx dy p)) p /\
  move_towards target speed p
    = set_position (position (move_towards target speed p)) p /\
  move_away target speed p = set_position (position (move_away target speed p)) p.
Proof.
  split; [apply update_position_in_field |].
  split; [intros Hp; split;
          [apply move_towards_in_field | apply move_away_in_field]; exact Hp |].
  split; [apply update_position_only |].
  split; [apply move_towards_only | apply move_away_only].
Qed.

(** * Further properties of the resolvers *)

(** X12. Battle resolution, whatever the narrator does.  When the context
    query raises, the battle raises with it and the store is untouched.
    Otherwise it returns the "Battle" event and each fighter has taken the
    other's damage: two rolls in [10, 25] when the narrator answered (the
    first agent takes the second roll, the second agent the first), 15
    each when it failed; each one's relationship toward the other has
    dropped by 5, and no other agent has changed. *)
Theorem battle_outcome (w : World) (i j : nat) :
  let ps := pokemons (engine w) in
  let p1 := ps !!! i in
  let p2 := ps !!! j in
  (i < length ps)%nat ->
  (j < length ps)%nat ->
  i <> j ->
  match query_context (rag_system (engine w))
          (name p1 +:+ "と" +:+ name p2 +:+ "のバトル") 3 with
  | Raised e => _simulate_battle i j w = (Raised e, w)
  | Returned ctx =>
      exists d1 d2 w',
        10 <= d1 <= 25 /\
        10 <= d2 <= 25 /\
        _simulate_battle i j w
        = (Returned ("Battle: " +:+ name p1 +:+ " vs " +:+ name p2), w') /\
        pokemons (engine w') !!! i
        = update_relationship (key p2) (-5) (take_damage d2 p1) /\
        pokemons (engine w') !!! j
        = update_relationship (key p1) (-5) (take_damage d1 p2) /\
        (forall k, k <> i -> k <> j ->
                   pokemons (engine w') !! k = pokemons (engine w) !! k) /\
        match simulate_interaction (alos_system (engine w))
                [to_dict p1; to_dict p2]
                (name p1 +:+ "と" +:+ name p2 +:+ "が戦っている") ctx with
        | Returned _ =>
            d1 = fst (Random.randint 10 25 (random_state w)) /\
            d2 = fst (Random.randint 10 25
                        (snd (Random.randint 10 25 (random_state w))))
        | Raised _ =>
            d1 = 15 /\ d2 = 15 /\ random_state w' = random_state w
        end
  end.
Proof.
  intros ps p1 p2 Hi Hj Hij.
  unfold _simulate_battle. run. fold ps; fold p1; fold p2.
  destruct (query_context _ _ 3) as [ctx | e]; [| reflexivity].
  destruct (simulate_interaction _ _ _ ctx) as [text | err].
  - pose proof (randint_range 10 25 (random_state w) ltac:(lia)) as H1.
    destruct (Random.randint 10 25 (random_state w)) as [d1 s1].
    pose proof (randint_range 10 25 s1 ltac:(lia)) as H2.
    cbn [fst snd random_state engine] in *.
    destruct (Random.randint 10 25 s1) as [d2 s2].
    cbn [fst snd random_state engine] in *.
    exists d1, d2. eexists.
    split; [exact H1 |]. split; [exact H2 |]. split; [reflexivity |].
    cbn [engine pokemons set_pokemons set_event_log]. fold ps.
    agent_lookup. fold p1; fold p2.
    repeat split.
    intros k Hki Hkj. rewrite !list_lookup_alter_ne by congruence. reflexivity.
  - exists 15, 15. eexists.
    split; [lia |]. split; [lia |]. split; [reflexivity |].
    cbn [engine pokemons set_pokemons set_event_log random_state]. fold ps.
    agent_lookup. fold p1; fold p2.
    repeat split.
    intros k Hki Hkj. rewrite !list_lookup_alter_ne by congruence. reflexivity.
Qed.

Lemma battle_outcome_witness :
  exists d1 d2 w',
    10 <= d1 <= 25 /\
    10 <= d2 <= 25 /\
    _simulate_battle 0 1 calm_world
    = (Returned "Battle: pikachu vs meowth", w') /\
    pokemons (engine w') !!! 0%nat
    = update_relationship "meowth" (-5)
        (take_damage d2 (sample_agent "pikachu" 5 5)) /\
    pokemons (engine w') !!! 1%nat
    = update_relationship "pikachu" (-5)
        (take_damage d1 (sample_agent "meowth" 5 5.5)) /\
    (forall k, k <> 0%nat -> k <> 1%nat ->
               pokemons (engine w') !! k = calm_pair !! k) /\
    d1 = 10 /\ d2 = 10.
Proof.
  exact (battle_outcome calm_world 0 1
           ltac:(cbn; lia) ltac:(cbn; lia) ltac:(discriminate)).
Defined.

(** X13. Friendship resolution when the narrator fails (the context query
    having returned): each agent's relationship toward the other still
    grows by 10, clamped, and one generic line is logged, but nobody is
    healed and no mood changes: apart from the relationship entry each
    agent is as it was.  The random generator is not used. *)
Theorem friendship_fallback (w : World) (i j : nat) (ctx : list string)
    (err : string) :
  let ps := pokemons (engine w) in
  let p1 := ps !!! i in
  let p2 := ps !!! j in
  let line :=
    "💚 " +:+ name p1 +:+ "と" +:+ name p2 +:+ "が交流した" in
  (i < length ps)%nat ->
  (j < length ps)%nat ->
  i <> j ->
  query_context (rag_system (engine w))
    (name p1 +:+ "と" +:+ name p2 +:+ "の友情") 3 = Returned ctx ->
  simulate_interaction (alos_system (engine w)) [to_dict p1; to_dict p2]
    (name p1 +:+ "と" +:+ name p2 +:+ "が友好的に交流している") ctx
    = Raised err ->
  exists w',
    _simulate_friendship i j w
    = (Returned ("Friendship: " +:+ name p1 +:+ " & " +:+ name p2), w') /\
    pokemons (engine w') !!! i = update_relationship (key p2) 10 p1 /\
    pokemons (engine w') !!! j = update_relationship (key p1) 10 p2 /\
    hp (pokemons (engine w') !!! i) = hp p1 /\
    hp (pokemons (engine w') !!! j) = hp p2 /\
    mood (pokemons (engine w') !!! i) = mood p1 /\
    mood (pokemons (engine w') !!! j) = mood p2 /\
    (forall k, k <> i -> k <> j ->
               pokemons (engine w') !! k = pokemons (engine w) !! k) /\
    event_log (engine w') = event_log (engine (snd (log_event line w))) /\
    random_state w' = random_state w.
Proof.
  intros ps p1 p2 line Hi Hj Hij Hctx Herr.
  unfold _simulate_friendship. run.
  fold ps; fold p1; fold p2. rewrite Hctx, Herr.
  eexists; split; [reflexivity |].
  cbn [engine pokemons set_pokemons set_event_log event_log random_state].
  fold ps. agent_lookup. fold p1; fold p2.
  repeat split.
  intros k Hki Hkj. rewrite !list_lookup_alter_ne by congruence. reflexivity.
Qed.

Lemma friendship_fallback_witness :
  exists w',
    _simulate_friendship 0 1 silent_world
    = (Returned "Friendship: pikachu & meowth", w') /\
    pokemons (engine w') !!! 0%nat
    = update_relationship "meowth" 10 (sample_agent "pikachu" 5 5) /\
    pokemons (engine w') !!! 1%nat
    = update_relationship "pikachu" 10 (sample_agent "meowth" 5 5.5) /\
    hp (pokemons (engine w') !!! 0%nat) = 100 /\
    hp (pokemons (engine w') !!! 1%nat) = 100 /\
    mood (pokemons (engine w') !!! 0%nat) = normal /\
    mood (pokemons (engine w') !!! 1%nat) = normal /\
    (forall k, k <> 0%nat -> k <> 1%nat ->
               pokemons (engine w') !! k = calm_pair !! k) /\
    event_log (engine w') = ["[Step 0] 💚 pikachuとmeowthが交流した"] /\
    random_state w' = [].
Proof.
  exact (friendship_fallback silent_world 0 1 [] "APIConnectionError"
           ltac:(cbn; lia) ltac:(cbn; lia) ltac:(discriminate)
           eq_refl eq_refl).
Defined.

(** X14. The awareness rule always returns, logs nothing and draws no
    random number; it changes nothing but the position of the first agent
    of the pair, which stays in the field if it was in it.  When the first
    agent's relationship toward the second is within [-30, 50] and it is
    not tired, nothing changes at all. *)
Theorem awareness_moves_first_agent_only {libm : Flt.Libm}
    (w : World) (i j : nat) :
  let ps := pokemons (engine w) in
  let p1 := ps !!! i in
  let p2 := ps !!! j in
  exists v,
    _handle_awareness i j w
    = (Returned tt,
       mkWorld (set_pokemons (alter (set_position v) i ps) (engine w))
               (random_state w)) /\
    (in_field (position p1) -> in_field v) /\
    (-30 <= get_relationship (key p2) p1 <= 50 ->
     mood p1 <> tired ->
     v = position p1 /\ _handle_awareness i j w = (Returned tt, w)).
Proof.
  intros ps p1 p2.
  assert (Hsame : forall v (f : PokemonALOs -> PokemonALOs),
             (forall p, f p = set_position (position (f p)) p) ->
             v = position (f p1) ->
             alter f i ps = alter (set_position v) i ps).
  { intros v f Hf ->. apply list_eq. intros k.
    rewrite !list_lookup_alter.
    destruct (decide (i = k)) as [<- |]; [| reflexivity].
    destruct (ps !! i) as [q |] eqn:Hq; [| reflexivity].
    cbn. f_equal. subst p1. rewrite (list_lookup_total_correct _ _ _ Hq).
    apply Hf. }
  assert (Hstay : alter (set_position (position p1)) i ps = ps).
  { apply list_eq. intros k. rewrite list_lookup_alter.
    destruct (decide (i = k)) as [<- |]; [| reflexivity].
    destruct (ps !! i) as [q |] eqn:Hq; [| reflexivity].
    cbn. f_equal. subst p1. rewrite (list_lookup_total_correct _ _ _ Hq).
    symmetry. apply set_position_same. }
  assert (Hw : mkWorld (set_pokemons ps (engine w)) (random_state w) = w).
  { subst ps. destruct w as [[] ?]. reflexivity. }
  unfold _handle_awareness. run. fold ps; fold p1; fold p2.
  destruct (Z.ltb_spec (get_relationship (key p2) p1) (-30)) as [Hlow | Hlow].
  { exists (position (move_towards (position p2) 0.2 p1)). run.
    split; [| split; [apply move_towards_in_field | intros; lia]].
    fold ps. erewrite Hsame; [reflexivity | apply move_towards_only | reflexivity]. }
  destruct (Z.ltb_spec 50 (get_relationship (key p2) p1)) as [Hhigh | Hhigh].
  { exists (position (move_towards (position p2) 0.15 p1)). run.
    split; [| split; [apply move_towards_in_field | intros; lia]].
    fold ps. erewrite Hsame; [reflexivity | apply move_towards_only | reflexivity]. }
  destruct (decide (mood p1 = tired)) as [Htired | Hfresh].
  { exists (position (move_away (position p2) 0.1 p1)). run.
    split; [| split; [apply move_away_in_field | intros; contradiction]].
    fold ps. erewrite Hsame; [reflexivity | apply move_away_only | reflexivity]. }
  exists (position p1). rewrite Hstay, Hw.
  split; [reflexivity |]. split; [auto |]. intros _ _. split; reflexivity.
Qed.

(** * What a tick never breaks *)

(** ** Agents *)

Lemma persists_refl (p : PokemonALOs) : persists p p.
Proof.
  unfold persists, same_identity.
  split; [repeat split |]. split; [reflexivity |].
  do 4 (split; [exact (fun H => H) |]). exact (fun H => H).
Qed.

Lemma persists_trans (p q r : PokemonALOs) :
  persists p q -> persists q r -> persists p r.
Proof.
  unfold persists, same_identity.
  intros (Hi1 & Ha1 & H1) (Hi2 & Ha2 & H2).
  split; [intuition congruence |].
  split; [etrans; eassumption |].
  intuition auto.
Qed.

(** An operation that keeps identity, abilities, position, relationships
    and inventory (it touches vitals and mood only). *)
Lemma persists_core (p q : PokemonALOs) :
  same_identity p q ->
  current_abilities q = current_abilities p ->
  position q = position p ->
  relationships q = relationships p ->
  inventory q = inventory p ->
  persists p q.
Proof.
  intros Hid Ha Hp Hr Hi.
  unfold persists, relationships_bounded, within_capacity.
  rewrite Ha, Hp, Hr, Hi.
  split; [exact Hid |]. split; [reflexivity |].
  destruct Hid as (_ & _ & _ & _ & _ & _ & ->).
  do 4 (split; [exact (fun H => H) |]). exact (fun H => H).
Qed.

Ltac break_ifs :=
  repeat (match goal with
          | |- context [if ?b then _ else _] => destruct b
          end).

Lemma persists_take_damage (d : Z) (p : PokemonALOs) :
  persists p (take_damage d p).
Proof.
  apply persists_core; unfold take_damage, same_identity;
    cbn [hp set_hp set_energy]; break_ifs; repeat split.
Qed.

Lemma persists_heal (a : Z) (p : PokemonALOs) : persists p (heal a p).
Proof.
  apply persists_core; unfold heal, same_identity; cbn [hp set_hp];
    break_ifs; repeat split.
Qed.

Lemma persists_rest (p : PokemonALOs) : persists p (rest p).
Proof.
  apply persists_core; unfold rest, same_identity;
    cbn [hp energy set_hp set_energy]; break_ifs; repeat split.
Qed.

Lemma persists_set_mood (m : Mood) (p : PokemonALOs) :
  persists p (set_mood m p).
Proof. apply persists_core; unfold same_identity; repeat split. Qed.

Lemma persists_set_energy (v : Z) (p : PokemonALOs) :
  persists p (set_energy v p).
Proof. apply persists_core; unfold same_identity; repeat split. Qed.

Lemma persists_moved (p q : PokemonALOs) :
  q = set_position (position q) p ->
  (in_field (position p) -> in_field (position q)) ->
  persists p q.
Proof.
  intros Hq Hin. rewrite Hq.
  unfold persists, same_identity, relationships_bounded, within_capacity.
  cbn [key name owner species type_ personality max_inventory
       current_abilities relationships inventory position set_position].
  split; [repeat split |]. split; [reflexivity |].
  split; [exact Hin |].
  do 3 (split; [exact (fun H => H) |]). exact (fun H => H).
Qed.

Lemma persists_update_position (dx dy : float) (p : PokemonALOs) :
  persists p (update_position dx dy p).
Proof.
  apply persists_moved; [apply update_position_only |].
  intros _. apply update_position_in_field.
Qed.

Lemma persists_move_towards {libm : Flt.Libm}
    (t : Flt.pos) (speed : float) (p : PokemonALOs) :
  persists p (move_towards t speed p).
Proof.
  apply persists_moved; [apply move_towards_only | apply move_towards_in_field].
Qed.

Lemma persists_move_away {libm : Flt.Libm}
    (t : Flt.pos) (speed : float) (p : PokemonALOs) :
  persists p (move_away t speed p).
Proof.
  apply persists_moved; [apply move_away_only | apply move_away_in_field].
Qed.

Lemma persists_update_relationship (k : string) (c : Z) (p : PokemonALOs) :
  persists p (update_relationship k c p).
Proof.
  unfold persists, same_identity, relationships_bounded, within_capacity,
    update_relationship.
  cbn [key name owner species type_ personality max_inventory
       current_abilities relationships inventory position set_relationships].
  split; [repeat split |]. split; [reflexivity |].
  do 3 (split; [exact (fun H => H) |]).
  split; [| exact (fun H => H)].
  intros Hb. apply map_Forall_insert_2; [lia | exact Hb].
Qed.

Lemma persists_add_item (it : Item) (p : PokemonALOs) :
  persists p (snd (add_item it p)).
Proof.
  unfold add_item.
  destruct (Nat.ltb_spec (length (inventory p)) (max_inventory p));
    [| apply persists_refl].
  unfold persists, same_identity, relationships_bounded, within_capacity.
  cbn [snd key name owner species type_ personality max_inventory
       current_abilities relationships inventory position set_inventory].
  split; [repeat split |]. split; [reflexivity |].
  do 4 (split; [exact (fun H => H) |]).
  intros _. rewrite length_app. cbn. lia.
Qed.

Lemma persists_use (it : Item) (p : PokemonALOs) :
  persists p (snd (use it p)).
Proof.
  apply persists_core; unfold use, heal, same_identity; cbn [hp set_hp];
    break_ifs; repeat split.
Qed.

Lemma persists_drop_item (n : nat) (p : PokemonALOs) :
  persists p (set_inventory (delete n (inventory p)) p).
Proof.
  unfold persists, same_identity, relationships_bounded, within_capacity.
  cbn [key name owner species type_ personality max_inventory
       current_abilities relationships inventory position set_inventory].
  split; [repeat split |]. split; [reflexivity |].
  do 4 (split; [exact (fun H => H) |]).
  intros Hc. pose proof (sublist_length _ _ (sublist_delete (inventory p) n)). lia.
Qed.

Lemma persists_use_item (idx : Z) (p : PokemonALOs) :
  persists p (snd (use_item idx p)).
Proof.
  unfold use_item.
  destruct (_ && _); [| apply persists_refl].
  destruct (inventory p !! Z.to_nat idx) as [it |]; [| apply persists_refl].
  pose proof (persists_use it
                (set_inventory (delete (Z.to_nat idx) (inventory p)) p)) as H.
  destruct (use it _) as [msg q]. cbn [snd] in *.
  eapply persists_trans; [apply persists_drop_item | exact H].
Qed.

Lemma persists_auto_use_item (p : PokemonALOs) :
  persists p (snd (auto_use_item p)).
Proof.
  unfold auto_use_item.
  repeat (match goal with
          | |- context [match ?x with Some _ => _ | None => _ end] =>
              destruct x
          end);
    first [apply persists_use_item | apply persists_refl].
Qed.

Lemma knows_false (m : string) (p : PokemonALOs) :
  knows m p = false -> m ∉ current_abilities p.
Proof.
  unfold knows. intros Hk Hin.
  apply list_elem_of_In in Hin.
  assert (existsb (String.eqb m) (current_abilities p) = true); [| congruence].
  apply existsb_exists. exists m. split; [exact Hin | apply String.eqb_refl].
Qed.

(** [learn_move] by an agent that knows fewer than six moves. *)
Lemma persists_learn_move (m : string) (p : PokemonALOs) :
  (length (current_abilities p) < 6)%nat -> persists p (learn_move m p).
Proof.
  intros Hlen. unfold learn_move.
  destruct (knows m p) eqn:Hk; [apply persists_refl |].
  unfold persists, same_identity, relationships_bounded, within_capacity.
  cbn [key name owner species type_ personality max_inventory
       current_abilities relationships inventory position set_mood
       set_current_abilities].
  split; [repeat split |].
  split; [apply prefix_app_r; reflexivity |].
  split; [exact (fun H => H) |].
  split; [intros _; rewrite length_app; cbn; lia |].
  split; [| split; exact (fun H => H)].
  intros Hnd. apply NoDup_app. split; [exact Hnd |].
  split; [| apply NoDup_singleton].
  intros x Hx Hx'. apply list_elem_of_singleton in Hx'. subst x.
  exact (knows_false m p Hk Hx).
Qed.

(** ** The engine *)

Lemma spec_leaves {A : Type} (Inv : World -> Prop) (m : M A) (w : World) :
  spec Inv Inv m anything -> Inv w -> Inv (snd (m w)).
Proof.
  intros Hm Hw. specialize (Hm w Hw).
  destruct (m w) as [[a | e] w']; cbn [snd]; [apply Hm | exact Hm].
Qed.

Create HintDb tick.

Section Ticking.

Context {libm : Flt.Libm}.

Variable e0 : SimulationEngine.
Variable c : Z.

Local Abbreviation T := (fun w => tick_rel e0 c (engine w)).

Lemma tick_rel_alter (e : SimulationEngine) (i : nat)
    (f : PokemonALOs -> PokemonALOs) :
  tick_rel e0 c e ->
  persists (pokemons e !!! i) (f (pokemons e !!! i)) ->
  tick_rel e0 c (set_pokemons (alter f i (pokemons e)) e).
Proof.
  intros (Ha & Hs & Hc & Hl & Hf) Hp.
  split; [| split; [exact Hs | split; [exact Hc | split; assumption]]].
  cbn. apply Forall2_alter_r; [exact Ha |].
  intros x y Hx Hy Hxy. rewrite (list_lookup_total_correct _ _ _ Hy) in Hp.
  eapply persists_trans; eassumption.
Qed.

Lemma tick_update (i : nat) (f : PokemonALOs -> PokemonALOs) :
  (forall p, persists p (f p)) -> spec T T (update i f) anything.
Proof.
  intros Hf. apply spec_modify. intros w Hw. cbn [engine].
  apply tick_rel_alter; [exact Hw | apply Hf].
Qed.

Lemma tick_method {A : Type} (i : nat) (f : PokemonALOs -> A * PokemonALOs) :
  (forall p, persists p (snd (f p))) -> spec T T (method i f) anything.
Proof.
  intros Hf w Hw. unfold method, bind, pokemon, gets, update, modify, ret.
  cbn [engine random_state]. split; [| exact I].
  apply (tick_rel_alter (engine w) i
           (fun _ => snd (f (pokemons (engine w) !!! i)))); [exact Hw |].
  apply Hf.
Qed.

Lemma tick_gets {A : Type} (f : SimulationEngine -> A) :
  spec T T (gets f) anything.
Proof. apply spec_gets. intros; exact I. Qed.

Lemma tick_rand {A : Type} (f : Random.state -> A * Random.state) :
  spec T T (rand f) anything.
Proof. apply spec_rand; [intros w s Hw; exact Hw | intros; exact I]. Qed.

Lemma tick_log_event (event : string) : spec T T (log_event event) anything.
Proof.
  apply spec_modify. intros w (Ha & Hs & Hc & Hl & Hf).
  split; [exact Ha |]. split; [exact Hs |]. split; [exact Hc |].
  split; [| exact Hf].
  intros Hinit. specialize (Hl Hinit). unfold log_bounded in *.
  cbn [engine event_log set_event_log].
  exact (proj2 (proj2 (proj2 (capped_append 200 (event_log (engine w)) _
                                ltac:(lia)))) Hl).
Qed.

Lemma tick_spawn : spec T T spawn anything.
Proof.
  intros w (Ha & Hs & Hc & Hl & Hf). unfold spawn.
  destruct (spawn_item (item_manager (engine w)) (random_state w))
    as [[o m] s] eqn:Hsp.
  split; [| exact I].
  assert (Hm : field_size m = field_size (item_manager (engine w)) /\
               spawn_probability m = spawn_probability (item_manager (engine w)) /\
               max_items_on_field m = max_items_on_field (item_manager (engine w)) /\
               ((length (items_on_field (item_manager (engine w)))
                 <= max_items_on_field (item_manager (engine w)))%nat ->
                (length (items_on_field m) <= max_items_on_field m)%nat)).
  { revert Hsp. unfold spawn_item.
    destruct (Nat.leb_spec (max_items_on_field (item_manager (engine w)))
                (length (items_on_field (item_manager (engine w)))));
      [intros [= <- <- <-]; auto |].
    destruct (Random.random _) as [u s1].
    destruct (PrimFloat.ltb u _); [| intros [= <- <- <-]; auto].
    destruct (create_random_berry s1) as [it s2].
    destruct (Random.uniform _ _ s2) as [x s3].
    destruct (Random.uniform _ _ s3) as [y s4].
    intros [= <- <- <-]. cbn. repeat split.
    intros _. rewrite length_app. cbn. lia. }
  destruct Hm as (Hfs & Hsp' & Hmax & Hlen).
  destruct Hs as (? & ? & ? & ? & ? & ? & Hs1 & Hs2 & Hs3).
  split; [exact Ha |]. split.
  { unfold same_setup. cbn [engine item_manager set_item_manager alos_system
      rag_system battle_probability friendship_probability learn_probability
      random_event_probability].
    repeat split; congruence. }
  split; [exact Hc |]. split; [exact Hl |].
  intros Hinit. unfold field_bounded in *. cbn. apply Hlen, Hf, Hinit.
Qed.

Lemma tick_pickup (p : PokemonALOs) (d : float) :
  spec T T (pickup p d) anything.
Proof.
  intros w (Ha & Hs & Hc & Hl & Hf). unfold pickup, check_pickup.
  pose proof (scan_pickup_spec (position p) d
                (items_on_field (item_manager (engine w)))) as H.
  destruct (scan_pickup (position p) d
              (items_on_field (item_manager (engine w)))) as [o rest].
  split; [| exact I].
  assert (Hlen : (length rest
                  <= length (items_on_field (item_manager (engine w))))%nat).
  { destruct o as [it |].
    - destruct H as (before & after & -> & -> & _).
      rewrite !length_app. cbn. lia.
    - destruct H as [-> _]. lia. }
  destruct Hs as (? & ? & ? & ? & ? & ? & Hs1 & Hs2 & Hs3).
  split; [exact Ha |]. split.
  { unfold same_setup. cbn. repeat split; assumption. }
  split; [exact Hc |]. split; [exact Hl |].
  intros Hinit. specialize (Hf Hinit). unfold field_bounded in *. cbn in *. lia.
Qed.

(** Practice teaches a move only to an agent that knows fewer than six. *)
Lemma tick_practice (i : nat) : spec T T (_practice_move i) anything.
Proof.
  intros w Hw. unfold _practice_move, bind, pokemon, gets. cbn [engine].
  set (p := pokemons (engine w) !!! i).
  destruct (Nat.leb_spec 6 (length (current_abilities p))) as [Hcap | Hroom];
    [split; [exact Hw | exact I] |].
  destruct (filter _ (potential_moves (key p))) as [| m0 ms];
    [split; [exact Hw | exact I] |].
  unfold rand. destruct (Random.random (random_state w)) as [u s1].
  cbn [engine random_state].
  destruct (PrimFloat.ltb u 0.3); [| split; [exact Hw | exact I]].
  match goal with
  | |- context [@Random.choice ?A ?H ?l ?s] =>
      destruct (@Random.choice A H l s) as [m s2]
  end.
  cbn [engine random_state].
  unfold update, modify. cbn [engine random_state].
  refine (tick_log_event _ _ _). cbn [engine].
  apply tick_rel_alter; [exact Hw |].
  apply persists_learn_move. exact Hroom.
Qed.

Local Hint Resolve tick_practice : tick.

Ltac tick_leaf :=
  first
    [ apply tick_gets
    | apply tick_log_event
    | apply tick_rand
    | apply tick_spawn
    | apply tick_pickup
    | apply spec_call_caught
    | apply tick_update; intros;
      first [ apply persists_take_damage | apply persists_heal
            | apply persists_rest | apply persists_set_mood
            | apply persists_update_relationship
            | apply persists_update_position
            | apply persists_move_towards | apply persists_move_away ]
    | apply tick_method; intros;
      first [ apply persists_add_item | apply persists_use
            | apply persists_auto_use_item ]
    | solve [eauto with tick] ].

Ltac tick_walk := walk ltac:(idtac; tick_leaf).

Lemma tick_battle (i j : nat) : spec T T (_simulate_battle i j) anything.
Proof. unfold _simulate_battle, pokemon. tick_walk. Qed.

Lemma tick_friendship (i j : nat) :
  spec T T (_simulate_friendship i j) anything.
Proof. unfold _simulate_friendship, pokemon. tick_walk. Qed.

Local Hint Resolve tick_battle tick_friendship : tick.

Lemma tick_interaction (i j : nat) :
  spec T T (_handle_interaction i j) anything.
Proof. unfold _handle_interaction, pokemon. tick_walk. Qed.

Lemma tick_awareness (i j : nat) : spec T T (_handle_awareness i j) anything.
Proof. unfold _handle_awareness, pokemon. tick_walk. Qed.

Local Hint Resolve tick_interaction tick_awareness : tick.

Lemma tick_visit_pair (i j : nat) (evs : list string) :
  spec T T (visit_pair i j evs) anything.
Proof. unfold visit_pair, dispatch_pair, pokemon. tick_walk. Qed.

Lemma tick_random_walk (speed : float) (i : nat) :
  spec T T (random_walk speed i) anything.
Proof. unfold random_walk. tick_walk. Qed.

Local Hint Resolve tick_random_walk : tick.

Lemma tick_individual_action (i : nat) :
  spec T T (_handle_individual_action i) anything.
Proof. unfold _handle_individual_action, pokemon. tick_walk. Qed.

Local Hint Resolve tick_individual_action : tick.

Lemma tick_individual_turn (i : nat) (u : unit) :
  spec T T (individual_turn i u) anything.
Proof. unfold individual_turn, pokemon. tick_walk. Qed.

Lemma tick_random_event : spec T T _trigger_random_event anything.
Proof. unfold _trigger_random_event, pokemon. tick_walk. Qed.

Local Hint Resolve tick_visit_pair tick_individual_turn tick_random_event
  : tick.

(** Everything [step] does after it has advanced the tick counter. *)
Lemma tick_after_count (m : M unit) :
  spec T T m anything ->
  spec T T
    (bind m (fun _ =>
     let* new_item := spawn in
     (match new_item with
      | Some it => log_event ("🍓 " +:+ item_name it +:+ "が出現した！")
      | None => ret tt
      end) >>
     let* n := gets (fun e => length (pokemons e)) in
     let* step_events := for_pairs n visit_pair [] in
     for_each (seq 0 n) individual_turn tt >>
     let* r := rand Random.random in
     let* event_p := gets random_event_probability in
     let* step_events :=
       (if PrimFloat.ltb r event_p
        then let* event := _trigger_random_event in
             ret (append_event event step_events)
        else ret step_events) in
     gets (fun e =>
             mkStepResult (step_count e) step_events
                          (map (fun p => (key p, to_dict p)) (pokemons e)))))
    anything.
Proof.
  intros Hm. apply spec_seq; [exact Hm | intros _].
  eapply spec_bind; [apply tick_spawn | intros new_item _].
  apply spec_seq.
  { destruct new_item; [apply tick_log_event | apply spec_ret; exact I]. }
  intros _.
  eapply spec_bind; [apply tick_gets | intros n _].
  eapply spec_bind.
  { unfold for_pairs. apply spec_for_each. intros i acc.
    apply spec_for_each. intros j acc'. apply tick_visit_pair. }
  intros step_events _.
  apply spec_seq.
  { apply spec_for_each. intros i acc. apply tick_individual_turn. }
  intros _. tick_walk.
Qed.

End Ticking.

Lemma persists_all_refl (l : list PokemonALOs) : Forall2 persists l l.
Proof. induction l; constructor; auto using persists_refl. Qed.

Lemma persists_all_trans (l1 l2 l3 : list PokemonALOs) :
  Forall2 persists l1 l2 -> Forall2 persists l2 l3 -> Forall2 persists l1 l3.
Proof.
  intros H. revert l3. induction H as [| x y l1 l2 Hxy _ IH]; intros l3 H3.
  - inversion H3. constructor.
  - inversion H3 as [| y' z l2' l3' Hyz H3']; subst.
    constructor; [eapply persists_trans; eassumption | apply IH, H3'].
Qed.

Lemma tick_rel_refl (e : SimulationEngine) : tick_rel e (step_count e) e.
Proof.
  split; [apply persists_all_refl |].
  unfold same_setup. repeat split; auto.
Qed.

Lemma tick_rel_trans (e0 e1 e2 : SimulationEngine) (c1 c2 : Z) :
  tick_rel e0 c1 e1 -> tick_rel e1 c2 e2 -> tick_rel e0 c2 e2.
Proof.
  intros (Ha1 & Hs1 & _ & Hl1 & Hf1) (Ha2 & Hs2 & Hc2 & Hl2 & Hf2).
  split; [eapply persists_all_trans; eassumption |].
  split; [unfold same_setup in *; intuition congruence |].
  split; [exact Hc2 |]. split; auto.
Qed.

(** One tick relates the engine it leaves to the engine it found, whether
    it returns or raises, and the counter has advanced by one. *)
Lemma step_tick_rel {libm : Flt.Libm} (w : World) :
  tick_rel (engine w) (step_count (engine w) + 1) (engine (snd (step w))).
Proof.
  set (w1 := mkWorld (set_step_count (step_count (engine w) + 1) (engine w))
                     (random_state w)).
  assert (H1 : tick_rel (engine w) (step_count (engine w) + 1) (engine w1)).
  { destruct (tick_rel_refl (engine w)) as (Ha & Hs & _ & Hl & Hf).
    split; [exact Ha |]. split; [exact Hs |]. split; [reflexivity |].
    split; assumption. }
  exact (spec_leaves _ _ w1
           (tick_after_count (engine w) (step_count (engine w) + 1) (ret tt)
              (spec_ret tt anything I))
           H1).
Qed.

Lemma ticks_tick_rel {libm : Flt.Libm} (n : nat) (w : World) :
  tick_rel (engine w) (step_count (engine w) + Z.of_nat n)
           (engine (ticks n w)).
Proof.
  revert w. induction n as [| n IH]; intros w; cbn [ticks].
  - rewrite Z.add_0_r. apply tick_rel_refl.
  - pose proof (step_tick_rel w) as H1.
    pose proof (IH (snd (step w))) as H2.
    destruct H1 as (Ha & Hs & Hc & Hrest). rewrite Hc in H2.
    replace (step_count (engine w) + Z.of_nat (S n))
      with (step_count (engine w) + 1 + Z.of_nat n) by lia.
    eapply tick_rel_trans; [| exact H2].
    split; [exact Ha |]. split; [exact Hs |]. split; [exact Hc | exact Hrest].
Qed.

(** ** Consequences for any number of ticks *)

Lemma persists_all_transfer (P : PokemonALOs -> Prop)
    (l0 l : list PokemonALOs) :
  (forall p0 p, persists p0 p -> P p0 -> P p) ->
  Forall2 persists l0 l -> Forall P l0 -> Forall P l.
Proof.
  intros HP H. induction H as [| x y l0 l Hxy _ IH]; intros H0.
  - constructor.
  - apply Forall_cons in H0 as [Hx H0].
    constructor; [eapply HP; eassumption | apply IH, H0].
Qed.

(** X15. Ticks never add, remove or reorder agents, and never change an
    agent's key, name, owner, species, type, personality or inventory
    capacity; an agent at hp 0 stays in the population.  Abilities are
    never forgotten: the abilities an agent had are a prefix of those it
    has later.  This holds whether the ticks return or raise. *)
Theorem agents_keep_their_identity {libm : Flt.Libm} (n : nat) (w : World) :
  let before := pokemons (engine w) in
  let after := pokemons (engine (ticks n w)) in
  length after = length before /\
  map key after = map key before /\
  Forall2 (fun p0 p =>
             same_identity p0 p /\
             current_abilities p0 `prefix_of` current_abilities p)
          before after.
Proof.
  cbn zeta. destruct (ticks_tick_rel n w) as (Ha & _).
  split; [symmetry; eapply Forall2_length, Ha |].
  split.
  - induction Ha as [| x y l0 l Hxy _ IH]; [reflexivity |].
    cbn. f_equal; [apply Hxy | exact IH].
  - eapply Forall2_impl; [exact Ha |]. intros x y Hxy.
    split; apply Hxy.
Qed.

(** X16. If every agent stands inside the field [[0, 10] x [0, 10]], every
    agent stands inside it after any number of ticks. *)
Theorem positions_stay_in_field {libm : Flt.Libm} (n : nat) (w : World) :
  Forall (fun p => in_field (position p)) (pokemons (engine w)) ->
  Forall (fun p => in_field (position p)) (pokemons (engine (ticks n w))).
Proof.
  intros H0. destruct (ticks_tick_rel n w) as (Ha & _).
  eapply persists_all_transfer; [| exact Ha | exact H0].
  intros p0 p Hp. unfold persists in Hp.
  destruct Hp as (_ & _ & Hin & _). exact Hin.
Qed.

Section With_ieee_pow.
#[local] Existing Instance ieee_pow.

Lemma positions_stay_in_field_witness :
  Forall (fun p => in_field (position p))
         (pokemons (engine (ticks 3 calm_world))).
Proof.
  apply (positions_stay_in_field 3 calm_world).
  repeat constructor.
Defined.

End With_ieee_pow.

(** X17. If every agent knows at most six moves, none listed twice, this
    still holds after any number of ticks: practice teaches a move only to
    an agent that knows fewer than six, and only a move it does not
    know. *)
Theorem abilities_stay_capped_and_distinct {libm : Flt.Libm}
    (n : nat) (w : World) :
  Forall (fun p => (length (current_abilities p) <= 6)%nat /\
                   NoDup (current_abilities p))
         (pokemons (engine w)) ->
  Forall (fun p => (length (current_abilities p) <= 6)%nat /\
                   NoDup (current_abilities p))
         (pokemons (engine (ticks n w))).
Proof.
  intros H0. destruct (ticks_tick_rel n w) as (Ha & _).
  eapply persists_all_transfer; [| exact Ha | exact H0].
  intros p0 p Hp [H1 H2]. unfold persists in Hp.
  destruct Hp as (_ & _ & _ & Hcap & Hnd & _). split; auto.
Qed.

Section With_ieee_pow.
#[local] Existing Instance ieee_pow.

Lemma abilities_stay_capped_and_distinct_witness :
  Forall (fun p => (length (current_abilities p) <= 6)%nat /\
                   NoDup (current_abilities p))
         (pokemons (engine (ticks 3 calm_world))).
Proof.
  apply (abilities_stay_capped_and_distinct 3 calm_world).
  repeat constructor; cbn; lia.
Defined.

End With_ieee_pow.

(** X18. If every relationship level stored by every agent lies in
    [-100, 100], this still holds after any number of ticks. *)
Theorem relationships_stay_bounded {libm : Flt.Libm} (n : nat) (w : World) :
  Forall relationships_bounded (pokemons (engine w)) ->
  Forall relationships_bounded (pokemons (engine (ticks n w))).
Proof.
  intros H0. destruct (ticks_tick_rel n w) as (Ha & _).
  eapply persists_all_transfer; [| exact Ha | exact H0].
  intros p0 p Hp. unfold persists in Hp.
  destruct Hp as (_ & _ & _ & _ & _ & Hb & _). exact Hb.
Qed.

Section With_ieee_pow.
#[local] Existing Instance ieee_pow.

Lemma relationships_stay_bounded_witness :
  Forall relationships_bounded (pokemons (engine (ticks 3 grudge_world))).
Proof.
  apply (relationships_stay_bounded 3 grudge_world).
  apply Forall_cons; split;
    [| apply Forall_cons; split; [| apply Forall_cons; split; [| constructor]]];
    unfold relationships_bounded; cbn [relationships set_relationships sample_agent].
  - apply map_Forall_insert_2; [lia | apply map_Forall_empty].
  - apply map_Forall_empty.
  - apply map_Forall_empty.
Defined.

End With_ieee_pow.

(** X19. If no agent holds more items than its capacity, none does after
    any number of ticks: an item picked up with a full inventory is used on
    the spot, not stored. *)
Theorem inventories_stay_within_capacity {libm : Flt.Libm}
    (n : nat) (w : World) :
  Forall within_capacity (pokemons (engine w)) ->
  Forall within_capacity (pokemons (engine (ticks n w))).
Proof.
  intros H0. destruct (ticks_tick_rel n w) as (Ha & _).
  eapply persists_all_transfer; [| exact Ha | exact H0].
  intros p0 p Hp. unfold persists in Hp.
  destruct Hp as (_ & _ & _ & _ & _ & _ & Hc). exact Hc.
Qed.

Section With_ieee_pow.
#[local] Existing Instance ieee_pow.

Lemma inventories_stay_within_capacity_witness :
  Forall within_capacity (pokemons (engine (ticks 3 calm_world))).
Proof.
  apply (inventories_stay_within_capacity 3 calm_world).
  repeat constructor; unfold within_capacity; cbn; lia.
Defined.

End With_ieee_pow.

(** X20. An event log of at most 200 entries has at most 200 entries after
    any number of ticks, however many events they log. *)
Theorem event_log_stays_bounded {libm : Flt.Libm} (n : nat) (w : World) :
  (length (event_log (engine w)) <= 200)%nat ->
  (length (event_log (engine (ticks n w))) <= 200)%nat.
Proof.
  destruct (ticks_tick_rel n w) as (_ & _ & _ & Hl & _). exact Hl.
Qed.

Section With_ieee_pow.
#[local] Existing Instance ieee_pow.

Lemma event_log_stays_bounded_witness :
  (length (event_log (engine (ticks 3 (mkWorld full_log_engine []))))
   <= 200)%nat.
Proof.
  apply (event_log_stays_bounded 3 (mkWorld full_log_engine [])).
  cbn. lia.
Defined.

End With_ieee_pow.

(** X21. A field holding no more items than [max_items_on_field] holds no
    more than that after any number of ticks. *)
Theorem field_items_stay_bounded {libm : Flt.Libm} (n : nat) (w : World) :
  (length (items_on_field (item_manager (engine w)))
   <= max_items_on_field (item_manager (engine w)))%nat ->
  (length (items_on_field (item_manager (engine (ticks n w))))
   <= max_items_on_field (item_manager (engine (ticks n w))))%nat.
Proof.
  destruct (ticks_tick_rel n w) as (_ & _ & _ & _ & Hf). exact Hf.
Qed.

Section With_ieee_pow.
#[local] Existing Instance ieee_pow.

Lemma field_items_stay_bounded_witness :
  (length (items_on_field (item_manager (engine (ticks 3 calm_world))))
   <= max_items_on_field (item_manager (engine (ticks 3 calm_world))))%nat.
Proof.
  apply (field_items_stay_bounded 3 calm_world). cbn. lia.
Defined.

End With_ieee_pow.

(** X22. Ticks change neither the collaborators nor any tunable number of
    the engine or of its item manager (the four probabilities, the field
    size, the spawn probability, the item cap), and [n] ticks advance the
    tick counter by exactly [n], whether they return or raise. *)
Theorem ticks_keep_setup_and_count {libm : Flt.Libm} (n : nat) (w : World) :
  same_setup (engine w) (engine (ticks n w)) /\
  step_count (engine (ticks n w)) = step_count (engine w) + Z.of_nat n.
Proof.
  destruct (ticks_tick_rel n w) as (_ & Hs & Hc & _). split; assumption.
Qed.

(** * The snapshot, practice and the random world event *)

Lemma bind_returned {A B : Type} (m : M A) (k : A -> M B) (w : World)
    (b : B) (w' : World) :
  bind m k w = (Returned b, w') ->
  exists a w1, m w = (Returned a, w1) /\ k a w1 = (Returned b, w').
Proof.
  unfold bind. destruct (m w) as [[a | e] w1]; [| discriminate].
  intros H. exists a, w1. split; [reflexivity | exact H].
Qed.

(** X23. When [step] returns, the snapshot it returns describes the store
    it leaves: its step number is the engine's tick counter, one more than
    before the call, and its per-agent state lists every agent, in
    population order and under its key, with the view [to_dict] gives of
    the agent as the tick left it. *)
Theorem step_snapshot_is_final_state {libm : Flt.Libm}
    (w : World) (s : StepResult)
    (w' : World) :
  step w = (Returned s, w') ->
  r_step s = step_count (engine w') /\
  r_step s = step_count (engine w) + 1 /\
  r_pokemons_state s
    = map (fun p => (key p, to_dict p)) (pokemons (engine w')) /\
  map fst (r_pokemons_state s) = map key (pokemons (engine w)).
Proof.
  intros Hstep.
  pose proof (step_tick_rel w) as (Ha & _ & Hc & _).
  rewrite Hstep in Ha, Hc. cbn [snd] in Ha, Hc.
  assert (Hs : s = mkStepResult (step_count (engine w')) (r_events s)
                 (map (fun p => (key p, to_dict p)) (pokemons (engine w')))).
  { unfold step in Hstep.
    repeat (apply bind_returned in Hstep as (? & ? & _ & Hstep);
            cbv beta in Hstep).
    unfold gets in Hstep. injection Hstep as <- <-. reflexivity. }
  rewrite Hs. cbn [r_step r_pokemons_state].
  split; [reflexivity |]. split; [exact Hc |]. split; [reflexivity |].
  rewrite map_map. cbn [fst].
  clear -Ha. induction Ha as [| x y l0 l Hxy _ IH]; [reflexivity |].
  cbn. f_equal; [apply Hxy | exact IH].
Qed.

Section With_ieee_pow.
#[local] Existing Instance ieee_pow.

Lemma step_snapshot_is_final_state_witness :
  exists s w',
    step silent_world = (Returned s, w') /\
    r_step s = step_count (engine w') /\
    r_step s = 1 /\
    r_pokemons_state s
      = map (fun p => (key p, to_dict p)) (pokemons (engine w')) /\
    map fst (r_pokemons_state s) = ["pikachu"; "meowth"].
Proof.
  destruct (step silent_world) as [[s | e] w'] eqn:Hstep.
  - exists s, w'. split; [reflexivity |].
    exact (step_snapshot_is_final_state silent_world s w' Hstep).
  - exfalso. revert Hstep. vm_compute. discriminate.
Defined.

End With_ieee_pow.

(** X24. Practice always returns.  It leaves the store untouched, without
    a single random draw, when the agent already knows six moves or more,
    or when its species has no move left to learn (an unknown species has
    none).  Otherwise the agent's abilities are either unchanged or longer
    by one move, taken from its species' list and not known before. *)
Theorem practice_learns_one_new_move_at_most (w : World) (i : nat) :
  let p := pokemons (engine w) !!! i in
  let q := pokemons (engine (snd (_practice_move i w))) !!! i in
  fst (_practice_move i w) = Returned tt /\
  (((6 <= length (current_abilities p))%nat \/
    Forall (fun m => m ∈ current_abilities p) (potential_moves (key p))) ->
   _practice_move i w = (Returned tt, w)) /\
  (current_abilities q = current_abilities p \/
   exists m,
     m ∈ potential_moves (key p) /\
     (m ∉ current_abilities p) /\
     (length (current_abilities p) < 6)%nat /\
     current_abilities q = (current_abilities p ++ [m])%list).
Proof.
  cbn zeta. unfold _practice_move, bind, pokemon, gets. cbn [engine].
  set (p := pokemons (engine w) !!! i).
  destruct (Nat.leb_spec 6 (length (current_abilities p))) as [Hcap | Hroom].
  { cbn [fst snd]. repeat split; auto. }
  destruct (filter (fun m => negb (knows m p)) (potential_moves (key p)))
    as [| m0 ms] eqn:Hnew.
  { cbn [fst snd]. repeat split; auto. }
  assert (Hpool : forall m, m ∈ m0 :: ms ->
                            m ∈ potential_moves (key p) /\
                            m ∉ current_abilities p).
  { intros m Hm. rewrite <- Hnew in Hm.
    apply list_elem_of_filter in Hm as [Hk Hin].
    split; [exact Hin |].
    apply knows_false. apply negb_true_iff, Is_true_true, Hk. }
  assert (Hnone : ~ Forall (fun m => m ∈ current_abilities p)
                           (potential_moves (key p))).
  { intros Hall. destruct (Hpool m0 ltac:(constructor)) as [Hin Hnot].
    rewrite Forall_forall in Hall. exact (Hnot (Hall m0 Hin)). }
  unfold rand. destruct (Random.random (random_state w)) as [u s1].
  cbn [engine random_state].
  destruct (PrimFloat.ltb u 0.3).
  2:{ cbn [fst snd engine]. split; [reflexivity |].
      split; [intros [? | ?]; [lia | contradiction] | left; reflexivity]. }
  match goal with
  | |- context [@Random.choice ?A ?H ?l ?s] =>
      pose proof (@choice_elem_of A H l s ltac:(discriminate)) as Hm;
      destruct (@Random.choice A H l s) as [m s2]
  end.
  cbn [fst] in Hm. destruct (Hpool m Hm) as [Hin Hnot].
  unfold update, modify, log_event, modify. cbn [fst snd engine random_state
    pokemons set_pokemons set_event_log].
  split; [reflexivity |].
  split; [intros [? | ?]; [lia | contradiction] |].
  destruct (decide (i < length (pokemons (engine w)))%nat) as [Hi | Hi].
  - right. exists m. split; [exact Hin |]. split; [exact Hnot |].
    split; [exact Hroom |].
    rewrite list_lookup_total_alter_eq by exact Hi. fold p.
    unfold learn_move.
    destruct (knows m p) eqn:Hk; [| reflexivity].
    exfalso. apply Hnot. unfold knows in Hk.
    apply existsb_exists in Hk as (x & Hx & Hxm).
    apply String.eqb_eq in Hxm. subst x. apply list_elem_of_In, Hx.
  - left. rewrite list_lookup_total_alter.
    destruct (decide (i = i /\ (i < length (pokemons (engine w)))%nat))
      as [[_ ?] | _]; [contradiction | reflexivity].
Qed.

Lemma practice_learns_one_new_move_at_most_witness :
  _practice_move 0 veteran_world = (Returned tt, veteran_world).
Proof.
  apply (proj1 (proj2 (practice_learns_one_new_move_at_most veteran_world 0))).
  left. cbn. lia.
Defined.

(** X25. The random world event.  When the context source raises, the
    event raises with it in an untouched store; when it knows no scenario,
    nothing happens at all: no log line, no random draw, no event.
    Otherwise the event is logged and returned, and no agent is changed
    except for the position of at most one of them. *)
Theorem random_event_edge_cases {libm : Flt.Libm} (w : World) :
  match get_interaction_scenarios (rag_system (engine w)) with
  | Raised e => _trigger_random_event w = (Raised e, w)
  | Returned [] => _trigger_random_event w = (Returned None, w)
  | Returned (sc :: scs) =>
      exists scenario w',
        scenario ∈ sc :: scs /\
        _trigger_random_event w
        = (Returned (Some ("Random Event: " +:+ scenario)), w') /\
        last (event_log (engine w'))
        = Some (log_entry_of (engine w) ("🎲 ランダムイベント: " +:+ scenario)) /\
        exists a v,
          pokemons (engine w')
          = alter (set_position v) a (pokemons (engine w))
  end.
Proof.
  unfold _trigger_random_event, bind, call.
  destruct (get_interaction_scenarios (rag_system (engine w)))
    as [[| sc scs] | e]; try reflexivity.
  unfold rand at 1.
  match goal with
  | |- context [@Random.choice ?A ?H ?l ?s] =>
      pose proof (@choice_elem_of A H l s ltac:(discriminate)) as Hin;
      destruct (@Random.choice A H l s) as [scenario s1]
  end.
  cbn [fst] in Hin. exists scenario.
  unfold log_event, modify, gets, rand.
  cbn [engine random_state event_log set_event_log pokemons step_count].
  match goal with
  | |- context [Random.sample ?l ?k ?s] =>
      destruct (Random.sample l k s) as [selected s2]
  end.
  cbn [engine random_state].
  assert (Hlast : forall log,
             last (if (200 <? length (log ++ [log_entry_of (engine w)
                          ("🎲 ランダムイベント: " +:+ scenario)]))%nat
                   then drop 1 (log ++ [log_entry_of (engine w)
                          ("🎲 ランダムイベント: " +:+ scenario)])
                   else (log ++ [log_entry_of (engine w)
                          ("🎲 ランダムイベント: " +:+ scenario)])%list)
             = Some (log_entry_of (engine w)
                       ("🎲 ランダムイベント: " +:+ scenario))).
  { intros log. exact (proj1 (capped_append 200 log _ ltac:(lia))). }
  assert (Hid : forall ps : list PokemonALOs,
             ps = alter (set_position (position (ps !!! 0%nat))) 0%nat ps).
  { intros ps. apply list_eq. intros k. rewrite list_lookup_alter.
    destruct (decide (0%nat = k)) as [<- |]; [| reflexivity].
    destruct (ps !! 0%nat) as [q |] eqn:Hq; [| reflexivity].
    cbn. f_equal. rewrite (list_lookup_total_correct _ _ _ Hq).
    apply set_position_same. }
  destruct selected as [| a [| b [| c rest]]];
    unfold pokemon, gets, update, modify, ret;
    cbn [engine random_state event_log set_event_log pokemons set_pokemons];
    eexists; (split; [exact Hin |]); (split; [reflexivity |]);
    cbn [engine event_log set_event_log set_pokemons pokemons];
    (split; [apply Hlast |]);
    try (exists 0%nat; eexists; apply Hid).
  exists a.
  exists (position (move_towards (position (pokemons (engine w) !!! b)) 0.5
                      (pokemons (engine w) !!! a))).
  apply list_eq. intros k. rewrite !list_lookup_alter.
  destruct (decide (a = k)) as [<- |]; [| reflexivity].
  destruct (pokemons (engine w) !! a) as [q |] eqn:Hq; [| reflexivity].
  cbn. f_equal. rewrite (list_lookup_total_correct _ _ _ Hq).
  apply move_towards_only.
Qed.

Section With_ieee_pow.
#[local] Existing Instance ieee_pow.

Lemma random_event_edge_cases_witness :
  _trigger_random_event uneventful_world = (Returned None, uneventful_world) /\
  _trigger_random_event blind_world = (Raised "chromadb error", blind_world).
Proof.
  split.
  - exact (random_event_edge_cases uneventful_world).
  - exact (random_event_edge_cases blind_world).
Defined.

End With_ieee_pow.

(** * Learning and the enumeration of pairs *)

Lemma knows_true (m : string) (p : PokemonALOs) :
  m ∈ current_abilities p -> knows m p = true.
Proof.
  intros Hin. unfold knows. apply existsb_exists.
  exists m. split; [apply list_elem_of_In, Hin | apply String.eqb_refl].
Qed.

(** X26. [learn_move] never lists a move twice: a move the agent knows
    leaves the agent exactly as it is (its mood included), a new move is
    appended and the mood becomes excited, and learning the same move a
    second time changes nothing.  Abilities without duplicates stay without
    duplicates. *)
Theorem learn_move_is_idempotent (m : string) (p : PokemonALOs) :
  (m ∈ current_abilities p -> learn_move m p = p) /\
  (m ∉ current_abilities p ->
   current_abilities (learn_move m p) = (current_abilities p ++ [m])%list /\
   mood (learn_move m p) = excited) /\
  m ∈ current_abilities (learn_move m p) /\
  learn_move m (learn_move m p) = learn_move m p /\
  (NoDup (current_abilities p) -> NoDup (current_abilities (learn_move m p))).
Proof.
  assert (Hin : m ∈ current_abilities (learn_move m p)).
  { unfold learn_move. destruct (knows m p) eqn:Hk.
    - unfold knows in Hk. apply existsb_exists in Hk as (x & Hx & Hxm).
      apply String.eqb_eq in Hxm. subst x. apply list_elem_of_In, Hx.
    - cbn. apply elem_of_app. right. constructor. }
  split; [| split; [| split; [exact Hin | split]]].
  - intros Hm. unfold learn_move. rewrite (knows_true m p Hm). reflexivity.
  - intros Hm. unfold learn_move.
    destruct (knows m p) eqn:Hk; [| split; reflexivity].
    exfalso. apply Hm. unfold knows in Hk.
    apply existsb_exists in Hk as (x & Hx & Hxm).
    apply String.eqb_eq in Hxm. subst x. apply list_elem_of_In, Hx.
  - unfold learn_move at 1. rewrite (knows_true _ _ Hin). reflexivity.
  - intros Hnd. unfold learn_move.
    destruct (knows m p) eqn:Hk; [exact Hnd |].
    cbn. apply NoDup_app. split; [exact Hnd |].
    split; [| apply NoDup_singleton].
    intros x Hx Hx'. apply list_elem_of_singleton in Hx'. subst x.
    exact (knows_false m p Hk Hx).
Qed.

Lemma for_each_app {A S : Type} (l1 l2 : list A) (body : A -> S -> M S)
    (acc : S) (w : World) :
  for_each (l1 ++ l2) body acc w
  = bind (for_each l1 body acc) (for_each l2 body) w.
Proof.
  revert acc w. induction l1 as [| x l1 IH]; intros acc w; cbn [app for_each].
  - reflexivity.
  - unfold bind. destruct (body x acc w) as [[a | e] w1].
    + rewrite IH. unfold bind. reflexivity.
    + reflexivity.
Qed.

Lemma for_each_map {A B S : Type} (f : A -> B) (l : list A)
    (body : B -> S -> M S) (acc : S) (w : World) :
  for_each (map f l) body acc w = for_each l (fun x => body (f x)) acc w.
Proof.
  revert acc w. induction l as [| x l IH]; intros acc w; cbn [map for_each].
  - reflexivity.
  - unfold bind. destruct (body (f x) acc w) as [[a | e] w1];
      [apply IH | reflexivity].
Qed.

Lemma elem_of_ordered_pairs (n i j : nat) :
  (i, j) ∈ ordered_pairs n <-> (i < j < n)%nat.
Proof.
  unfold ordered_pairs. rewrite list_elem_of_In, in_flat_map. split.
  - intros (a & Ha & Hij). apply in_seq in Ha.
    apply in_map_iff in Hij as (b & [= <- <-] & Hb). apply in_seq in Hb. lia.
  - intros Hij. exists i. split; [apply in_seq; lia |].
    apply in_map_iff. exists j. split; [reflexivity | apply in_seq; lia].
Qed.

Lemma NoDup_ordered_pairs (n : nat) : NoDup (ordered_pairs n).
Proof.
  unfold ordered_pairs.
  assert (H : forall l, NoDup l ->
            NoDup (flat_map (fun i => map (pair i) (seq (S i) (n - S i))) l)).
  { induction l as [| a l IH]; intros Hl; [constructor |].
    apply NoDup_cons in Hl as [Ha Hl]. cbn [flat_map].
    apply NoDup_app. split; [| split; [| apply IH, Hl]].
    - apply NoDup_fmap_2; [intros x y [= ->]; reflexivity | apply NoDup_seq].
    - intros [x y] Hx Hy.
      apply list_elem_of_In, in_map_iff in Hx as (b & [= <- <-] & _).
      apply list_elem_of_In, in_flat_map in Hy as (a' & Ha' & Hy).
      apply in_map_iff in Hy as (b' & [= <- <-] & _).
      apply Ha, list_elem_of_In, Ha'. }
  apply H, NoDup_seq.
Qed.

(** X27. The pair loop of [step] visits every pair of agent indices
    [i < j] exactly once, in the fixed lexicographic order (first index,
    then second): it is a single loop over that list of pairs, threading
    the events collected so far and stopping at the first pair that
    raises.  A pair is never visited in both orders, and no agent is paired
    with itself. *)
Theorem pair_loop_visits_each_pair_once (n : nat)
    (body : nat -> nat -> list string -> M (list string))
    (evs : list string) (w : World) :
  for_pairs n body evs w
  = for_each (ordered_pairs n) (fun ij => body (fst ij) (snd ij)) evs w /\
  NoDup (ordered_pairs n) /\
  (forall i j, (i, j) ∈ ordered_pairs n <-> (i < j < n)%nat).
Proof.
  split; [| split; [apply NoDup_ordered_pairs | apply elem_of_ordered_pairs]].
  unfold for_pairs, ordered_pairs.
  generalize (seq 0 n). intros l. revert evs w.
  induction l as [| a l IH]; intros evs w; cbn [for_each flat_map].
  - reflexivity.
  - rewrite for_each_app. unfold bind.
    rewrite for_each_map. cbn [fst snd].
    destruct (for_each (seq (S a) (n - S a)) (fun x => body a x) evs w)
      as [[evs' | e] w1]; [apply IH | reflexivity].
Qed.

Example ordered_pairs_of_three :
  ordered_pairs 3 = [(0, 1); (0, 2); (1, 2)]%nat.
Proof. reflexivity. Qed.

(** * The context source without its vector index *)

Lemma summary_line_returns (r : Rag.t) (k : string) :
  Rag.has_entry r k -> exists line, Rag.summary_line r k = Returned line.
Proof.
  intros (pokemon & Hp & Hfields).
  repeat (apply Forall_cons in Hfields as [[? ?] Hfields]).
  unfold Rag.summary_line, Rag.item, Rag.and_then.
  rewrite Hp.
  repeat match goal with H : pokemon !! _ = Some _ |- _ => rewrite H; clear H end.
  eexists; reflexivity.
Qed.

(** X28. With the vector index switched off, [query_context] ignores both
    the query text and [n_results]: every call gives the same outcome.
    When the context file has the entries of the three agents with their
    five summary fields, that outcome is a list of exactly three lines;
    when the entry of the first agent is missing it is a [KeyError].
    [get_interaction_scenarios] never raises and gives the empty list when
    the file has no scenario list; [get_pokemon_data] gives the empty
    dictionary for an unknown key. *)
Theorem context_source_without_index (r : Rag.t) :
  Rag.use_rag r = false ->
  (forall q n q' n', Rag.query_context r q n = Rag.query_context r q' n') /\
  (Rag.complete r ->
   exists a b c, forall q n, Rag.query_context r q n = Returned [a; b; c]) /\
  (Rag.pokemon_entries r !! "pikachu" = None ->
   forall q n, Rag.query_context r q n = Raised "KeyError") /\
  (Rag.interaction_scenarios r = None ->
   Rag.get_interaction_scenarios r = []) /\
  (forall k, Rag.pokemon_entries r !! k = None ->
             Rag.get_pokemon_data r k = ∅).
Proof.
  intros Hoff. unfold Rag.query_context. rewrite Hoff. cbn [negb].
  split; [reflexivity |]. split; [| split; [| split]].
  - intros Hc. unfold Rag.complete in Hc.
    apply Forall_cons in Hc as [H1 Hc].
    apply Forall_cons in Hc as [H2 Hc].
    apply Forall_cons in Hc as [H3 _].
    destruct (summary_line_returns r _ H1) as [a Ha].
    destruct (summary_line_returns r _ H2) as [b Hb].
    destruct (summary_line_returns r _ H3) as [c Hc].
    exists a, b, c. intros _ _.
    unfold Rag._get_all_context_summary. cbn [Rag.summary_of].
    rewrite Ha, Hb, Hc. reflexivity.
  - intros Hnone _ _.
    unfold Rag._get_all_context_summary. cbn [Rag.summary_of].
    unfold Rag.summary_line at 1, Rag.item. rewrite Hnone. reflexivity.
  - intros Hnone. unfold Rag.get_interaction_scenarios. rewrite Hnone.
    reflexivity.
  - intros k Hk. unfold Rag.get_pokemon_data. rewrite Hk. reflexivity.
Qed.

Lemma context_source_without_index_witness :
  (forall q n q' n',
     Rag.query_context plain_rag q n = Rag.query_context plain_rag q' n') /\
  (Rag.complete plain_rag ->
   exists a b c,
     forall q n, Rag.query_context plain_rag q n = Returned [a; b; c]) /\
  (Rag.pokemon_entries plain_rag !! "pikachu" = None ->
   forall q n, Rag.query_context plain_rag q n = Raised "KeyError") /\
  (Rag.interaction_scenarios plain_rag = None ->
   Rag.get_interaction_scenarios plain_rag = []) /\
  (forall k, Rag.pokemon_entries plain_rag !! k = None ->
             Rag.get_pokemon_data plain_rag k = ∅).
Proof. exact (context_source_without_index plain_rag eq_refl). Defined.

Lemma sample_entry_fields (nm : string) :
  Forall (fun field => is_Some (sample_entry nm !! field))
         ["name"; "owner"; "species"; "type"; "personality"].
Proof.
  unfold sample_entry.
  repeat (apply Forall_cons; split;
          [repeat (rewrite lookup_insert_ne by discriminate);
           rewrite lookup_insert_eq; eexists; reflexivity |]).
  constructor.
Qed.

Lemma plain_rag_complete : Rag.complete plain_rag.
Proof.
  unfold Rag.complete.
  apply Forall_cons; split.
  { exists (sample_entry "ピカチュウ"). split; [reflexivity |].
    apply sample_entry_fields. }
  apply Forall_cons; split.
  { exists (sample_entry "ニャース"). split; [reflexivity |].
    apply sample_entry_fields. }
  apply Forall_cons; split; [| constructor].
  exists (sample_entry "ニャオハ"). split; [reflexivity |].
  apply sample_entry_fields.
Qed.

(** X29. An engine whose context source is a complete context file read
    without the vector index never raises from [step]: every tick returns
    a snapshot, whatever the narrator does and whatever the random draws
    are. *)
Theorem step_returns_without_index {libm : Flt.Libm} (w : World) (r : Rag.t) :
  rag_system (engine w) = Rag.as_context_source r ->
  Rag.use_rag r = false ->
  Rag.complete r ->
  exists snapshot w', step w = (Returned snapshot, w').
Proof.
  intros Hrag Hoff Hc.
  assert (Hq : exists a b c,
             forall q n, Rag.query_context r q n = Returned [a; b; c]).
  { unfold Rag.query_context. rewrite Hoff. cbn [negb].
    unfold Rag.complete in Hc.
    apply Forall_cons in Hc as [H1 Hc].
    apply Forall_cons in Hc as [H2 Hc].
    apply Forall_cons in Hc as [H3 _].
    destruct (summary_line_returns r _ H1) as [a Ha].
    destruct (summary_line_returns r _ H2) as [b Hb].
    destruct (summary_line_returns r _ H3) as [c Hc].
    exists a, b, c. intros _ _.
    unfold Rag._get_all_context_summary. cbn [Rag.summary_of].
    rewrite Ha, Hb, Hc. reflexivity. }
  destruct Hq as (a & b & c & Hq).
  pose proof (keep_step (fun _ => True) (fun _ => True)
                (rag_system (engine w))) as H.
  assert (Hk : kept (fun _ => True) (fun _ => True) (rag_system (engine w)) w).
  { repeat split; apply Forall_forall; intros; exact I. }
  specialize (H ltac:(exact I) ltac:(intros; exact I) ltac:(intros; exact I)
                ltac:(intros; exact I) ltac:(intros; exact I)
                ltac:(intros; exact I) ltac:(intros; exact I)
                ltac:(intros; exact I) ltac:(intros; exact I)
                ltac:(intros; exact I) ltac:(intros; exact I)
                ltac:(intros; exact I) w Hk).
  destruct (step w) as [[snapshot | e] w'].
  - exists snapshot, w'. reflexivity.
  - exfalso. destruct H as [_ [(q & n & err & Hfail) | (err & Hfail)]];
      rewrite Hrag in Hfail; cbn in Hfail.
    + rewrite Hq in Hfail. discriminate.
    + discriminate.
Qed.

Section With_ieee_pow.
#[local] Existing Instance ieee_pow.

Lemma step_returns_without_index_witness :
  exists snapshot w', step plain_world = (Returned snapshot, w').
Proof.
  exact (step_returns_without_index plain_world plain_rag eq_refl eq_refl
           plain_rag_complete).
Defined.

End With_ieee_pow.

(** * Picking an item up with a full inventory *)

Lemma practice_returns (i : nat) (w : World) :
  fst (_practice_move i w) = Returned tt.
Proof.
  unfold _practice_move, bind, pokemon, gets, rand, update, modify, log_event,
    modify, ret.
  cbn [engine]. destruct (_ <=? _)%nat; [reflexivity |].
  destruct (filter _ _); [reflexivity |].
  destruct (Random.random _) as [u s1]. cbn [engine random_state].
  destruct (PrimFloat.ltb u 0.3); [| reflexivity].
  match goal with
  | |- context [@Random.choice ?A ?H ?l ?s] =>
      destruct (@Random.choice A H l s) as [m s2]
  end.
  reflexivity.
Qed.

Lemma individual_action_returns (i : nat) (w : World) :
  fst (_handle_individual_action i w) = Returned tt.
Proof.
  unfold _handle_individual_action, random_walk, bind, pokemon, gets, rand,
    update, modify, log_event, modify, ret.
  cbn [engine].
  destruct (_ <? 30).
  { cbn [engine random_state]. destruct (Random.random _) as [u s1].
    destruct (PrimFloat.ltb u 0.1); reflexivity. }
  destruct (_ <? 40).
  { cbn [engine random_state]. destruct (Random.random _) as [u s1].
    destruct (PrimFloat.ltb u 0.15); reflexivity. }
  destruct (Random.uniform _ _ (random_state w)) as [dx s1].
  cbn [engine random_state].
  destruct (Random.uniform _ _ s1) as [dy s2]. cbn [engine random_state].
  destruct (Random.random s2) as [u s3]. cbn [engine random_state].
  destruct (PrimFloat.ltb u _); [apply practice_returns | reflexivity].
Qed.

Lemma lookup_alter_const (ps : list PokemonALOs) (i : nat) (q : PokemonALOs) :
  (i < length ps)%nat -> alter (fun _ => q) i ps !!! i = q.
Proof. intros Hi. rewrite list_lookup_total_alter_eq by exact Hi. reflexivity. Qed.

(** X30. An item is never lost to a full inventory.  When, after its
    action of the tick, an agent stands on an item and its inventory has no
    room, the item leaves the field and is used on the spot: the agent ends
    the turn as [auto_use_item] leaves the agent on which the item's effect
    was applied, and the turn returns. *)
Theorem full_inventory_uses_item_at_once {libm : Flt.Libm}
    (w : World) (i : nat) (it : Item)
    (m' : ItemManager) :
  let w1 := snd (_handle_individual_action i w) in
  let p1 := pokemons (engine w1) !!! i in
  (i < length (pokemons (engine w1)))%nat ->
  check_pickup p1 0.6 (item_manager (engine w1)) = (Some it, m') ->
  (max_inventory p1 <= length (inventory p1))%nat ->
  let w' := snd (individual_turn i tt w) in
  fst (individual_turn i tt w) = Returned tt /\
  pokemons (engine w') !!! i = snd (auto_use_item (snd (use it p1))) /\
  item_manager (engine w') = m' /\
  inventory (pokemons (engine w') !!! i)
    `sublist_of` inventory p1.
Proof.
  intros w1 p1 Hi Hpick Hfull.
  assert (Hadd : add_item it p1 = (false, p1)).
  { unfold add_item.
    destruct (Nat.ltb_spec (length (inventory p1)) (max_inventory p1));
      [lia | reflexivity]. }
  assert (Hturn :
    individual_turn i tt w
    = (let* p := pokemon i in
       let* picked_item := pickup p 0.6 in
       (match picked_item with
        | Some it =>
            let* added := method i (add_item it) in
            if added : bool
            then log_event ("📦 " +:+ name p +:+ "は" +:+ item_name it
                              +:+ "を拾った！")
            else
              let* result := method i (use it) in
              log_event ("💊 " +:+ result)
        | None => ret tt
        end) >>
       let* auto_use_result := method i auto_use_item in
       match auto_use_result with
       | Some msg => if truthy msg then log_event ("💊 " +:+ msg) else ret tt
       | None => ret tt
       end) w1).
  { unfold individual_turn. unfold bind at 1. subst w1.
    pose proof (individual_action_returns i w) as Hret.
    destruct (_handle_individual_action i w) as [[[] | e] w0];
      [reflexivity | discriminate]. }
  cbn zeta. rewrite Hturn. clear Hturn.
  unfold bind, pokemon, gets, pickup, method, bind, pokemon, gets, update,
    modify, ret, log_event, modify.
  cbn [engine random_state]. fold p1. rewrite Hpick.
  cbn [engine random_state pokemons set_pokemons set_item_manager
       set_event_log item_manager].
  fold p1. rewrite Hadd. cbn [fst snd].
  cbn [engine random_state pokemons set_pokemons set_item_manager
       set_event_log item_manager].
  rewrite !lookup_alter_const by (rewrite ?length_alter; exact Hi).
  cbn [engine random_state pokemons set_pokemons set_item_manager
       set_event_log item_manager].
  rewrite ?lookup_alter_const by (rewrite ?length_alter; exact Hi).
  assert (Hsub : inventory (snd (auto_use_item (snd (use it p1))))
                 `sublist_of` inventory p1).
  { rewrite <- (use_inventory it p1).
    generalize (snd (use it p1)). intros q. unfold auto_use_item.
    assert (Hui : forall idx, inventory (snd (use_item idx q))
                              `sublist_of` inventory q).
    { intros idx. unfold use_item. destruct (_ && _); [| reflexivity].
      destruct (inventory q !! Z.to_nat idx) as [x |]; [| reflexivity].
      pose proof (use_inventory x
                    (set_inventory (delete (Z.to_nat idx) (inventory q)) q))
        as Hx.
      destruct (use x _) as [msg q']. cbn [snd] in *. rewrite Hx.
      cbn. apply sublist_delete. }
    repeat (match goal with
            | |- context [match ?x with Some _ => _ | None => _ end] =>
                destruct x
            end); first [apply Hui | reflexivity]. }
  destruct (auto_use_item (snd (use it p1))) as [[msg |] q] eqn:Hauto;
    cbn [fst snd] in *.
  - destruct (truthy msg);
      cbn [fst snd engine pokemons set_pokemons set_event_log item_manager
           set_item_manager];
      rewrite ?lookup_alter_const
        by (rewrite ?length_alter; exact Hi);
      repeat split; exact Hsub.
  - cbn [fst snd engine pokemons set_pokemons set_event_log item_manager
         set_item_manager].
    rewrite ?lookup_alter_const by (rewrite ?length_alter; exact Hi).
    repeat split; exact Hsub.
Qed.

Section With_ieee_pow.
#[local] Existing Instance ieee_pow.

Lemma full_inventory_uses_item_at_once_witness :
  fst (individual_turn 0 tt heavy_world) = Returned tt /\
  hp (pokemons (engine (snd (individual_turn 0 tt heavy_world))) !!! 0%nat)
  = 100 /\
  energy (pokemons (engine (snd (individual_turn 0 tt heavy_world))) !!! 0%nat)
  = 60 /\
  items_on_field (item_manager (engine (snd (individual_turn 0 tt heavy_world))))
  = [] /\
  length (inventory
            (pokemons (engine (snd (individual_turn 0 tt heavy_world)))
             !!! 0%nat)) = 2%nat.
Proof.
  pose proof (full_inventory_uses_item_at_once heavy_world 0
                (placed oran_berry 2 3.05)
                (mkItemManager (10%float, 10%float) [] 0.03%float 5)
                ltac:(vm_compute; lia) ltac:(vm_compute; reflexivity)
                ltac:(vm_compute; lia))
    as (Hret & Hagent & Hfield & _).
  cbn zeta in *. rewrite Hagent, Hfield.
  split; [exact Hret |]. vm_compute. repeat split.
Defined.

End With_ieee_pow.
